(** * An end-to-end deployment harness for a manifest generator

    Shallow embedding of the Go harness that, per test case, creates a
    namespace, runs the generator ([RunKapp]), pipes the manifests into
    [kubectl create] ([RunKubeCreate]), waits for pods ([PodsStarted]),
    resolves node-port URLs ([getEndPoints]), polls them
    ([pingEndPoints]) and deletes the namespace.

    The repository holds three textual copies of these functions
    (package [main], sequential; package [main], one goroutine per test;
    package [e2e], [Test_Integration]).  The leaf functions are the same
    in all three up to the logging call ([log.Debugf]/[log.Infof]
    against [t.Logf]); they are embedded once, with the sink as a
    parameter.  Of the orchestrators, the sequential [RunTests] and the
    body of a [Test_Integration] subtest are embedded first; the
    function of a goroutine of the concurrent [RunTests] and [main]
    follow.

    Everything outside the process (cluster API, HTTP, child processes,
    the order in which Go iterates over a map) is an oracle indexed by a
    logical clock, and every interaction is recorded in a trace. *)

From Stdlib Require Import ZArith List String Ascii Lia.
From stdpp Require Import base option list gmap strings pretty fin_maps sorting.

Local Open Scope string_scope.
Local Open Scope Z_scope.
Local Open Scope list_scope.

(** ** Go strings *)

(** [strings.Contains(s, substr)]: a window of [s] equals [substr]. *)
Fixpoint Contains (s substr : string) : bool :=
  String.prefix substr s ||
  match s with
  | EmptyString => false
  | String _ s' => Contains s' substr
  end.

(** [strings.Join(elems, sep)]. *)
Fixpoint Join (elems : list string) (sep : string) : string :=
  match elems with
  | [] => EmptyString
  | [e] => e
  | e :: rest => e +:+ sep +:+ Join rest sep
  end.

(** The verb [%d] on an [int32]: signed decimal, no padding. *)
Definition fmt_d (n : Z) : string := pretty n.

Definition newline : string := String (ascii_of_nat 10) EmptyString.

(** ** Errors and formatted values

    An [error] is kept as the call that built it: the text of the format
    and the operands, so that a statement can say which operands an
    error carries without a model of the [%q] and [%v] verbs. *)

Inductive error : Type :=
| External (msg : string)
| Errorf (format : string) (args : list arg)
| Wrap (cause : error) (message : string)
| Wrapf (cause : error) (format : string) (args : list arg)
with arg : Type :=
| AStr (s : string)
| AInt (z : Z)
| AErr (e : error)
| AMap (m : gmap string string).

(** A run-time panic, and the three ways a call of type [(A, error)]
    can end. *)
Inductive panic : Type :=
| IndexOutOfRange (index len : nat).

Inductive result (A : Type) : Type :=
| Ok (a : A)
| Err (e : error)
| Panic (p : panic).
Arguments Ok {A} a.
Arguments Err {A} e.
Arguments Panic {A} p.

(** ** Kubernetes objects, restricted to the fields that are read *)

Module v1.
Definition PodPhase := string.
Definition PodRunning : PodPhase := "Running".

Record Pod := { Pod_Name : string; Pod_Phase : PodPhase }.
(** Ports are [int32]; they are compared and printed, never computed
    with, so they are kept as [Z]. *)
Record ServicePort := { Port : Z; NodePort : Z }.
Record Service := { Service_Name : string; Spec_Ports : list ServicePort }.
(** [Status.Addresses[i].Address] *)
Record Node := { Addresses : list string }.
End v1.

Record ServicePort := { Name : string; Port : Z }.

Record testData := {
  TestName : string;
  Namespace : string;
  InputFiles : list string;
  PodStarted : list string;
  NodePortServices : list ServicePort
}.

(** ** The outside world *)

Record Response := { Status : string }.

(** What [cmd.Run] leaves behind: both buffers and the error. *)
Record RunResult := {
  run_stdout : list Byte.byte;
  run_stderr : string;
  run_err : option error
}.

(** How far [kubectl create] got, one constructor per exit of
    [RunKubeCreate]. *)
Inductive KubectlResult : Type :=
| KStdinPipe (e : error)
| KStdoutPipe (e : error)
| KStderrPipe (e : error)
| KStart (e : error)
| KWrite (e : error)
| KClose (e : error)
| KReadOut (e : error)
| KReadErr (e : error)
| KWait (kError : string) (e : error)
| KDone (kOutput : string).

(** The same for the later copy, which calls [CombinedOutput]. *)
Inductive CombinedResult : Type :=
| CStdinPipe (e : error)
| CFailed (output : string) (e : error)
| CDone (output : string).

Inductive level : Type := Debug | Info | Error | TLog.

(** The sink of a copy: logrus in package [main], [t.Logf] in [e2e]. *)
Inductive sink : Type := Logrus | Testing.

Inductive event : Type :=
| EvLog (lvl : level) (format : string) (args : list arg)
| EvLogln (lvl : level) (args : list arg)
| EvSleep (seconds : nat)
| EvCreateNS (name : string) (r : option error)
| EvDeleteNS (name : string) (r : option error)
| EvListPods (namespace : string) (r : list v1.Pod + error)
| EvListNodes (r : list v1.Node + error)
| EvListServices (namespace : string) (r : list v1.Service + error)
| EvHttpGet (url : string) (timeout : nat) (r : Response + error)
| EvKapp (path : string) (args : list string) (r : RunResult)
| EvKubectl (path : string) (args : list string) (stdin : list Byte.byte)
    (r : KubectlResult)
| EvKubectlCombined (path : string) (args : list string)
    (stdin : list Byte.byte) (r : CombinedResult).

(** Oracles.  The [nat] is the number of calls made so far, so an answer
    may change from one call to the next.  [range_order] is the order in
    which a [for ... range] statement over a map visits the entries;
    its [nat] is the number of such statements run so far.
    [ExpandEnv] is [os.ExpandEnv] under the environment of the process;
    [KappLoc] and [KubectlLoc] are the two package variables, set once
    in [main]. *)
Record Env := {
  range_order : ∀ V : Type, nat → gmap string V → list (string * V);
  create_ns : nat → string → option error;
  delete_ns : nat → string → option error;
  list_pods : nat → string → list v1.Pod + error;
  list_nodes : nat → list v1.Node + error;
  list_services : nat → string → list v1.Service + error;
  http_get : nat → string → Response + error;
  run_kapp : nat → string → list string → RunResult;
  run_kubectl : nat → string → list string → list Byte.byte → KubectlResult;
  run_kubectl_combined :
    nat → string → list string → list Byte.byte → CombinedResult;
  ExpandEnv : string → string;
  KappLoc : string;
  KubectlLoc : string
}.

(** Go leaves the iteration order of a map unspecified; all that is
    known is that every entry is visited once. *)
Definition range_ok (env : Env) : Prop :=
  ∀ (V : Type) (n : nat) (m : gmap string V),
    range_order env V n m ≡ₚ map_to_list m.

(** The trace so far and the two clocks. *)
Record World := {
  events : list event;
  calls : nat;
  ranges : nat
}.

(** ** A state monad over the world *)

Definition M (A : Type) : Type := World → A * World.

Definition ret {A} (a : A) : M A := λ w, (a, w).
Definition bind {A B} (m : M A) (k : A → M B) : M B :=
  λ w, let (a, w') := m w in k a w'.

Declare Scope go_scope.
Delimit Scope go_scope with go.
Notation "x <- m ;; k" := (bind m (λ x, k))
  (at level 100, m at next level, right associativity) : go_scope.
Notation "m ;;; k" := (bind m (λ _, k))
  (at level 100, right associativity) : go_scope.
Local Open Scope go_scope.

(** An event that is no call to the outside: a log line, a sleep. *)
Definition emit (e : event) : M unit :=
  λ w, (tt, {| events := events w ++ [e];
               calls := calls w; ranges := ranges w |}).

(** A call to the outside: the oracle answers, the call and its answer
    are recorded, the clock advances. *)
Definition call {A} (oracle : nat → A) (ev : A → event) : M A :=
  λ w, let r := oracle (calls w) in
       (r, {| events := events w ++ [ev r];
              calls := S (calls w); ranges := ranges w |}).

Definition Sleep (seconds : nat) : M unit := emit (EvSleep seconds).

Definition logf (k : sink) (lvl : level) (format : string) (args : list arg)
  : M unit :=
  emit (EvLog (match k with Logrus => lvl | Testing => TLog end) format args).

Section Harness.
Variable env : Env.

(** [for k, v := range m]: the entries in the order of this visit. *)
Definition range {V} (m : gmap string V) : M (list (string * V)) :=
  λ w, (range_order env V (ranges w) m,
        {| events := events w; calls := calls w; ranges := S (ranges w) |}).

(** *** [mapkeys] *)
Definition mapkeys (m : gmap string Z) : M (list string) :=
  entries <- range m ;;
  ret (foldl (λ keys kv, (keys ++ [kv.1])%list) [] entries).

(** *** [PodsStarted] *)

(** The inner loop, [for _, p := range pods.Items], for one key. *)
Fixpoint scan_pods (k : sink) (key : string) (items : list v1.Pod)
    (podUp : gmap string Z) : M (gmap string Z) :=
  match items with
  | [] => ret podUp
  | p :: items' =>
      if Contains (v1.Pod_Name p) key
         && String.eqb (v1.Pod_Phase p) v1.PodRunning
      then logf k Info "Pod %q started!" [AStr (v1.Pod_Name p)] ;;;
           scan_pods k key items' (delete key podUp)
      else scan_pods k key items' podUp
  end.

(** The outer loop, [for k := range podUp].  The body deletes the
    current key only, so the keys visited are those present when the
    statement starts. *)
Fixpoint scan_keys (k : sink) (keys : list (string * Z))
    (items : list v1.Pod) (podUp : gmap string Z) : M (gmap string Z) :=
  match keys with
  | [] => ret podUp
  | (key, _) :: keys' =>
      podUp' <- scan_pods k key items podUp ;;
      scan_keys k keys' items podUp'
  end.

(** One pass over the keys that are still waited for. *)
Definition pods_pass (k : sink) (items : list v1.Pod)
    (podUp : gmap string Z) : M (gmap string Z) :=
  entries <- range podUp ;;
  scan_keys k entries items podUp.

(** One turn of [for { ... }] is one unit of fuel; [None] is a loop
    that is still running when the fuel is gone.  [podUp] is local to
    [PodsStarted]; the loop hands it back so that it can be observed. *)
Fixpoint PodsStarted_loop (fuel : nat) (k : sink) (namespace : string)
    (podUp : gmap string Z) : M (option (option error) * gmap string Z) :=
  match fuel with
  | O => ret (None, podUp)
  | S fuel' =>
      keys <- mapkeys podUp ;;
      logf k Debug "pods not started yet: %q" [AStr (Join keys " ")] ;;;
      pods <- call (λ n, list_pods env n namespace) (EvListPods namespace) ;;
      match pods with
      | inr err =>
          ret (Some (Some (Wrap err "error while listing all pods")), podUp)
      | inl items =>
          podUp' <- pods_pass k items podUp ;;
          if Nat.eqb (size podUp') 0 then ret (Some None, podUp')
          else Sleep 1 ;;; PodsStarted_loop fuel' k namespace podUp'
      end
  end.

Definition make_podUp (podNames : list string) : gmap string Z :=
  foldl (λ podUp p, <[p := 0]> podUp) ∅ podNames.

Definition PodsStarted (fuel : nat) (k : sink) (namespace : string)
    (podNames : list string) : M (option (option error)) :=
  r <- PodsStarted_loop fuel k namespace (make_podUp podNames) ;;
  ret r.1.

(** *** [getEndPoints] *)

(** [fmt.Sprintf("%s:%d", svc.Name, svc.Port)] and
    [fmt.Sprintf("http://%s:%d", nodeIP, port)]. *)
Definition endpoint_key (svc : ServicePort) : string :=
  Name svc +:+ ":" +:+ fmt_d (Port svc).

Definition endpoint_url (nodeIP : string) (port : Z) : string :=
  "http://" +:+ nodeIP +:+ ":" +:+ fmt_d port.

(** [for _, p := range s.Spec.Ports] *)
Fixpoint match_ports (nodeIP : string) (svc : ServicePort)
    (ports : list v1.ServicePort) (endpoint : gmap string string)
    : gmap string string :=
  match ports with
  | [] => endpoint
  | p :: ports' =>
      if Z.eqb (v1.Port p) (Port svc)
      then match_ports nodeIP svc ports'
             (<[endpoint_key svc := endpoint_url nodeIP (v1.NodePort p)]>
                endpoint)
      else match_ports nodeIP svc ports' endpoint
  end.

(** [for _, s := range runningSvcs.Items] *)
Fixpoint match_services (nodeIP : string) (svc : ServicePort)
    (items : list v1.Service) (endpoint : gmap string string)
    : gmap string string :=
  match items with
  | [] => endpoint
  | s :: items' =>
      if String.eqb (v1.Service_Name s) (Name svc)
      then match_services nodeIP svc items'
             (match_ports nodeIP svc (v1.Spec_Ports s) endpoint)
      else match_services nodeIP svc items' endpoint
  end.

(** [for _, svc := range svcs] *)
Fixpoint match_declared (nodeIP : string) (svcs : list ServicePort)
    (items : list v1.Service) (endpoint : gmap string string)
    : gmap string string :=
  match svcs with
  | [] => endpoint
  | svc :: svcs' =>
      match_declared nodeIP svcs' items
        (match_services nodeIP svc items endpoint)
  end.

(** [node.Items[0].Status.Addresses[0].Address]: both index
    expressions are checked by the run time and nothing else. *)
Definition first_address (items : list v1.Node) : string + panic :=
  match items with
  | [] => inr (IndexOutOfRange 0 0)
  | n :: _ =>
      match v1.Addresses n with
      | [] => inr (IndexOutOfRange 0 0)
      | a :: _ => inl a
      end
  end.

Definition getEndPoints (k : sink) (namespace : string)
    (svcs : list ServicePort) : M (result (gmap string string)) :=
  node <- call (list_nodes env) EvListNodes ;;
  match node with
  | inr err => ret (Err (Wrap err "error while listing all nodes"))
  | inl items =>
      match first_address items with
      | inr p => ret (Panic p)
      | inl nodeIP =>
          logf k Debug "node ip address %s" [AStr nodeIP] ;;;
          runningSvcs <- call (λ n, list_services env n namespace)
                           (EvListServices namespace) ;;
          match runningSvcs with
          | inr err =>
              ret (Err (Wrap err "error while listing all services"))
          | inl running =>
              let endpoint := match_declared nodeIP svcs running ∅ in
              logf k Debug "endpoints: %#v" [AMap endpoint] ;;;
              ret (Ok endpoint)
          end
      end
  end.

(** *** [pingEndPoints] *)

(** [for e, u := range ep], one pass.  The map is the caller's: what
    is deleted here is gone for the caller too, so the map is handed
    back next to the error. *)
Fixpoint ping_entries (k : sink) (entries : list (string * string))
    (ep : gmap string string) : M (option error * gmap string string) :=
  match entries with
  | [] => ret (None, ep)
  | (e, u) :: rest =>
      respose <- call (λ n, http_get env n u) (EvHttpGet u 5) ;;
      match respose with
      | inr err =>
          logf k Debug
            "error while making http request %q for service %q, err: %v"
            [AStr u; AStr e; AErr err] ;;;
          Sleep 1 ;;;
          ping_entries k rest ep
      | inl r =>
          if String.eqb (Status r) "200 OK"
          then logf k Debug "%q is running!" [AStr e] ;;;
               ping_entries k rest (delete e ep)
          else ret (Some (Errorf "for service %q got %q"
                            [AStr e; AStr (Status r)]), ep)
      end
  end.

Fixpoint pingEndPoints (fuel : nat) (k : sink) (ep : gmap string string)
    : M (option (option error) * gmap string string) :=
  match fuel with
  | O => ret (None, ep)
  | S fuel' =>
      entries <- range ep ;;
      r <- ping_entries k entries ep ;;
      match r.1 with
      | Some err => ret (Some (Some err), r.2)
      | None =>
          if Nat.eqb (size r.2) 0 then ret (Some None, r.2)
          else pingEndPoints fuel' k r.2
      end
  end.

(** *** [RunKapp] *)

Definition kapp_args (files : list string) : list string :=
  foldl (λ args file, (args ++ ["-f"] ++ [ExpandEnv env file])%list)
    ["generate"] files.

Definition RunKapp (files : list string) : M (list Byte.byte + error) :=
  let args := kapp_args files in
  r <- call (λ n, run_kapp env n (KappLoc env) args)
         (EvKapp (KappLoc env) args) ;;
  match run_err r with
  | Some err =>
      ret (inr (Errorf ("error running %q" +:+ newline +:+ "%s %s")
                  [AStr ("kapp " +:+ Join args " ");
                   AStr (run_stderr r); AErr err]))
  | None => ret (inl (run_stdout r))
  end.

(** *** [RunKubeCreate] *)

Definition kubectl_args (namespace : string) : list string :=
  ["-n"; namespace; "create"; "-f"; "-"].

Definition deployed : string :=
  "deployed in namespace: %q" +:+ newline +:+ "%s".

(** The first copy: three pipes, then start, write, close, read, wait. *)
Definition RunKubeCreate (input : list Byte.byte) (namespace : string)
    : M (option error) :=
  let args := kubectl_args namespace in
  r <- call (λ n, run_kubectl env n (KubectlLoc env) args input)
         (EvKubectl (KubectlLoc env) args input) ;;
  match r with
  | KStdinPipe err =>
      ret (Some (Wrap err "cannot create the stdin pipe to kubectl"))
  | KStdoutPipe err =>
      ret (Some (Wrap err "cannot create the stdout pipe to kubectl"))
  | KStderrPipe err =>
      ret (Some (Wrap err "cannot create the stderr pipe to kubectl"))
  | KStart err =>
      ret (Some (Wrap err "cannot start running kubectl command"))
  | KWrite err =>
      ret (Some (Wrap err "cannot write to the stdin of kubectl command"))
  | KClose err => ret (Some (Wrap err "cannot close the kubectl stdin"))
  | KReadOut err =>
      ret (Some (Wrap err "error reading from the kubectl output"))
  | KReadErr err =>
      ret (Some (Wrap err "error reading from the kubectl error"))
  | KWait kError err =>
      ret (Some (Wrapf err
                   "failed while waiting on kubectl to complete, got: %s"
                   [AStr kError]))
  | KDone kOutput =>
      logf Logrus Info deployed [AStr namespace; AStr kOutput] ;;;
      ret None
  end.

(** The later copies: the input is written from a goroutine while
    [CombinedOutput] runs the process. *)
Definition RunKubeCreate_combined (k : sink) (input : list Byte.byte)
    (namespace : string) : M (option error) :=
  let args := kubectl_args namespace in
  r <- call (λ n, run_kubectl_combined env n (KubectlLoc env) args input)
         (EvKubectlCombined (KubectlLoc env) args input) ;;
  match r with
  | CStdinPipe err =>
      ret (Some (Wrap err "cannot create the stdin pipe to kubectl"))
  | CFailed output err =>
      ret (Some (Wrapf err "failed to execute, got: %s" [AStr output]))
  | CDone output =>
      logf k Info deployed [AStr namespace; AStr output] ;;;
      ret None
  end.

(** *** Namespaces *)

Definition createNS (name : string) : M (option error) :=
  call (λ n, create_ns env n name) (EvCreateNS name).

Definition Namespaces_Delete (name : string) : M (option error) :=
  call (λ n, delete_ns env n name) (EvDeleteNS name).

(** [deleteNamespace] of package [e2e]: returns nothing. *)
Definition deleteNamespace (namespace : string) : M unit :=
  r <- Namespaces_Delete namespace ;;
  match r with
  | Some err =>
      logf Testing Info "error deleting namespace %q: %v"
        [AStr namespace; AErr err]
  | None => ret tt
  end ;;;
  logf Testing Info "successfully deleted namespace: %q" [AStr namespace].

(** *** [RunTests], sequential copy *)

(** The body of [for _, test := range tests], followed by the rest of
    the loop.  [None]: one of the two polling loops is still running;
    [Some (Panic _)]: the process died in [getEndPoints]. *)
Fixpoint RunTests_loop (fuel : nat) (tests : list testData)
    : M (option (result unit)) :=
  match tests with
  | [] => ret (Some (Ok tt))
  | test :: tests' =>
      emit (EvLogln Info [AStr "Running:"; AStr (TestName test)]) ;;;
      created <- createNS (Namespace test) ;;
      match created with
      | Some err =>
          ret (Some (Err (Wrapf err "error creating namespace" [])))
      | None =>
      logf Logrus Debug "namespace %q created" [AStr (Namespace test)] ;;;
      convertedOutput <- RunKapp (InputFiles test) ;;
      match convertedOutput with
      | inr err => ret (Some (Err (Wrapf err "error running kapp" [])))
      | inl output =>
      applied <- RunKubeCreate output (Namespace test) ;;
      match applied with
      | Some err =>
          ret (Some (Err (Wrapf err "error running kubectl create" [])))
      | None =>
      started <- PodsStarted fuel Logrus (Namespace test) (PodStarted test) ;;
      match started with
      | None => ret None
      | Some (Some err) =>
          ret (Some (Err (Wrapf err "error finding running pods" [])))
      | Some None =>
      endPoints <- getEndPoints Logrus (Namespace test)
                     (NodePortServices test) ;;
      match endPoints with
      | Panic p => ret (Some (Panic p))
      | Err err => ret (Some (Err (Wrapf err "error getting nodes" [])))
      | Ok ep =>
      pinged <- pingEndPoints fuel Logrus ep ;;
      match pinged.1 with
      | None => ret None
      | Some (Some err) =>
          ret (Some (Err (Wrapf err "error pinging endpoint" [])))
      | Some None =>
      emit (EvLogln Info [AStr "Successfully pinged all endpoints!"]) ;;;
      deleted <- Namespaces_Delete (Namespace test) ;;
      match deleted with
      | Some err =>
          ret (Some (Err (Wrapf err "error deleting namespace" [])))
      | None =>
      logf Logrus Info "Successfully deleted namespace: %q"
        [AStr (Namespace test)] ;;;
      RunTests_loop fuel tests'
      end end end end end end end
  end.

(** *** A subtest of [Test_Integration] *)

(** How the function passed to [t.Run] ends: it returns, [t.Fatalf]
    stops it, or it panics. *)
Inductive verdict : Type :=
| Passed
| FailNow
| Panicked (p : panic).

(** [t.Fatalf]: [t.Logf] and then [t.FailNow]. *)
Definition Fatalf (format : string) (args : list arg) : M (option verdict) :=
  logf Testing Info format args ;;;
  ret (Some FailNow).

(** The statements below [defer deleteNamespace(...)]. *)
Definition subtest_steps (fuel : nat) (test : testData)
    : M (option verdict) :=
  convertedOutput <- RunKapp (InputFiles test) ;;
  match convertedOutput with
  | inr err => Fatalf "error running kapp: %v" [AErr err]
  | inl output =>
  applied <- RunKubeCreate_combined Testing output (Namespace test) ;;
  match applied with
  | Some err => Fatalf "error running kubectl create: %v" [AErr err]
  | None =>
  started <- PodsStarted fuel Testing (Namespace test) (PodStarted test) ;;
  match started with
  | None => ret None
  | Some (Some err) => Fatalf "error finding running pods: %v" [AErr err]
  | Some None =>
  endPoints <- getEndPoints Testing (Namespace test)
                 (NodePortServices test) ;;
  match endPoints with
  | Panic p => ret (Some (Panicked p))
  | Err err => Fatalf "error getting nodes: %v" [AErr err]
  | Ok ep =>
  pinged <- pingEndPoints fuel Testing ep ;;
  match pinged.1 with
  | None => ret None
  | Some (Some err) => Fatalf "error pinging endpoint: %v" [AErr err]
  | Some None =>
  logf Testing Info "Successfully pinged all endpoints!" [] ;;;
  ret (Some Passed)
  end end end end end.

(** The whole function: the deferred call runs when the steps are
    left, whichever way ([runtime.Goexit] from [t.FailNow] and a panic
    both run deferred calls); it does not run while they are still
    looping. *)
Definition subtest (fuel : nat) (test : testData) : M (option verdict) :=
  created <- createNS (Namespace test) ;;
  match created with
  | Some err => Fatalf "error creating namespace: %v" [AErr err]
  | None =>
      logf Testing Info "namespace %q created" [AStr (Namespace test)] ;;;
      v <- subtest_steps fuel test ;;
      match v with
      | None => ret None
      | Some v' => deleteNamespace (Namespace test) ;;; ret (Some v')
      end
  end.

(** The table of [RunTests]. *)
Definition example (dir : string) (file : string) : string :=
  "$GOPATH/src/github.com/surajssd/kapp/examples/" +:+ dir +:+ "/" +:+ file.

Definition wordpress_case (name namespace dir : string) : testData :=
  {| TestName := name;
     Namespace := namespace;
     InputFiles := [example dir "db.yaml"; example dir "web.yaml"];
     PodStarted := ["web"];
     NodePortServices := [{| Name := "wordpress"; Port := 8080 |}] |}.

Definition tests : list testData :=
  [ wordpress_case "Normal Wordpress test" "wordpress" "wordpress";
    wordpress_case "Testing configMap" "configmap" "configmap";
    wordpress_case "Testing customVol" "customvol" "customVol";
    wordpress_case "Testing health" "health" "health";
    wordpress_case "Testing healthChecks" "healthchecks" "healthchecks" ].

Definition RunTests (fuel : nat) : M (option (result unit)) :=
  RunTests_loop fuel tests.

End Harness.

(** ** Reading a trace *)

(** The events added between two worlds of one run. *)
Definition since (w w' : World) : list event :=
  drop (length (events w)) (events w').

Fixpoint count (f : event → bool) (tr : list event) : nat :=
  match tr with
  | [] => O
  | ev :: tr' => (if f ev then 1 else 0) + count f tr'
  end%nat.

Definition is_sleep (ev : event) : bool :=
  match ev with EvSleep _ => true | _ => false end.

Definition is_list_pods (ev : event) : bool :=
  match ev with EvListPods _ _ => true | _ => false end.

Definition is_http_get (ev : event) : bool :=
  match ev with EvHttpGet _ _ _ => true | _ => false end.

Definition is_delete (ev : event) : bool :=
  match ev with EvDeleteNS _ _ => true | _ => false end.

(** A probe that was answered, with a status line other than the one
    accepted. *)
Definition bad_probe (ev : event) : bool :=
  match ev with
  | EvHttpGet _ _ (inl r) => negb (String.eqb (Status r) "200 OK")
  | _ => false
  end.

(** The line logged when an endpoint answered [200 OK]. *)
Definition running_log (k : sink) (e : string) : event :=
  EvLog (match k with Logrus => Debug | Testing => TLog end)
    "%q is running!" [AStr e].

(** [sub] occurs in [s]. *)
Definition substring (sub s : string) : Prop :=
  ∃ pre post, s = pre +:+ sub +:+ post.

(** A pod that satisfies the key [key]. *)
Definition ready (key : string) (p : v1.Pod) : Prop :=
  substring key (v1.Pod_Name p) ∧ v1.Pod_Phase p = v1.PodRunning.

(** A live service and port that a declared entry matches. *)
Definition live (running : list v1.Service) (svc : ServicePort)
    (p : v1.ServicePort) : Prop :=
  ∃ s, s ∈ running ∧ p ∈ v1.Spec_Ports s
       ∧ v1.Service_Name s = Name svc ∧ v1.Port p = Port svc.

(** Every event that an action adds satisfies [P]. *)
Definition emits {A} (P : event → Prop) (m : M A) : Prop :=
  ∀ w, ∃ new, events (m w).2 = events w ++ new ∧ Forall P new.

(** ** A stub cluster

    One node [10.0.0.5], one service [svc] with port 8080 on node port
    30080, one running pod [web-abc123]; the oracles that vary are
    parameters. *)

Definition stub_pod : v1.Pod :=
  {| v1.Pod_Name := "web-abc123"; v1.Pod_Phase := v1.PodRunning |}.

Definition stub_service : v1.Service :=
  {| v1.Service_Name := "svc";
     v1.Spec_Ports := [{| v1.Port := 8080; v1.NodePort := 30080 |}] |}.

Definition stub_node : v1.Node := {| v1.Addresses := ["10.0.0.5"] |}.

Definition stub (nodes : list v1.Node) (status : nat → Response + error)
    (kapp_err del_err : option error) : Env :=
  {| range_order := λ V _ m, map_to_list m;
     create_ns := λ _ _, None;
     delete_ns := λ _ _, del_err;
     list_pods := λ _ _, inl [stub_pod];
     list_nodes := λ _, inl nodes;
     list_services := λ _ _, inl [stub_service];
     http_get := λ n _, status n;
     run_kapp := λ _ _ _,
       {| run_stdout := []; run_stderr := "no such file";
          run_err := kapp_err |};
     run_kubectl := λ _ _ _ _, KDone "created";
     run_kubectl_combined := λ _ _ _ _, CDone "created";
     ExpandEnv := λ s, s;
     KappLoc := "/usr/bin/kapp";
     KubectlLoc := "/usr/bin/kubectl" |}.

Definition ok200 : nat → Response + error :=
  λ _, inl {| Status := "200 OK" |}.

Definition healthy : Env := stub [stub_node] ok200 None None.

Definition stub_case : testData :=
  {| TestName := "stub";
     Namespace := "ns";
     InputFiles := ["app.yaml"];
     PodStarted := ["web"];
     NodePortServices := [{| Name := "svc"; Port := 8080 |}] |}.

Definition w0 : World := {| events := []; calls := 0; ranges := 0 |}.


Definition is_log (ev : event) : bool :=
  match ev with EvLog _ _ _ | EvLogln _ _ => true | _ => false end.

(** The test of the inner loop of [PodsStarted], as a function. *)
Definition ready_b (key : string) (p : v1.Pod) : bool :=
  Contains (v1.Pod_Name p) key && String.eqb (v1.Pod_Phase p) v1.PodRunning.

(** An event other than a probe answered with a wrong status. *)
Definition good (ev : event) : Prop := bad_probe ev = false.

(** The error of [pingEndPoints]. *)
Definition health_error (e status : string) : error :=
  Errorf "for service %q got %q" [AStr e; AStr status].

(** The trace shows a probe of [u] answered [200 OK], logged for [e]. *)
Definition probed_ok (k : sink) (e u : string) (tr : list event) : Prop :=
  ∃ before after,
    tr = before ++ EvHttpGet u 5 (inl {| Status := "200 OK" |})
                :: running_log k e :: after.

(** What a stretch [new] of polling may do to the map: it only
    shrinks, an endpoint logged as running is gone, and nothing is
    gone but an entry whose URL answered [200 OK]. *)
Definition poll_ok (k : sink) (ep ep' : gmap string string)
    (new : list event) : Prop :=
  ep' ⊆ ep
  ∧ (∀ e, running_log k e ∈ new → ep' !! e = None)
  ∧ (∀ e, ep' !! e ≠ ep !! e → ∃ u, ep !! e = Some u ∧ probed_ok k e u new).

(** The trace shows a listing with a pod that is ready for [key]. *)
Definition listed_ready (namespace key : string) (tr : list event) : Prop :=
  ∃ items p, EvListPods namespace (inl items) ∈ tr ∧ p ∈ items ∧ ready key p.

(** How a stretch of polling ends: with an error exactly when its last
    event is a probe answered with a wrong status, the error names the
    probed entry, and the entry is still in the map. *)
Definition poll_end (ep ep' : gmap string string) (r : option error)
    (new : list event) : Prop :=
  match r with
  | Some err =>
      ∃ e u status before,
        new = before ++ [EvHttpGet u 5 (inl {| Status := status |})]
        ∧ Forall good before ∧ status ≠ "200 OK"
        ∧ ep !! e = Some u ∧ ep' !! e = Some u
        ∧ err = health_error e status
  | None => Forall good new
  end.

(** The world after [n] more calls that left [new] in the trace. *)
Definition advance (w : World) (n : nat) (new : list event) : World :=
  {| events := events w ++ new; calls := n + calls w; ranges := ranges w |}.

(** The character [:] does not occur in [s]. *)
Definition colon_free (s : string) : Prop :=
  ":"%char ∉ list_ascii_of_string s.

(** The argument vector of the generator, as the text of the claim
    gives it. *)
Definition generate_args (env : Env) (files : list string) : list string :=
  "generate" :: flat_map (λ file, ["-f"; ExpandEnv env file]) files.

(** The error of [RunKapp]. *)
Definition generation_error (args : list string) (r : RunResult)
    (err : error) : error :=
  Errorf ("error running %q" +:+ newline +:+ "%s %s")
    [AStr ("kapp " +:+ Join args " "); AStr (run_stderr r); AErr err].

Definition not_delete (ev : event) : Prop := is_delete ev = false.

(** [w'] is [w] after more events, all of them satisfying [P]. *)
Definition extends (P : event → Prop) (w w' : World) : Prop :=
  ∃ new, events w' = events w ++ new ∧ Forall P new.

(** The line [deleteNamespace] logs when the deletion failed. *)
Definition delete_failure_log (namespace : string) (err : error) : event :=
  EvLog TLog "error deleting namespace %q: %v" [AStr namespace; AErr err].

(** Variations of the stub: an unrelated pod whose name contains
    [web], two endpoints, answers other than [200 OK]. *)
Definition cache_pod : v1.Pod :=
  {| v1.Pod_Name := "webcache-xyz"; v1.Pod_Phase := v1.PodRunning |}.

Definition created201 : nat → Response + error :=
  λ _, inl {| Status := "201 Created" |}.

Definition refused : nat → Response + error :=
  λ _, inr (External "connection refused").

Definition two_endpoints : gmap string string :=
  <["db:3306" := "http://10.0.0.5:30306"]>
    (<["svc:8080" := "http://10.0.0.5:30080"]> ∅).

Definition accepted : Env := stub [stub_node] created201 None None.
Definition unreachable : Env := stub [stub_node] refused None None.
Definition no_node : Env := stub [] ok200 None None.
Definition no_address : Env :=
  stub [{| v1.Addresses := [] |}] ok200 None None.
Definition kapp_fails : Env :=
  stub [stub_node] ok200 (Some (External "exit status 1")) None.
Definition delete_fails : Env :=
  stub [stub_node] ok200 None (Some (External "forbidden")).

(** Runs on the stub. *)
Definition accepted_run := pingEndPoints accepted 3 Logrus two_endpoints w0.
Definition unreachable_run := pingEndPoints unreachable 1 Logrus two_endpoints w0.
Definition subtest_delete_fails_run := subtest delete_fails 1 stub_case w0.
Definition sequential_kapp_fails_run :=
  RunTests_loop kapp_fails 1 [stub_case] w0.
Definition sequential_delete_fails_run :=
  RunTests_loop delete_fails 1 [stub_case] w0.

(** ** The rest of the program

    The body of a goroutine of the concurrent [RunTests], and [main]
    with the discovery of the two tools. *)

(** How a goroutine ends: its function returns, or a panic in it ends
    the process. *)
Inductive goroutine_end : Type :=
| Returned
| Crashed (p : panic).

(** What [createClient] gives: [BuildConfigFromFlags] failed and the
    function panicked with the text of the error, [NewForConfig]
    failed, or there is a client. *)
Inductive ClientResult : Type :=
| ClientPanic (msg : string)
| ClientErr (e : error)
| ClientOk.

(** What [main] needs from the machine besides the cluster:
    [createClient] as a whole, and [exec.LookPath]. *)
Record Host := {
  create_client : ClientResult;
  LookPath : string → string + error
}.

(** How the process ends: [main] returns, [log.Fatalln] prints its
    operands and exits with status 1, or a panic is not recovered. *)
Inductive exit : Type :=
| MainReturned
| Fatalln (args : list arg)
| PanicText (msg : string)
| PanicRuntime (p : panic).

(** The environment once [main] has set the two package variables. *)
Definition with_tools (env : Env) (kapp kubectl : string) : Env :=
  {| range_order := range_order env;
     create_ns := create_ns env;
     delete_ns := delete_ns env;
     list_pods := list_pods env;
     list_nodes := list_nodes env;
     list_services := list_services env;
     http_get := http_get env;
     run_kapp := run_kapp env;
     run_kubectl := run_kubectl env;
     run_kubectl_combined := run_kubectl_combined env;
     ExpandEnv := ExpandEnv env;
     KappLoc := kapp;
     KubectlLoc := kubectl |}.

Section Variants.
Variable env : Env.

(** *** [RunTests], concurrent copy: the function of one goroutine

    [wg.Done] and the scheduling of the goroutines are left out: this
    is one goroutine seen alone, with the clock counting its own
    calls. *)
Definition Errorf_log (format : string) (err : error)
    : M (option goroutine_end) :=
  logf Logrus Error format [AErr err] ;;;
  ret (Some Returned).

Definition run_case (fuel : nat) (test : testData)
    : M (option goroutine_end) :=
  emit (EvLogln Info [AStr "Running:"; AStr (TestName test)]) ;;;
  created <- createNS env (Namespace test) ;;
  match created with
  | Some err => Errorf_log "error creating namespace: %v" err
  | None =>
  logf Logrus Debug "namespace %q created" [AStr (Namespace test)] ;;;
  convertedOutput <- RunKapp env (InputFiles test) ;;
  match convertedOutput with
  | inr err => Errorf_log "error running kapp: %v" err
  | inl output =>
  applied <- RunKubeCreate_combined env Logrus output (Namespace test) ;;
  match applied with
  | Some err => Errorf_log "error running kubectl create: %v" err
  | None =>
  started <- PodsStarted env fuel Logrus (Namespace test) (PodStarted test) ;;
  match started with
  | None => ret None
  | Some (Some err) => Errorf_log "error finding running pods: %v" err
  | Some None =>
  endPoints <- getEndPoints env Logrus (Namespace test)
                 (NodePortServices test) ;;
  match endPoints with
  | Panic p => ret (Some (Crashed p))
  | Err err => Errorf_log "error getting nodes: %v" err
  | Ok ep =>
  pinged <- pingEndPoints env fuel Logrus ep ;;
  match pinged.1 with
  | None => ret None
  | Some (Some err) => Errorf_log "error pinging endpoint: %v" err
  | Some None =>
  emit (EvLogln Info [AStr "Successfully pinged all endpoints!"]) ;;;
  deleted <- Namespaces_Delete env (Namespace test) ;;
  match deleted with
  | Some err => Errorf_log "error deleting namespace: %v" err
  | None =>
  logf Logrus Info "Successfully deleted namespace: %q"
    [AStr (Namespace test)] ;;;
  ret (Some Returned)
  end end end end end end end.

End Variants.

(** *** [FindKapp], [FindKubectl] and [main] *)

Definition FindKapp (host : Host) : M (string + error) :=
  match LookPath host "kapp" with
  | inr err => ret (inr (Wrap err "cannot find kapp"))
  | inl kapp =>
      logf Logrus Info "kapp location: %s" [AStr kapp] ;;;
      ret (inl kapp)
  end.

Definition FindKubectl (host : Host) : M (string + error) :=
  match LookPath host "kubectl" with
  | inr err => ret (inr (Wrap err "cannot find kubectl"))
  | inl kubectl =>
      logf Logrus Info "kubectl location: %s" [AStr kubectl] ;;;
      ret (inl kubectl)
  end.

(** [env] gives the cluster and the processes; its two locations are
    what the package variables hold before [main] assigns them. *)
Definition main (host : Host) (env : Env) (fuel : nat) : M (option exit) :=
  match create_client host with
  | ClientPanic msg => ret (Some (PanicText msg))
  | ClientErr err =>
      ret (Some (Fatalln [AStr "error getting kube client: "; AErr err]))
  | ClientOk =>
  kapp <- FindKapp host ;;
  match kapp with
  | inr err => ret (Some (Fatalln [AErr err]))
  | inl kappLoc =>
  kubectl <- FindKubectl host ;;
  match kubectl with
  | inr err => ret (Some (Fatalln [AErr err]))
  | inl kubectlLoc =>
  r <- RunTests (with_tools env kappLoc kubectlLoc) fuel ;;
  match r with
  | None => ret None
  | Some (Panic p) => ret (Some (PanicRuntime p))
  | Some (Err err) => ret (Some (Fatalln [AErr err]))
  | Some (Ok _) => ret (Some MainReturned)
  end end end end.

(** ** Classes of events *)

Definition is_create (ev : event) : bool :=
  match ev with EvCreateNS _ _ => true | _ => false end.

Definition is_kapp (ev : event) : bool :=
  match ev with EvKapp _ _ _ => true | _ => false end.

Definition is_error_log (ev : event) : bool :=
  match ev with EvLog Error _ _ => true | _ => false end.

(** A probe that got no answer. *)
Definition request_failed (ev : event) : bool :=
  match ev with EvHttpGet _ _ (inr _) => true | _ => false end.

(** The levels a copy logs at in its leaf functions. *)
Definition leaf_level (k : sink) (lvl : level) : bool :=
  match k, lvl with
  | Logrus, (Debug | Info) => true
  | Testing, TLog => true
  | _, _ => false
  end.

(** What [PodsStarted], [getEndPoints] and [pingEndPoints] may leave in
    the trace. *)
Definition watcher_event (k : sink) (namespace : string) (ev : event)
    : bool :=
  match ev with
  | EvLog lvl _ _ => leaf_level k lvl
  | EvSleep 1 => true
  | EvListPods ns _ => String.eqb ns namespace
  | _ => false
  end.

Definition resolver_event (k : sink) (namespace : string) (ev : event)
    : bool :=
  match ev with
  | EvLog lvl _ _ => leaf_level k lvl
  | EvListNodes _ => true
  | EvListServices ns _ => String.eqb ns namespace
  | _ => false
  end.

Definition poller_event (k : sink) (ep : gmap string string) (ev : event)
    : Prop :=
  match ev with
  | EvLog lvl _ _ => leaf_level k lvl = true
  | EvSleep 1 => True
  | EvHttpGet u 5 _ => ∃ e, ep !! e = Some u
  | _ => False
  end.

(** A process was started at one of the two given paths. *)
Definition tools_at (kapp kubectl : string) (ev : event) : Prop :=
  match ev with
  | EvKapp path _ _ => path = kapp
  | EvKubectl path _ _ _ => path = kubectl
  | EvKubectlCombined path _ _ _ => path = kubectl
  | _ => True
  end.

(** [make_podUp], read as a set. *)
Definition same_elements (l1 l2 : list string) : Prop :=
  ∀ x, x ∈ l1 ↔ x ∈ l2.


(** The ports of the live services that a declared entry matches, in
    the order in which [getEndPoints] meets them. *)
Definition candidates (svc : ServicePort) (running : list v1.Service)
    : list v1.ServicePort :=
  flat_map
    (λ s, if String.eqb (v1.Service_Name s) (Name svc)
          then List.filter (λ p, Z.eqb (v1.Port p) (Port svc))
                 (v1.Spec_Ports s)
          else [])
    running.

(** The URL of the last of [cands], or what was there before. *)
Definition last_url (nodeIP : string) (cands : list v1.ServicePort)
    (before : option string) : option string :=
  match last cands with
  | Some p => Some (endpoint_url nodeIP (v1.NodePort p))
  | None => before
  end.

(** ** The steps of a test case *)

(** The step of a test case that an event belongs to, in the order of
    the source; a log line or a sleep belongs to none. *)
Definition stage (ev : event) : option nat :=
  match ev with
  | EvCreateNS _ _ => Some 1
  | EvKapp _ _ _ => Some 2
  | EvKubectl _ _ _ _ | EvKubectlCombined _ _ _ _ => Some 3
  | EvListPods _ _ => Some 4
  | EvListNodes _ => Some 5
  | EvListServices _ _ => Some 6
  | EvHttpGet _ _ _ => Some 7
  | EvDeleteNS _ _ => Some 8
  | EvLog _ _ _ | EvLogln _ _ | EvSleep _ => None
  end%nat.

(** The two polling steps call the outside more than once. *)
Definition polls (s : nat) : bool := Nat.eqb s 4 || Nat.eqb s 7.

(** [ev1] may come before [ev2] in a test case: its step is an earlier
    one, or both belong to the same polling step. *)
Definition in_order (ev1 ev2 : event) : Prop :=
  ∀ s1 s2, stage ev1 = Some s1 → stage ev2 = Some s2 →
    (s1 < s2)%nat ∨ s1 = s2 ∧ polls s1 = true.

Definition bounded (lo hi : nat) (ev : event) : Prop :=
  ∀ s, stage ev = Some s → (lo ≤ s ≤ hi)%nat.

(** The event concerns the test case [test] and nothing else: its
    namespace, its input files, the two tools of [env]. *)
Definition about (env : Env) (test : testData) (ev : event) : Prop :=
  match ev with
  | EvCreateNS ns _ | EvDeleteNS ns _ | EvListPods ns _
  | EvListServices ns _ => ns = Namespace test
  | EvKapp path args _ =>
      path = KappLoc env ∧ args = kapp_args env (InputFiles test)
  | EvKubectl path args _ _ | EvKubectlCombined path args _ _ =>
      path = KubectlLoc env ∧ args = kubectl_args (Namespace test)
  | EvHttpGet _ timeout _ => timeout = 5%nat
  | EvSleep seconds => seconds = 1%nat
  | EvListNodes _ | EvLog _ _ _ | EvLogln _ _ => True
  end.

(** The answers that end a test case: any error of the cluster API or
    of a tool, a node listing that [getEndPoints] cannot index, and a
    probe answered with a status other than [200 OK].  A request that
    got no answer is not among them. *)
Definition hard_failure (ev : event) : bool :=
  match ev with
  | EvCreateNS _ (Some _) | EvDeleteNS _ (Some _) => true
  | EvKapp _ _ r => if run_err r is Some _ then true else false
  | EvKubectl _ _ _ r => if r is KDone _ then false else true
  | EvKubectlCombined _ _ _ r => if r is CDone _ then false else true
  | EvListPods _ (inr _) | EvListNodes (inr _)
  | EvListServices _ (inr _) => true
  | EvListNodes (inl nodes) =>
      if first_address nodes is inr _ then true else false
  | EvHttpGet _ _ (inl r) => negb (String.eqb (Status r) "200 OK")
  | _ => false
  end.

Definition soft (ev : event) : Prop := hard_failure ev = false.

(** The trace ends with its only hard failure. *)
Definition ends_hard (tr : list event) : Prop :=
  ∃ before ev, tr = before ++ [ev] ∧ Forall soft before
               ∧ hard_failure ev = true.

(** [kubectl] is started right after a run of the generator that
    succeeded, and reads what the generator wrote. *)
Definition feeds (prev : option event) (ev : event) : Prop :=
  match ev with
  | EvKubectl _ _ stdin _ | EvKubectlCombined _ _ stdin _ =>
      match prev with
      | Some (EvKapp _ _ r) => run_err r = None ∧ stdin = run_stdout r
      | _ => False
      end
  | _ => True
  end.

Definition piped (tr : list event) : Prop :=
  ∀ before ev after, tr = before ++ ev :: after → feeds (last before) ev.

(** Not a line at the level of errors. *)
Definition calm (ev : event) : Prop := is_error_log ev = false.

(** What holds of the trace of a test case as long as no step has
    failed, and up to the failure: it concerns the test case only, no
    error is logged, it has not gone beyond step [hi], its steps are in
    order, and [kubectl] reads from the generator. *)
Definition traced (env : Env) (test : testData) (hi : nat)
    (tr : list event) : Prop :=
  Forall (about env test) tr ∧ Forall calm tr ∧ Forall (bounded 0 hi) tr
  ∧ StronglySorted in_order tr ∧ piped tr.

(** What a step of a test case adds to the trace; [failed] tells from
    its result whether it stopped on a hard failure. *)
Definition step (env : Env) (test : testData) (lo hi : nat) {A}
    (failed : A → bool) (m : M A) : Prop :=
  ∀ w, ∃ new,
    events (m w).2 = events w ++ new
    ∧ Forall (about env test) new ∧ Forall calm new
    ∧ Forall (bounded lo hi) new ∧ StronglySorted in_order new
    ∧ if failed (m w).1 then ends_hard new else Forall soft new.

(** The test case that started at [w0] with the events [pre] is at [w]
    and no step has failed; a step has just failed. *)
Definition reached (env : Env) (test : testData) (hi : nat)
    (pre : list event) (w0 w : World) : Prop :=
  ∃ rest, events w = events w0 ++ pre ++ rest
          ∧ traced env test hi (pre ++ rest) ∧ Forall soft (pre ++ rest).

Definition stopped (env : Env) (test : testData) (hi : nat)
    (pre : list event) (w0 w : World) : Prop :=
  ∃ rest, events w = events w0 ++ pre ++ rest
          ∧ traced env test hi (pre ++ rest) ∧ ends_hard (pre ++ rest).

(** A namespace was created, was deleted. *)
Definition created_ok (ev : event) : bool :=
  match ev with EvCreateNS _ None => true | _ => false end.

Definition deleted_ok (ev : event) : bool :=
  match ev with EvDeleteNS _ None => true | _ => false end.

(** What [pingEndPoints] may leave in the trace, whatever the map. *)
Definition prober_event (k : sink) (ev : event) : bool :=
  match ev with
  | EvLog lvl _ _ => leaf_level k lvl
  | EvSleep 1 => true
  | EvHttpGet _ 5 _ => true
  | _ => false
  end.

(** The generator has just run for the test case and has succeeded
    with [output]. *)
Definition generated (env : Env) (test : testData) (pre : list event)
    (w0 w : World) (output : list Byte.byte) : Prop :=
  ∃ rest r,
    events w
    = events w0 ++ pre ++ rest
      ++ [EvKapp (KappLoc env) (kapp_args env (InputFiles test)) r]
    ∧ run_err r = None ∧ output = run_stdout r
    ∧ traced env test 2
        (pre ++ rest
         ++ [EvKapp (KappLoc env) (kapp_args env (InputFiles test)) r])
    ∧ Forall soft
        (pre ++ rest
         ++ [EvKapp (KappLoc env) (kapp_args env (InputFiles test)) r]).

(** The first and the last line of a test case of [RunTests]. *)
Definition running_line (test : testData) : event :=
  EvLogln Info [AStr "Running:"; AStr (TestName test)].

Definition deleted_line (test : testData) : event :=
  EvLog Info "Successfully deleted namespace: %q" [AStr (Namespace test)].

(** The trace of a test case that went through: its namespace was
    created and, as the last thing, deleted. *)
Definition completed (test : testData) (seg : list event) : Prop :=
  ∃ before,
    seg = running_line test :: EvCreateNS (Namespace test) None
          :: before ++ [EvDeleteNS (Namespace test) None; deleted_line test].

(** The trace of a test case that was started. *)
Definition started (test : testData) (seg : list event) : Prop :=
  ∃ c rest, seg = running_line test :: EvCreateNS (Namespace test) c :: rest.

(** Reading a trace with one bit of state, whether a namespace made by
    the run exists: a successful creation needs that none exists, a
    successful deletion that one does.  [None] when the trace breaks
    this, else the state at the end. *)
Fixpoint open_after (open : bool) (tr : list event) : option bool :=
  match tr with
  | [] => Some open
  | ev :: tr' =>
      if created_ok ev then
        if open then None else open_after true tr'
      else if deleted_ok ev then
        if open then open_after false tr' else None
      else open_after open tr'
  end.

(** ** More stubs *)

Definition db_pod : v1.Pod :=
  {| v1.Pod_Name := "db-7f9c"; v1.Pod_Phase := v1.PodRunning |}.

(** A cluster where the database pod runs at the first listing only and
    the web pod from the second listing on. *)
Definition rolling : Env :=
  {| range_order := range_order healthy;
     create_ns := create_ns healthy;
     delete_ns := delete_ns healthy;
     list_pods := λ n _, inl (match n with O => [db_pod] | _ => [stub_pod] end);
     list_nodes := list_nodes healthy;
     list_services := list_services healthy;
     http_get := http_get healthy;
     run_kapp := run_kapp healthy;
     run_kubectl := run_kubectl healthy;
     run_kubectl_combined := run_kubectl_combined healthy;
     ExpandEnv := ExpandEnv healthy;
     KappLoc := KappLoc healthy;
     KubectlLoc := KubectlLoc healthy |}.

Definition rolling_listings (i : nat) : list v1.Pod :=
  match i with O => [db_pod] | _ => [stub_pod] end.

(** A cluster with the service [svc] listed twice, on two node ports. *)
Definition moved_service : v1.Service :=
  {| v1.Service_Name := "svc";
     v1.Spec_Ports := [{| v1.Port := 8080; v1.NodePort := 30081 |}] |}.

Definition twins : Env :=
  {| range_order := range_order healthy;
     create_ns := create_ns healthy;
     delete_ns := delete_ns healthy;
     list_pods := list_pods healthy;
     list_nodes := list_nodes healthy;
     list_services := λ _ _, inl [stub_service; moved_service];
     http_get := http_get healthy;
     run_kapp := run_kapp healthy;
     run_kubectl := run_kubectl healthy;
     run_kubectl_combined := run_kubectl_combined healthy;
     ExpandEnv := ExpandEnv healthy;
     KappLoc := KappLoc healthy;
     KubectlLoc := KubectlLoc healthy |}.

(** ** Answers and removals *)

(** Every probe of the trace that was answered [200 OK] is followed at
    once by the line that reports the entry as running, for an entry
    of [ep] that holds the probed URL. *)
Definition answered (k : sink) (ep : gmap string string) (tr : list event)
    : Prop :=
  ∀ before u resp after,
    tr = before ++ EvHttpGet u 5 (inl resp) :: after →
    Status resp = "200 OK" →
    ∃ e after', after = running_log k e :: after' ∧ ep !! e = Some u.

(** The trace without its log lines. *)
Definition calls_only (tr : list event) : list event :=
  List.filter (λ ev, negb (is_log ev)) tr.

(** A cluster that refuses to list pods. *)
Definition unlisted : Env :=
  {| range_order := range_order healthy;
     create_ns := create_ns healthy;
     delete_ns := delete_ns healthy;
     list_pods := λ _ _, inr (External "forbidden");
     list_nodes := list_nodes healthy;
     list_services := list_services healthy;
     http_get := http_get healthy;
     run_kapp := run_kapp healthy;
     run_kubectl := run_kubectl healthy;
     run_kubectl_combined := run_kubectl_combined healthy;
     ExpandEnv := ExpandEnv healthy;
     KappLoc := KappLoc healthy;
     KubectlLoc := KubectlLoc healthy |}.

(** The stub cluster with maps visited in the opposite order. *)
Definition backwards : Env :=
  {| range_order := λ V _ m, reverse (map_to_list m);
     create_ns := create_ns healthy;
     delete_ns := delete_ns healthy;
     list_pods := list_pods healthy;
     list_nodes := list_nodes healthy;
     list_services := list_services healthy;
     http_get := http_get healthy;
     run_kapp := run_kapp healthy;
     run_kubectl := run_kubectl healthy;
     run_kubectl_combined := run_kubectl_combined healthy;
     ExpandEnv := ExpandEnv healthy;
     KappLoc := KappLoc healthy;
     KubectlLoc := KubectlLoc healthy |}.

(** The first request is answered [200 OK], the later ones
    [201 Created]. *)
Definition ok_then_created : nat → Response + error :=
  λ n, match n with
       | O => inl {| Status := "200 OK" |}
       | _ => inl {| Status := "201 Created" |}
       end.

Definition flaky : Env := stub [stub_node] ok_then_created None None.

Definition flaky_run := pingEndPoints flaky 3 Logrus two_endpoints w0.
Definition rolling_run :=
  PodsStarted_loop rolling 2 Logrus "ns" (make_podUp ["web"; "db"]) w0.
Definition unlisted_run :=
  PodsStarted_loop unlisted 1 Logrus "ns" (make_podUp []) w0.
(** * Proofs *)

(** ** Strings *)

Lemma prefix_spec (sub s : string) :
  String.prefix sub s = true ↔ ∃ post, s = sub +:+ post.
Proof.
  revert s. induction sub as [|c sub IH]; intros s.
  - split; [intros _; exists s; reflexivity | intros _; by destruct s].
  - destruct s as [|c' s].
    + split; [intros H; discriminate H | intros [post Hpost]; discriminate].
    + change (String.prefix (String c sub) (String c' s))
        with (if ascii_dec c c' then String.prefix sub s else false).
      change (String c sub +:+ ?p) with (String c (sub +:+ p)).
      destruct (ascii_dec c c') as [->|Hne].
      * rewrite IH. split; intros [post Hpost]; exists post.
        -- by rewrite Hpost.
        -- by injection Hpost.
      * split; [done | intros [post Hpost]; injection Hpost; congruence].
Qed.

Lemma Contains_spec (s sub : string) :
  Contains s sub = true ↔ substring sub s.
Proof.
  unfold substring. induction s as [|c s IH].
  - change (Contains EmptyString sub) with (String.prefix sub EmptyString || false).
    rewrite orb_false_r, prefix_spec. split.
    + intros [post Hpost]. by exists EmptyString, post.
    + intros [[|c pre] [post Hpost]]; [by exists post | discriminate].
  - change (Contains (String c s) sub)
      with (String.prefix sub (String c s) || Contains s sub).
    rewrite orb_true_iff, prefix_spec, IH. split.
    + intros [[post Hpost] | (pre & post & ->)].
      * by exists EmptyString, post.
      * by exists (String c pre), post.
    + intros [[|c' pre] [post Hpost]].
      * left. by exists post.
      * right. exists pre, post. by injection Hpost.
Qed.

Lemma ready_b_spec (key : string) (p : v1.Pod) :
  ready_b key p = true ↔ ready key p.
Proof.
  unfold ready_b, ready.
  rewrite andb_true_iff, Contains_spec, String.eqb_eq. done.
Qed.

Lemma existsb_ready (key : string) (items : list v1.Pod) :
  existsb (ready_b key) items = true ↔ ∃ p, p ∈ items ∧ ready key p.
Proof.
  rewrite existsb_exists. split; intros (p & Hin & Hp); exists p.
  - by rewrite list_elem_of_In, <- ready_b_spec.
  - by rewrite <- list_elem_of_In, ready_b_spec.
Qed.

(** ** Traces *)

Lemma since_app (w w' : World) (new : list event) :
  events w' = events w ++ new → since w w' = new.
Proof. unfold since. intros ->. by rewrite drop_app_length. Qed.

Lemma count_app (f : event → bool) (tr1 tr2 : list event) :
  count f (tr1 ++ tr2) = (count f tr1 + count f tr2)%nat.
Proof. induction tr1 as [|ev tr1 IH]; simpl; [done | rewrite IH; lia]. Qed.

Lemma count_none (f g : event → bool) (tr : list event) :
  (∀ ev, g ev = true → f ev = false) →
  Forall (λ ev, g ev = true) tr → count f tr = O.
Proof.
  intros Hfg. induction 1 as [|ev tr Hev _ IH]; simpl; [done |].
  by rewrite (Hfg _ Hev), IH.
Qed.

(** ** What an action adds to the trace *)

Section Emits.
Context {A B : Type} (P : event → Prop).

Lemma emits_ret (a : A) : emits P (ret a).
Proof. intros w. exists []. by rewrite app_nil_r. Qed.

Lemma emits_bind (m : M A) (k : A → M B) :
  emits P m → (∀ a, emits P (k a)) → emits P (bind m k).
Proof.
  intros Hm Hk w. unfold bind. destruct (Hm w) as (n1 & E1 & F1).
  destruct (m w) as [a w1]. simpl in E1.
  destruct (Hk a w1) as (n2 & E2 & F2).
  exists (n1 ++ n2). split; [by rewrite E2, E1, app_assoc | by apply Forall_app].
Qed.

Lemma emits_emit (ev : event) : P ev → emits P (emit ev).
Proof. intros Hev w. exists [ev]. split; [done | by constructor]. Qed.

Lemma emits_call (oracle : nat → A) (ev : A → event) :
  (∀ r, P (ev r)) → emits P (call oracle ev).
Proof.
  intros Hev w. exists [ev (oracle (calls w))]. split; [done | by constructor].
Qed.

Lemma emits_range (env : Env) {V} (m : gmap string V) : emits P (range env m).
Proof. intros w. exists []. by rewrite app_nil_r. Qed.
End Emits.

Lemma emits_logf (P : event → Prop) k lvl format args :
  (∀ l, P (EvLog l format args)) → emits P (logf k lvl format args).
Proof. intros Hev. by apply emits_emit. Qed.

Lemma emits_since {A} (P : event → Prop) (m : M A) (w : World) :
  emits P m → events (m w).2 = events w ++ since w (m w).2
              ∧ Forall P (since w (m w).2).
Proof.
  intros Hm. destruct (Hm w) as (new & E & F). by rewrite (since_app _ _ _ E).
Qed.

(** ** The pod readiness watcher *)

Section Watcher.
Variable env : Env.

Lemma scan_pods_map k key items podUp w :
  (scan_pods k key items podUp w).1
  = if existsb (ready_b key) items then delete key podUp else podUp.
Proof.
  revert podUp w. induction items as [|p items IH]; intros podUp w; [done |].
  simpl. fold (ready_b key p). destruct (ready_b key p); simpl.
  - unfold bind, logf, emit. rewrite IH.
    destruct (existsb _ items); [by rewrite delete_delete_eq | done].
  - apply IH.
Qed.

Lemma scan_pods_emits k key items podUp :
  emits (λ ev, is_log ev = true) (scan_pods k key items podUp).
Proof.
  revert podUp. induction items as [|p items IH]; intros podUp; simpl.
  - apply emits_ret.
  - destruct (_ && _); [|apply IH].
    apply emits_bind; [by apply emits_logf | intros _; apply IH].
Qed.

Lemma scan_keys_lookup k keys items podUp w key :
  (scan_keys k keys items podUp w).1 !! key
  = if decide (key ∈ keys.*1)
    then (if existsb (ready_b key) items then None else podUp !! key)
    else podUp !! key.
Proof.
  revert podUp w. induction keys as [|[key' v] keys IH]; intros podUp w.
  - by rewrite decide_False by set_solver.
  - simpl. unfold bind.
    pose proof (scan_pods_map k key' items podUp w) as Hm.
    destruct (scan_pods k key' items podUp w) as [podUp1 w1].
    simpl in Hm. subst podUp1. rewrite IH. clear IH.
    change (list_fmap _ _ fst keys) with (keys.*1).
    destruct (decide (key = key')) as [->|Hne].
    + destruct (decide (key' ∈ key' :: keys.*1)) as [_|Hn]; [|set_solver].
      destruct (existsb (ready_b key') items).
      * rewrite lookup_delete_eq. by destruct (decide _).
      * by destruct (decide _).
    + assert (∀ m : gmap string Z,
        (if existsb (ready_b key') items then delete key' m else m) !! key
        = m !! key) as ->.
      { intros m. destruct (existsb _ _); [by rewrite lookup_delete_ne | done]. }
      destruct (decide (key ∈ keys.*1)) as [Hin|Hnin],
        (decide (key ∈ key' :: keys.*1)) as [Hin'|Hnin']; try done.
      * exfalso. apply Hnin'. by right.
      * exfalso. apply Hnin. by apply elem_of_cons in Hin' as [?|?].
Qed.

Lemma scan_keys_emits k keys items podUp :
  emits (λ ev, is_log ev = true) (scan_keys k keys items podUp).
Proof.
  revert podUp. induction keys as [|[key v] keys IH]; intros podUp; simpl.
  - apply emits_ret.
  - apply emits_bind; [apply scan_pods_emits | intros podUp'; apply IH].
Qed.

Lemma pods_pass_emits k items podUp :
  emits (λ ev, is_log ev = true) (pods_pass env k items podUp).
Proof.
  apply emits_bind; [apply emits_range | intros; apply scan_keys_emits].
Qed.

Hypothesis Hrange : range_ok env.

Lemma range_keys {V} (n : nat) (m : gmap string V) (key : string) :
  key ∈ (range_order env V n m).*1 ↔ is_Some (m !! key).
Proof.
  rewrite (Hrange V n m). rewrite list_elem_of_fmap. split.
  - intros ([key' v] & -> & Hin). apply elem_of_map_to_list in Hin. by exists v.
  - intros [v Hv]. exists (key, v). by rewrite elem_of_map_to_list.
Qed.

Lemma pods_pass_lookup k items podUp w key :
  (pods_pass env k items podUp w).1 !! key
  = if existsb (ready_b key) items then None else podUp !! key.
Proof.
  unfold pods_pass, bind, range. rewrite scan_keys_lookup.
  destruct (decide _) as [Hin|Hnin]; [done |].
  rewrite range_keys, <- eq_None_not_Some in Hnin. rewrite Hnin.
  by destruct (existsb _ _).
Qed.

Lemma make_podUp_lookup (podNames : list string) (key : string) :
  is_Some (make_podUp podNames !! key) → key ∈ podNames.
Proof.
  unfold make_podUp.
  cut (∀ m : gmap string Z,
         is_Some (foldl (λ podUp p, <[p:=0]> podUp) m podNames !! key) →
         is_Some (m !! key) ∨ key ∈ podNames).
  { intros Hcut H. destruct (Hcut ∅ H) as [[v Hv]|?]; [|done].
    by rewrite lookup_empty in Hv. }
  induction podNames as [|p podNames IH]; intros m H; simpl in *; [by left |].
  destruct (IH _ H) as [Hm|?]; [|right; by right].
  destruct (decide (p = key)) as [->|Hne]; [right; by left |].
  left. by rewrite lookup_insert_ne in Hm.
Qed.

(** C3.  One pass of the watcher over a pod listing removes a key that
    is still waited for if and only if some listed pod is [ready] for
    it: the pod's name contains the key as a substring (it need not be
    equal to it) and the pod's phase is [Running]. *)
Theorem pods_pass_removes_iff k items podUp w key :
  is_Some (podUp !! key) →
  (pods_pass env k items podUp w).1 !! key = None
  ↔ ∃ p, p ∈ items ∧ ready key p.
Proof.
  intros [v Hv]. rewrite pods_pass_lookup, <- existsb_ready.
  destruct (existsb _ _); [done |]. rewrite Hv. split; discriminate.
Qed.

(** C6.  When the first listing already holds a ready pod for every
    expected key, [PodsStarted] succeeds after that one listing and
    never sleeps. *)
Theorem PodsStarted_first_poll fuel k namespace podNames w items :
  list_pods env (calls w) namespace = inl items →
  (∀ key, key ∈ podNames → ∃ p, p ∈ items ∧ ready key p) →
  ∃ w', PodsStarted env (S fuel) k namespace podNames w = (Some None, w')
        ∧ count is_list_pods (since w w') = 1%nat
        ∧ count is_sleep (since w w') = 0%nat.
Proof.
  intros Hlist Hall.
  unfold PodsStarted, bind. simpl.
  unfold bind, mapkeys, bind, range, logf, emit, call, ret. simpl.
  rewrite Hlist.
  match goal with |- context [pods_pass env k items ?m ?w1] =>
    pose proof (pods_pass_lookup k items m w1) as Hlook;
    destruct (emits_since _ _ w1 (pods_pass_emits k items m)) as [Hev Hlog];
    destruct (pods_pass env k items m w1) as [podUp' w2] eqn:Hpass
  end.
  simpl in Hlook, Hev, Hlog.
  assert (podUp' = ∅) as ->.
  { apply map_eq. intros key. rewrite Hlook, lookup_empty.
    destruct (existsb (ready_b key) items) eqn:Hex; [done |].
    destruct (make_podUp podNames !! key) eqn:Hk; [|done].
    assert (existsb (ready_b key) items = true); [|congruence].
    apply existsb_ready, Hall, make_podUp_lookup. by rewrite Hk. }
  rewrite map_size_empty. simpl. eexists. split; [done |].
  set (new := since _ w2) in *.
  rewrite (since_app w w2 (_ :: _ :: new)) by (by rewrite Hev, <- !app_assoc).
  simpl. split.
  - f_equal. apply (count_none _ is_log); [by intros [] | done].
  - apply (count_none _ is_log); [by intros [] | done].
Qed.

Lemma pods_pass_shrinks k items podUp w :
  (pods_pass env k items podUp w).1 ⊆ podUp.
Proof.
  apply map_subseteq_spec. intros key v. rewrite pods_pass_lookup.
  by destruct (existsb _ _).
Qed.

Lemma listed_ready_mono namespace key before tr after :
  listed_ready namespace key tr →
  listed_ready namespace key (before ++ tr ++ after).
Proof.
  intros (items & p & Hin & Hp). exists items, p. split; [|done].
  apply elem_of_app. right. apply elem_of_app. by left.
Qed.

Lemma PodsStarted_loop_inv fuel k namespace podUp w r podUp' w' :
  PodsStarted_loop env fuel k namespace podUp w = (r, podUp', w') →
  ∃ new, events w' = events w ++ new
         ∧ podUp' ⊆ podUp
         ∧ (∀ key, podUp' !! key ≠ podUp !! key →
                   listed_ready namespace key new)
         ∧ match r with
           | Some None => podUp' = ∅
           | Some (Some err) =>
               ∃ before cause,
                 new = before ++ [EvListPods namespace (inr cause)]
                 ∧ err = Wrap cause "error while listing all pods"
           | None => fuel = O ∧ podUp' = podUp ∨ podUp' ≠ ∅
           end.
Proof.
  revert podUp w. induction fuel as [|fuel IH]; intros podUp w; simpl.
  - intros [= <- <- <-]. exists []. rewrite app_nil_r.
    split; [done |]. split; [done |]. split; [done | by left].
  - unfold bind, mapkeys, bind, range, logf, emit, call, ret. simpl.
    destruct (list_pods env (calls w) namespace) as [items|cause].
    + match goal with |- context [pods_pass env k items podUp ?w1] =>
        pose proof (pods_pass_lookup k items podUp w1) as Hlook;
        pose proof (pods_pass_shrinks k items podUp w1) as Hsub;
        destruct (emits_since _ _ w1 (pods_pass_emits k items podUp))
          as [Hev _];
        destruct (pods_pass env k items podUp w1) as [podUp1 w2]
      end.
      simpl in Hlook, Hsub, Hev. set (logs := since _ w2) in *.
      rewrite <- !app_assoc in Hev. simpl in Hev.
      assert (∀ key tr, podUp1 !! key ≠ podUp !! key →
                listed_ready namespace key
                  ([EvLog (match k with Logrus => Debug | Testing => TLog end)
                      "pods not started yet: %q"
                      [AStr (Join
                         (foldl (λ keys kv, keys ++ [kv.1]) []
                            (range_order env Z (ranges w) podUp)) " ")]]
                   ++ [EvListPods namespace (inl items)] ++ tr)) as Hready.
      { intros key tr Hne. apply listed_ready_mono.
        rewrite Hlook in Hne. destruct (existsb _ _) eqn:Hex; [|done].
        apply existsb_ready in Hex as [p Hp]. exists items, p.
        split; [by left | done]. }
      destruct (Nat.eqb (size podUp1) 0) eqn:Hsize.
      * intros [= <- <- <-]. eexists. split; [done |]. split; [done |].
        split; [intros key; apply Hready |].
        apply map_size_empty_iff. by apply Nat.eqb_eq.
      * unfold Sleep, emit. simpl. intros Hrec.
        apply IH in Hrec as (new & Hev2 & Hsub2 & Hrem2 & Hend).
        simpl in Hev2. rewrite Hev, <- !app_assoc in Hev2. simpl in Hev2.
        eexists. split; [done |]. split; [by trans podUp1 |]. split.
        -- intros key Hne.
           destruct (decide (podUp1 !! key = podUp !! key)) as [Heq|Hne1].
           ++ destruct (Hrem2 key) as (its & p & Hin & Hp); [congruence |].
              exists its, p. split; [|done]. do 2 right.
              apply elem_of_app. right. by right.
           ++ by apply (Hready key (logs ++ EvSleep 1 :: new)).
        -- destruct r as [[err|]|].
           ++ destruct Hend as (before & cause & -> & ->).
              eexists (_ :: _ :: logs ++ _ :: before), cause.
              split; [|done]. simpl. by rewrite <- !app_assoc.
           ++ done.
           ++ right. destruct Hend as [[_ ->]|Hne]; [|done].
              intros ->. by rewrite map_size_empty in Hsize.
    + intros [= <- <- <-]. eexists. rewrite <- app_assoc.
      split; [done |]. split; [done |]. split; [done |].
      by eexists [_], cause.
Qed.

End Watcher.

(** ** The endpoint health poller *)

Lemma poll_ok_refl k ep : poll_ok k ep ep [].
Proof.
  split; [done |]. split; [intros e He; by apply elem_of_nil in He | done].
Qed.

Lemma poll_ok_trans k ep ep1 ep2 new1 new2 :
  poll_ok k ep ep1 new1 → poll_ok k ep1 ep2 new2 →
  poll_ok k ep ep2 (new1 ++ new2).
Proof.
  intros (S1 & L1 & R1) (S2 & L2 & R2). split; [by trans ep1 |]. split.
  - intros e [He|He]%elem_of_app; [|by apply L2].
    eapply lookup_weaken_None; [by apply L1 | done].
  - intros e Hne.
    destruct (decide (ep1 !! e = ep !! e)) as [Heq|Hne1].
    + destruct (R2 e) as (u & Hu & b & a & ->); [congruence |].
      exists u. split; [congruence |]. exists (new1 ++ b), a.
      by rewrite <- app_assoc.
    + destruct (R1 e Hne1) as (u & Hu & b & a & ->).
      exists u. split; [done |]. exists b, (a ++ new2).
      by rewrite <- app_assoc.
Qed.

Lemma poll_end_trans ep ep1 ep2 r new1 new2 :
  ep1 ⊆ ep → Forall good new1 → poll_end ep1 ep2 r new2 →
  poll_end ep ep2 r (new1 ++ new2).
Proof.
  intros Hsub Hgood. destruct r as [err|]; simpl.
  - intros (e & u & status & before & -> & Hb & Hst & He1 & He2 & ->).
    exists e, u, status, (new1 ++ before). rewrite app_assoc.
    split_and!; [done | by apply Forall_app | done | | done | done].
    by apply (lookup_weaken ep1).
  - intros Hnew. by apply Forall_app.
Qed.

(** A probe answered with a wrong status can only be the last event of
    a trace that [poll_end] describes. *)
Lemma bad_probe_last (tr before : list event) (x last : event) after :
  before ++ x :: after = tr ++ [last] → Forall good tr → bad_probe x = true →
  after = [] ∧ x = last.
Proof.
  intros Heq Hgood Hbad.
  destruct after as [|y after _] using rev_ind.
  - by apply app_inj_tail in Heq as [_ ->].
  - rewrite app_comm_cons, app_assoc in Heq.
    apply app_inj_tail in Heq as [<- _].
    apply Forall_app in Hgood as [_ Hx]. apply Forall_cons in Hx as [Hx _].
    unfold good in Hx. congruence.
Qed.

Section Poller.
Variable env : Env.

Lemma ping_entries_inv k entries ep w r ep' w' :
  NoDup entries.*1 → (∀ e u, (e, u) ∈ entries → ep !! e = Some u) →
  ping_entries env k entries ep w = (r, ep', w') →
  ∃ new, events w' = events w ++ new
         ∧ poll_ok k ep ep' new ∧ poll_end ep ep' r new.
Proof.
  revert ep w. induction entries as [|[e u] entries IH]; intros ep w Hnd Hin.
  - intros [= <- <- <-]. exists []. rewrite app_nil_r.
    split; [done |]. split; [apply poll_ok_refl | by constructor].
  - rewrite fmap_cons in Hnd. apply NoDup_cons in Hnd as [Hfresh Hnd].
    simpl in Hfresh.
    assert (ep !! e = Some u) as He by (apply Hin; by left).
    simpl. unfold bind, call. simpl.
    destruct (http_get env (calls w) u) as [[status]|err] eqn:Hget; simpl.
    + destruct (String.eqb status "200 OK") eqn:Hst; simpl.
      * unfold bind, logf, emit. simpl. intros Hrest.
        apply IH in Hrest as (new & Hev & Hok & Hend); [|done|].
        2:{ intros e' u' Hin'. rewrite lookup_delete_ne; [apply Hin; by right |].
            intros <-. apply Hfresh. apply list_elem_of_fmap. by exists (e, u'). }
        simpl in Hev. rewrite <- !app_assoc in Hev. simpl in Hev.
        eexists. split; [done |].
        assert (poll_ok k ep (delete e ep)
                  [EvHttpGet u 5 (inl {| Status := status |}); running_log k e])
          as Hstep.
        { split; [apply delete_subseteq |]. split.
          - intros e' [He'|He']%elem_of_cons; [by destruct k |].
            apply list_elem_of_singleton in He'. unfold running_log in He'.
            injection He' as ->. apply lookup_delete_eq.
          - intros e' Hne. destruct (decide (e = e')) as [<-|Hne'].
            + exists u. split; [done |]. exists [], [].
              apply String.eqb_eq in Hst. by rewrite Hst.
            + by rewrite lookup_delete_ne in Hne. }
        split.
        -- apply (poll_ok_trans _ _ _ _ [_; _] new Hstep Hok).
        -- apply (poll_end_trans ep (delete e ep) ep' r [_; _] new);
             [apply delete_subseteq | | done].
           repeat constructor. unfold good. simpl. by rewrite Hst.
      * intros [= <- <- <-]. eexists. split; [done |].
        split; [|exists e, u, status, []; repeat split; try done].
        -- split; [done |]. split; [|done].
           intros e' He'. apply list_elem_of_singleton in He'. by destruct k.
        -- intros ->. discriminate.
    + unfold bind, logf, emit, Sleep, emit. simpl. intros Hrest.
      apply IH in Hrest as (new & Hev & Hok & Hend); [|done|].
      2:{ intros e' u' Hin'. apply Hin. by right. }
      simpl in Hev. rewrite <- !app_assoc in Hev. simpl in Hev.
      eexists. split; [done |].
      assert (poll_ok k ep ep
                [EvHttpGet u 5 (inr err);
                 EvLog (match k with Logrus => Debug | Testing => TLog end)
                   "error while making http request %q for service %q, err: %v"
                   [AStr u; AStr e; AErr err];
                 EvSleep 1]) as Hstep.
      { split; [done |]. split; [|done].
        intros e' He'. exfalso. unfold running_log in He'.
        repeat (apply elem_of_cons in He' as [He'|He']; [by destruct k |]).
        by apply elem_of_nil in He'. }
      split.
      * apply (poll_ok_trans _ _ _ _ [_; _; _] new Hstep Hok).
      * apply (poll_end_trans ep ep ep' r [_; _; _] new); [done | | done].
        by repeat constructor.
Qed.

Hypothesis Hrange : range_ok env.

Lemma range_NoDup {V} (n : nat) (m : gmap string V) :
  NoDup (range_order env V n m).*1.
Proof. rewrite (Hrange V n m). apply NoDup_fst_map_to_list. Qed.

Lemma range_lookup {V} (n : nat) (m : gmap string V) e (u : V) :
  (e, u) ∈ range_order env V n m → m !! e = Some u.
Proof. rewrite (Hrange V n m). apply elem_of_map_to_list. Qed.

Lemma range_empty {V} (n : nat) : range_order env V n ∅ = [].
Proof.
  apply Permutation_nil_r. by rewrite (Hrange V n ∅), map_to_list_empty.
Qed.

Lemma pingEndPoints_inv fuel k ep w r ep' w' :
  pingEndPoints env fuel k ep w = (r, ep', w') →
  ∃ new, events w' = events w ++ new ∧ poll_ok k ep ep' new
         ∧ match r with
           | Some r' => poll_end ep ep' r' new ∧ (r' = None → ep' = ∅)
           | None => Forall good new ∧ (fuel = O ∧ ep' = ep ∨ ep' ≠ ∅)
           end.
Proof.
  revert ep w. induction fuel as [|fuel IH]; intros ep w; simpl.
  - intros [= <- <- <-]. exists []. rewrite app_nil_r.
    split; [done |]. split; [apply poll_ok_refl |].
    split; [by constructor | by left].
  - unfold bind, range. simpl.
    destruct (ping_entries _ _ _ _ _) as [[r1 ep1] w1] eqn:Hpass.
    apply ping_entries_inv in Hpass as (new1 & Hev1 & Hok1 & Hend1);
      [|apply range_NoDup | apply range_lookup].
    simpl in Hev1. simpl.
    destruct r1 as [err|].
    + intros [= <- <- <-]. exists new1.
      split; [done |]. split; [done |]. split; [done | intros [=]].
    + destruct (Nat.eqb (size ep1) 0) eqn:Hsize.
      * intros [= <- <- <-]. exists new1.
        split; [done |]. split; [done |]. split; [done |].
        intros _. apply map_size_empty_iff. by apply Nat.eqb_eq.
      * intros Hrec. apply IH in Hrec as (new2 & Hev2 & Hok2 & Hend2).
        exists (new1 ++ new2). split; [by rewrite Hev2, Hev1, app_assoc |].
        split; [by eapply poll_ok_trans |].
        destruct Hok1 as (Hsub1 & _). destruct r as [r'|].
        -- destruct Hend2 as [Hend2 Hempty]. split; [|done].
           by apply (poll_end_trans ep ep1).
        -- destruct Hend2 as [Hgood2 Hne]. split; [by apply Forall_app |].
           right. destruct Hne as [[_ ->]|Hne]; [|done].
           intros ->. by rewrite map_size_empty in Hsize.
Qed.

Lemma ping_entries_keeps k entries ep w e :
  e ∉ entries.*1 → (ping_entries env k entries ep w).1.2 !! e = ep !! e.
Proof.
  revert ep w. induction entries as [|[e' u'] entries IH]; intros ep w Hnin.
  - done.
  - rewrite fmap_cons in Hnin. apply not_elem_of_cons in Hnin as [Hne Hnin].
    simpl in Hne. simpl. unfold bind, call. simpl.
    destruct (http_get env (calls w) u') as [[status]|err]; simpl.
    + destruct (String.eqb status "200 OK"); simpl; [|done].
      unfold bind, logf, emit. simpl.
      rewrite IH by done. by rewrite lookup_delete_ne.
    + unfold bind, logf, emit, Sleep, emit. simpl. by rewrite IH.
Qed.

(** C1.  Whatever the map, a probe answered with a status line other
    than [200 OK] (any other line, [201 Created] and the like
    included) ends [pingEndPoints] at once: it is the last event of the
    call, so no other endpoint is probed after it, and the call
    returns the error built from the key of the probed entry and the
    status received. *)
Theorem pingEndPoints_bad_status
    fuel k ep w r ep' w' before u t status after :
  pingEndPoints env fuel k ep w = (r, ep', w') →
  since w w' = before ++ EvHttpGet u t (inl {| Status := status |}) :: after →
  status ≠ "200 OK" →
  after = []
  ∧ ∃ e, ep !! e = Some u ∧ r = Some (Some (health_error e status)).
Proof.
  intros Hrun Hsince Hst.
  apply pingEndPoints_inv in Hrun as (new & Hev & _ & Hend).
  rewrite (since_app _ _ _ Hev) in Hsince. subst new.
  assert (bad_probe (EvHttpGet u t (inl {| Status := status |})) = true)
    as Hbad.
  { simpl. apply negb_true_iff. by apply String.eqb_neq. }
  assert (∀ tr, Forall good tr →
            tr ≠ before ++ EvHttpGet u t (inl {| Status := status |}) :: after)
    as Hgood.
  { intros tr Hall ->. apply Forall_app in Hall as [_ Hall].
    apply Forall_cons in Hall as [Hx _]. unfold good in Hx. congruence. }
  destruct r as [[err|]|].
  - destruct Hend as [(e & u' & status' & tr & Heq & Htr & _ & He & _ & ->) _].
    destruct (bad_probe_last _ _ _ _ _ Heq Htr Hbad) as [-> [= -> -> ->]].
    split; [done |]. by exists e.
  - destruct Hend as [Hall _]. by destruct (Hgood _ Hall).
  - destruct Hend as [Hall _]. by destruct (Hgood _ Hall).
Qed.

(** C7.  On a map with no entry [pingEndPoints] returns [nil] in its
    first turn and leaves the trace as it was: no request is made. *)
Theorem pingEndPoints_empty fuel k w :
  ∃ w', pingEndPoints env (S fuel) k ∅ w = (Some None, ∅, w')
        ∧ events w' = events w ∧ calls w' = calls w.
Proof.
  simpl. unfold bind, range. simpl. rewrite range_empty. simpl.
  eexists. split; [done |]. done.
Qed.

(** C8.  A probe that fails at the request level does not end the
    poll: the failure is logged, the poller sleeps one second, and the
    pass goes on with the remaining entries over the same map, in
    which the entry is still present when the pass ends.  A call ends
    with an error only on a probe answered with a wrong status. *)
Theorem ping_request_error_retried k e u rest ep w err :
  http_get env (calls w) u = inr err →
  ping_entries env k ((e, u) :: rest) ep w
  = ping_entries env k rest ep
      (advance w 1
         [EvHttpGet u 5 (inr err);
          EvLog (match k with Logrus => Debug | Testing => TLog end)
            "error while making http request %q for service %q, err: %v"
            [AStr u; AStr e; AErr err];
          EvSleep 1])
  ∧ (e ∉ rest.*1 →
     (ping_entries env k ((e, u) :: rest) ep w).1.2 !! e = ep !! e)
  ∧ (∀ fuel ep0 w0 failure ep' w',
       pingEndPoints env fuel k ep0 w0 = (Some (Some failure), ep', w') →
       ∃ before u' status,
         since w0 w' = before ++ [EvHttpGet u' 5 (inl {| Status := status |})]
         ∧ status ≠ "200 OK").
Proof.
  intros Hget.
  assert (ping_entries env k ((e, u) :: rest) ep w
          = ping_entries env k rest ep
              (advance w 1
                 [EvHttpGet u 5 (inr err);
                  EvLog (match k with Logrus => Debug | Testing => TLog end)
                    "error while making http request %q for service %q, err: %v"
                    [AStr u; AStr e; AErr err];
                  EvSleep 1])) as Hstep.
  { simpl. unfold bind, call. simpl. rewrite Hget. simpl.
    unfold bind, logf, emit, Sleep, emit, advance. simpl.
    by rewrite <- !app_assoc. }
  split; [done |]. split.
  - intros Hnin. rewrite Hstep. by apply ping_entries_keeps.
  - intros fuel ep0 w0 failure ep' w' Hrun.
    apply pingEndPoints_inv in Hrun as (new & Hev & _ & Hend & _).
    destruct Hend as (e' & u' & status & before & -> & _ & Hst & _).
    exists before, u', status. by rewrite (since_app _ _ _ Hev).
Qed.

End Poller.

(** ** Keys of the endpoint map *)

Lemma pretty_N_go_colon_free (x : N) (s : string) :
  colon_free s → colon_free (pretty_N_go x s).
Proof.
  revert s. induction (N.lt_wf_0 x) as [x _ IH]; intros s Hs.
  assert (x = 0 ∨ 0 < x)%N as [->|?] by lia.
  - by rewrite pretty_N_go_0.
  - rewrite pretty_N_go_step by done. apply IH; [by apply N.div_lt |].
    unfold colon_free in *. simpl. apply not_elem_of_cons. split; [|done].
    unfold pretty_N_char. by repeat case_match.
Qed.

Lemma fmt_d_colon_free (n : Z) : colon_free (fmt_d n).
Proof.
  assert (colon_free EmptyString) as Hnil by (intros H; by apply elem_of_nil in H).
  assert (∀ p : positive, colon_free (pretty p)) as Hpos.
  { intros p. unfold pretty, pretty_positive, pretty, pretty_N.
    rewrite decide_False by done. by apply pretty_N_go_colon_free. }
  unfold fmt_d, pretty, pretty_Z. destruct n as [|p|p].
  - unfold colon_free. simpl. by apply not_elem_of_cons.
  - apply Hpos.
  - specialize (Hpos p). unfold colon_free in *. simpl.
    by apply not_elem_of_cons.
Qed.

Lemma append_cons (c : ascii) (s t : string) :
  String c s +:+ t = String c (s +:+ t).
Proof. reflexivity. Qed.

Lemma append_nil (t : string) : EmptyString +:+ t = t.
Proof. reflexivity. Qed.

Lemma colon_in_middle (n d : string) :
  ":"%char ∈ list_ascii_of_string (n +:+ ":" +:+ d).
Proof.
  induction n as [|c n IH];
    repeat (rewrite append_nil || rewrite append_cons); simpl.
  - by left.
  - by right.
Qed.

Lemma key_split (n1 n2 d1 d2 : string) :
  colon_free d1 → colon_free d2 →
  n1 +:+ ":" +:+ d1 = n2 +:+ ":" +:+ d2 → n1 = n2 ∧ d1 = d2.
Proof.
  intros H1 H2. revert n2.
  induction n1 as [|c n1 IH]; intros [|c' n2] Heq;
    repeat (rewrite append_nil in Heq || rewrite append_cons in Heq).
  - by injection Heq.
  - injection Heq as <- ->. exfalso. apply H1, colon_in_middle.
  - injection Heq as -> <-. exfalso. apply H2, colon_in_middle.
  - injection Heq as -> Heq. by destruct (IH _ Heq) as [-> ->].
Qed.

Lemma endpoint_key_inj (svc svc' : ServicePort) :
  endpoint_key svc = endpoint_key svc' →
  Name svc = Name svc' ∧ Port svc = Port svc'.
Proof.
  unfold endpoint_key. intros Heq.
  apply key_split in Heq as [Hn Hp]; [|apply fmt_d_colon_free..].
  split; [done |]. by apply (inj pretty).
Qed.

(** ** The endpoint resolver *)

Lemma live_same (running : list v1.Service) (svc svc' : ServicePort) p :
  endpoint_key svc = endpoint_key svc' →
  live running svc p → live running svc' p.
Proof.
  intros [Hn Hp]%endpoint_key_inj (s & Hs & Hin & Hname & Hport).
  exists s. split_and!; [done | done | congruence | congruence].
Qed.

Section Resolver.
Variable nodeIP : string.

Lemma match_ports_lookup svc ports m key url :
  match_ports nodeIP svc ports m !! key = Some url →
  m !! key = Some url
  ∨ key = endpoint_key svc
    ∧ ∃ p, p ∈ ports ∧ v1.Port p = Port svc
           ∧ url = endpoint_url nodeIP (v1.NodePort p).
Proof.
  revert m. induction ports as [|p ports IH]; intros m; simpl; [by left |].
  destruct (Z.eqb_spec (v1.Port p) (Port svc)) as [Heq|Hne].
  - intros [Hm|(-> & p' & Hin & Hp')]%IH.
    + destruct (decide (endpoint_key svc = key)) as [<-|Hk].
      * rewrite lookup_insert_eq in Hm. injection Hm as <-.
        right. split; [done |]. exists p. split; [by left | done].
      * rewrite lookup_insert_ne in Hm by done. by left.
    + right. split; [done |]. exists p'. split; [by right | done].
  - intros [Hm|(-> & p' & Hin & Hp')]%IH; [by left |].
    right. split; [done |]. exists p'. split; [by right | done].
Qed.

Lemma match_ports_keeps svc ports m key :
  is_Some (m !! key) → is_Some (match_ports nodeIP svc ports m !! key).
Proof.
  revert m. induction ports as [|p ports IH]; intros m Hm; simpl; [done |].
  destruct (Z.eqb _ _); apply IH; [|done].
  destruct (decide (endpoint_key svc = key)) as [<-|Hk].
  - by rewrite lookup_insert_eq.
  - by rewrite lookup_insert_ne.
Qed.

Lemma match_ports_adds svc ports m p :
  p ∈ ports → v1.Port p = Port svc →
  is_Some (match_ports nodeIP svc ports m !! endpoint_key svc).
Proof.
  revert m. induction ports as [|p' ports IH]; intros m Hin Hp; simpl.
  - by apply elem_of_nil in Hin.
  - apply elem_of_cons in Hin as [<-|Hin].
    + rewrite (proj2 (Z.eqb_eq _ _) Hp). apply match_ports_keeps.
      by rewrite lookup_insert_eq.
    + destruct (Z.eqb _ _); by apply IH.
Qed.

Lemma match_services_lookup svc items m key url :
  match_services nodeIP svc items m !! key = Some url →
  m !! key = Some url
  ∨ key = endpoint_key svc
    ∧ ∃ p, live items svc p ∧ url = endpoint_url nodeIP (v1.NodePort p).
Proof.
  revert m. induction items as [|s items IH]; intros m; simpl; [by left |].
  assert (∀ p, live items svc p → live (s :: items) svc p) as Hweak.
  { intros p (s' & Hs' & Hrest). exists s'. split; [by right | done]. }
  destruct (String.eqb_spec (v1.Service_Name s) (Name svc)) as [Heq|Hne].
  - intros [Hm|(-> & p & Hlive & ->)]%IH.
    + apply match_ports_lookup in Hm as [Hm|(-> & p & Hin & Hp & ->)];
        [by left |].
      right. split; [done |]. exists p. split; [|done].
      exists s. split_and!; [by left | done | done | done].
    + right. split; [done |]. exists p. split; [by apply Hweak | done].
  - intros [Hm|(-> & p & Hlive & ->)]%IH; [by left |].
    right. split; [done |]. exists p. split; [by apply Hweak | done].
Qed.

Lemma match_services_keeps svc items m key :
  is_Some (m !! key) → is_Some (match_services nodeIP svc items m !! key).
Proof.
  revert m. induction items as [|s items IH]; intros m Hm; simpl; [done |].
  destruct (String.eqb _ _); apply IH; [|done]. by apply match_ports_keeps.
Qed.

Lemma match_services_adds svc items m p :
  live items svc p →
  is_Some (match_services nodeIP svc items m !! endpoint_key svc).
Proof.
  intros (s & Hs & Hin & Hname & Hport). revert m.
  induction items as [|s' items IH]; intros m; simpl.
  - by apply elem_of_nil in Hs.
  - apply elem_of_cons in Hs as [<-|Hs].
    + rewrite (proj2 (String.eqb_eq _ _) Hname).
      apply match_services_keeps. by apply (match_ports_adds _ _ _ p).
    + destruct (String.eqb _ _); by apply IH.
Qed.

Lemma match_declared_lookup svcs items m key url :
  match_declared nodeIP svcs items m !! key = Some url →
  m !! key = Some url
  ∨ ∃ svc p, svc ∈ svcs ∧ live items svc p ∧ key = endpoint_key svc
             ∧ url = endpoint_url nodeIP (v1.NodePort p).
Proof.
  revert m. induction svcs as [|svc svcs IH]; intros m; simpl; [by left |].
  intros [Hm|(svc' & p & Hin & Hrest)]%IH.
  - apply match_services_lookup in Hm as [Hm|(-> & p & Hlive & ->)];
      [by left |].
    right. exists svc, p. split; [by left | done].
  - right. exists svc', p. split; [by right | done].
Qed.

Lemma match_declared_keeps svcs items m key :
  is_Some (m !! key) → is_Some (match_declared nodeIP svcs items m !! key).
Proof.
  revert m. induction svcs as [|svc svcs IH]; intros m Hm; simpl; [done |].
  by apply IH, match_services_keeps.
Qed.

Lemma match_declared_adds svcs items m svc p :
  svc ∈ svcs → live items svc p →
  is_Some (match_declared nodeIP svcs items m !! endpoint_key svc).
Proof.
  revert m. induction svcs as [|svc' svcs IH]; intros m Hin Hlive; simpl.
  - by apply elem_of_nil in Hin.
  - apply elem_of_cons in Hin as [<-|Hin]; [|by apply IH].
    by apply match_declared_keeps, (match_services_adds _ _ _ p).
Qed.

End Resolver.

Section Resolve.
Variable env : Env.

(** C4.  With a first node that has an address and a services listing
    that succeeds, [getEndPoints] returns a map and no error.  Every
    entry of the map comes from a declared pair that matches a live
    service by name and one of its ports by number: its key is
    [serviceName:port] and its value is [http://] followed by the
    first address of the first node, [:] and the node port.  A
    declared pair has an entry exactly when it has such a match; a
    pair without one is left out, and that is not an error. *)
Theorem getEndPoints_no_fabricated
    k namespace svcs w n rest nodeIP addrs running :
  list_nodes env (calls w) = inl (n :: rest) →
  v1.Addresses n = nodeIP :: addrs →
  list_services env (S (calls w)) namespace = inl running →
  ∃ m w',
    getEndPoints env k namespace svcs w = (Ok m, w')
    ∧ (∀ key url, m !! key = Some url →
         ∃ svc p, svc ∈ svcs ∧ live running svc p
                  ∧ key = Name svc +:+ ":" +:+ fmt_d (Port svc)
                  ∧ url = "http://" +:+ nodeIP +:+ ":"
                          +:+ fmt_d (v1.NodePort p))
    ∧ (∀ svc, svc ∈ svcs →
         (is_Some (m !! endpoint_key svc) ↔ ∃ p, live running svc p)).
Proof.
  intros Hnodes Haddr Hsvcs.
  unfold getEndPoints, bind, call. simpl. rewrite Hnodes. simpl.
  rewrite Haddr. unfold bind, logf, emit. simpl. rewrite Hsvcs. simpl.
  eexists _, _. split; [done |]. split.
  - intros key url [Hm|Hm]%match_declared_lookup; [by rewrite lookup_empty in Hm |].
    done.
  - intros svc Hin. split.
    + intros [url [Hm|(svc' & p & _ & Hlive & Hkey & _)]%match_declared_lookup].
      * by rewrite lookup_empty in Hm.
      * exists p. by apply (live_same _ svc').
    + intros [p Hlive]. by apply (match_declared_adds _ _ _ _ _ p).
Qed.

(** C9.  When the node listing succeeds with no node, or with a first
    node that has no address, [getEndPoints] does not return an error:
    it panics on the index expression, right after the listing. *)
Theorem getEndPoints_panics k namespace svcs w nodes :
  list_nodes env (calls w) = inl nodes →
  (nodes = [] ∨ ∃ n rest, nodes = n :: rest ∧ v1.Addresses n = []) →
  ∃ w', getEndPoints env k namespace svcs w = (Panic (IndexOutOfRange 0 0), w')
        ∧ since w w' = [EvListNodes (inl nodes)].
Proof.
  intros Hnodes Hshape.
  unfold getEndPoints, bind, call. simpl. rewrite Hnodes. simpl.
  assert (first_address nodes = inr (IndexOutOfRange 0 0)) as ->.
  { destruct Hshape as [->|(n & rest & -> & Haddr)]; [done |].
    simpl. by rewrite Haddr. }
  eexists. split; [done |]. by apply since_app.
Qed.

Lemma kapp_args_spec files : kapp_args env files = generate_args env files.
Proof.
  unfold kapp_args, generate_args.
  cut (∀ args, foldl (λ args file, args ++ ["-f"] ++ [ExpandEnv env file])
                 args files
               = args ++ flat_map (λ file, ["-f"; ExpandEnv env file]) files).
  { intros Hcut. apply Hcut. }
  induction files as [|file files IH]; intros args; simpl.
  - by rewrite app_nil_r.
  - rewrite IH, <- app_assoc. done.
Qed.

(** C5.  [RunKapp] runs the generator once, with [generate] followed
    by [-f] and the expanded path for each file in the order given
    (for no file, [generate] alone); it returns what the process wrote
    on standard output when the run has no error, and otherwise an
    error made of the joined arguments, the text of standard error and
    the error of the run. *)
Theorem RunKapp_runs_generator_once files w :
  ∃ w',
    let args := generate_args env files in
    let r := run_kapp env (calls w) (KappLoc env) args in
    RunKapp env files w
    = (match run_err r with
       | None => inl (run_stdout r)
       | Some err => inr (generation_error args r err)
       end, w')
    ∧ since w w' = [EvKapp (KappLoc env) args r]
    ∧ generate_args env [] = ["generate"].
Proof.
  unfold RunKapp, bind, call. simpl. rewrite kapp_args_spec.
  destruct (run_err _) eqn:Herr; eexists; (split; [done |]);
    (split; [by apply since_app | done]).
Qed.

End Resolve.

(** ** The orchestrators *)

Lemma bind_inv {A B} (m : M A) (k : A → M B) w r w' :
  bind m k w = (r, w') → ∃ a w1, m w = (a, w1) ∧ k a w1 = (r, w').
Proof. unfold bind. destruct (m w) as [a w1]. intros H. by exists a, w1. Qed.

Lemma emits_run {A} (P : event → Prop) (m : M A) w a w1 :
  emits P m → m w = (a, w1) → extends P w w1.
Proof. intros Hm Hrun. destruct (Hm w) as (new & E & F). rewrite Hrun in E. by exists new. Qed.

Lemma extends_refl P w : extends P w w.
Proof. exists []. by rewrite app_nil_r. Qed.

Lemma extends_trans P w1 w2 w3 :
  extends P w1 w2 → extends P w2 w3 → extends P w1 w3.
Proof.
  intros (n1 & E1 & F1) (n2 & E2 & F2). exists (n1 ++ n2).
  split; [by rewrite E2, E1, app_assoc | by apply Forall_app].
Qed.

Ltac emits_auto :=
  repeat first
    [ apply emits_ret
    | apply emits_range
    | apply emits_logf; intros; exact eq_refl
    | apply emits_emit; exact eq_refl
    | apply emits_call; intros; exact eq_refl
    | apply emits_bind; [|intros ?]
    | case_match ].

Section NoDelete.
Variable env : Env.

Lemma RunKapp_quiet files : emits not_delete (RunKapp env files).
Proof. unfold RunKapp. emits_auto. Qed.

Lemma RunKubeCreate_quiet input namespace :
  emits not_delete (RunKubeCreate env input namespace).
Proof. unfold RunKubeCreate. emits_auto. Qed.

Lemma RunKubeCreate_combined_quiet k input namespace :
  emits not_delete (RunKubeCreate_combined env k input namespace).
Proof. unfold RunKubeCreate_combined. emits_auto. Qed.

Lemma scan_pods_quiet k key items podUp : emits not_delete (scan_pods k key items podUp).
Proof.
  revert podUp. induction items as [|p items IH]; intros podUp; simpl;
    emits_auto; apply IH.
Qed.

Lemma scan_keys_quiet k keys items podUp : emits not_delete (scan_keys k keys items podUp).
Proof.
  revert podUp. induction keys as [|[key v] keys IH]; intros podUp; simpl;
    emits_auto; [apply scan_pods_quiet | apply IH].
Qed.

Lemma PodsStarted_loop_quiet fuel k namespace podUp :
  emits not_delete (PodsStarted_loop env fuel k namespace podUp).
Proof.
  revert podUp. induction fuel as [|fuel IH]; intros podUp; simpl.
  - apply emits_ret.
  - unfold mapkeys, pods_pass, Sleep.
    emits_auto; first [apply scan_keys_quiet | apply IH].
Qed.

Lemma PodsStarted_quiet fuel k namespace podNames :
  emits not_delete (PodsStarted env fuel k namespace podNames).
Proof.
  unfold PodsStarted. emits_auto. apply PodsStarted_loop_quiet.
Qed.

Lemma getEndPoints_quiet k namespace svcs :
  emits not_delete (getEndPoints env k namespace svcs).
Proof. unfold getEndPoints. emits_auto. Qed.

Lemma ping_entries_quiet k entries ep : emits not_delete (ping_entries env k entries ep).
Proof.
  revert ep. induction entries as [|[e u] entries IH]; intros ep; simpl;
    unfold Sleep; emits_auto; apply IH.
Qed.

Lemma pingEndPoints_quiet fuel k ep : emits not_delete (pingEndPoints env fuel k ep).
Proof.
  revert ep. induction fuel as [|fuel IH]; intros ep; simpl.
  - apply emits_ret.
  - emits_auto; first [apply ping_entries_quiet | apply IH].
Qed.

Lemma subtest_steps_quiet fuel test : emits not_delete (subtest_steps env fuel test).
Proof.
  unfold subtest_steps, Fatalf.
  emits_auto; first [apply PodsStarted_loop_quiet | apply pingEndPoints_quiet].
Qed.

End NoDelete.

Section Lifecycle.
Variable env : Env.

Lemma count_not_delete (tr : list event) :
  Forall not_delete tr → count is_delete tr = O.
Proof.
  induction 1 as [|ev tr Hev _ IH]; simpl; [done |].
  unfold not_delete in Hev. by rewrite Hev, IH.
Qed.

Lemma deleteNamespace_spec namespace w :
  ∃ w' logs,
    deleteNamespace env namespace w = (tt, w')
    ∧ events w'
      = events w ++ EvDeleteNS namespace (delete_ns env (calls w) namespace)
                 :: logs
    ∧ Forall (λ ev, is_log ev = true) logs
    ∧ (∀ err, delete_ns env (calls w) namespace = Some err →
              delete_failure_log namespace err ∈ logs).
Proof.
  unfold deleteNamespace, Namespaces_Delete, bind, call, logf, emit, ret.
  simpl. destruct (delete_ns env (calls w) namespace) as [err|]; simpl.
  - eexists _, [_; _]. rewrite <- !app_assoc. simpl.
    split; [done |]. split; [done |]. split; [by repeat constructor |].
    intros err' [= <-]. by left.
  - eexists _, [_]. rewrite <- !app_assoc. simpl.
    split; [done |]. split; [done |]. split; [by repeat constructor | done].
Qed.

(** One turn of the loop of [RunTests]: an earlier step stops the
    run without a deletion, or the deletion fails and its error is
    returned, or the deletion succeeds and the loop goes on. *)
Lemma RunTests_loop_step fuel test tests' w r w' :
  RunTests_loop env fuel (test :: tests') w = (r, w') →
  extends not_delete w w'
  ∨ (∃ before err,
       events w' = events w ++ before
                   ++ [EvDeleteNS (Namespace test) (Some err)]
       ∧ Forall not_delete before
       ∧ r = Some (Err (Wrapf err "error deleting namespace" [])))
  ∨ (∃ before w1,
       events w1 = events w ++ before
                   ++ [EvDeleteNS (Namespace test) None;
                       EvLog Info "Successfully deleted namespace: %q"
                         [AStr (Namespace test)]]
       ∧ Forall not_delete before
       ∧ RunTests_loop env fuel tests' w1 = (r, w')).
Proof.
  intros Hrun. simpl in Hrun.
  apply bind_inv in Hrun as ([] & w1 & H1 & Hrun).
  apply (emits_run not_delete) in H1; [|by apply emits_emit].
  apply bind_inv in Hrun as (created & w2 & H2 & Hrun).
  apply (emits_run not_delete) in H2; [|by apply emits_call].
  pose proof (extends_trans _ _ _ _ H1 H2) as E2. clear H1 H2.
  destruct created as [err|].
  { injection Hrun as <- <-. by left. }
  apply bind_inv in Hrun as ([] & w3 & H3 & Hrun).
  apply (emits_run not_delete) in H3; [|by apply emits_logf].
  apply bind_inv in Hrun as (converted & w4 & H4 & Hrun).
  apply (emits_run not_delete) in H4; [|apply RunKapp_quiet].
  pose proof (extends_trans _ _ _ _ E2 (extends_trans _ _ _ _ H3 H4)) as E4.
  clear E2 H3 H4.
  destruct converted as [output|err].
  2:{ injection Hrun as <- <-. by left. }
  apply bind_inv in Hrun as (applied & w5 & H5 & Hrun).
  apply (emits_run not_delete) in H5; [|apply RunKubeCreate_quiet].
  pose proof (extends_trans _ _ _ _ E4 H5) as E5. clear E4 H5.
  destruct applied as [err|].
  { injection Hrun as <- <-. by left. }
  apply bind_inv in Hrun as (started & w6 & H6 & Hrun).
  apply (emits_run not_delete) in H6; [|apply PodsStarted_quiet].
  pose proof (extends_trans _ _ _ _ E5 H6) as E6. clear E5 H6.
  destruct started as [[err|]|].
  1,3: injection Hrun as <- <-; by left.
  apply bind_inv in Hrun as (endPoints & w7 & H7 & Hrun).
  apply (emits_run not_delete) in H7; [|apply getEndPoints_quiet].
  pose proof (extends_trans _ _ _ _ E6 H7) as E7. clear E6 H7.
  destruct endPoints as [ep|err|p].
  2,3: injection Hrun as <- <-; by left.
  apply bind_inv in Hrun as ([pinged ep'] & w8 & H8 & Hrun).
  apply (emits_run not_delete) in H8; [|apply pingEndPoints_quiet].
  pose proof (extends_trans _ _ _ _ E7 H8) as E8. clear E7 H8.
  simpl in Hrun. destruct pinged as [[err|]|].
  1,3: injection Hrun as <- <-; by left.
  apply bind_inv in Hrun as ([] & w9 & H9 & Hrun).
  apply (emits_run not_delete) in H9; [|by apply emits_emit].
  destruct (extends_trans _ _ _ _ E8 H9) as (before & Hev & Hbefore).
  clear E8 H9.
  apply bind_inv in Hrun as (deleted & w10 & H10 & Hrun).
  unfold Namespaces_Delete, call in H10. injection H10 as <- <-.
  destruct (delete_ns env (calls w9) (Namespace test)) as [err|].
  - injection Hrun as <- <-. right. left. exists before, err.
    simpl. by rewrite Hev, <- app_assoc.
  - apply bind_inv in Hrun as ([] & w11 & H11 & Hrun).
    unfold logf, emit in H11. injection H11 as <-.
    right. right. exists before. eexists. split; [|done].
    simpl. by rewrite Hev, <- !app_assoc.
Qed.

Lemma RunTests_loop_failed_delete fuel tests w r w' :
  RunTests_loop env fuel tests w = (r, w') →
  ∃ new, events w' = events w ++ new
         ∧ ∀ ns err, EvDeleteNS ns (Some err) ∈ new →
             r = Some (Err (Wrapf err "error deleting namespace" [])).
Proof.
  revert w. induction tests as [|test tests IH]; intros w Hrun.
  - injection Hrun as <- <-. exists []. rewrite app_nil_r.
    split; [done |]. intros ns err H. by apply elem_of_nil in H.
  - apply RunTests_loop_step in Hrun
      as [(new & Hev & Hquiet)
         |[(before & err & Hev & Hquiet & ->)
          |(before & w1 & Hev & Hquiet & Hrest)]].
    + exists new. split; [done |]. intros ns err Hin.
      rewrite Forall_forall in Hquiet. by apply Hquiet in Hin.
    + eexists. split; [done |]. intros ns err' [Hin|Hin]%elem_of_app.
      * rewrite Forall_forall in Hquiet. by apply Hquiet in Hin.
      * apply list_elem_of_singleton in Hin. by injection Hin as _ <-.
    + apply IH in Hrest as (new & Hev' & Hnew).
      eexists. split; [by rewrite Hev', Hev, <- !app_assoc |].
      intros ns err [Hin|[Hin|Hin]%elem_of_app]%elem_of_app.
      * rewrite Forall_forall in Hquiet. by apply Hquiet in Hin.
      * by repeat (apply elem_of_cons in Hin as [Hin|Hin]; [done |]);
          apply elem_of_nil in Hin.
      * by apply (Hnew ns).
Qed.

End Lifecycle.

(** ** The theorems on the stub cluster *)

Example stub_end_to_end :
  (subtest healthy 1 stub_case w0).1 = Some Passed
  ∧ EvHttpGet "http://10.0.0.5:30080" 5 (inl {| Status := "200 OK" |})
    ∈ events (subtest healthy 1 stub_case w0).2.
Proof.
  split; [by vm_compute |]. vm_compute. repeat first [by left | right].
Qed.

Lemma stub_range_ok nodes status kapp_err del_err :
  range_ok (stub nodes status kapp_err del_err).
Proof. intros V n m. reflexivity. Defined.

Lemma run_eta {A B C} (run : A * B * C) : run = (run.1.1, run.1.2, run.2).
Proof. by destruct run as [[a b] c]. Defined.

Lemma pingEndPoints_bad_status_witness :
  range_ok accepted
  ∧ since w0 accepted_run.2
    = [] ++ EvHttpGet "http://10.0.0.5:30080" 5
              (inl {| Status := "201 Created" |}) :: []
  ∧ "201 Created" ≠ "200 OK"
  ∧ ([] : list event) = []
  ∧ ∃ e, two_endpoints !! e = Some "http://10.0.0.5:30080"
         ∧ accepted_run.1.1 = Some (Some (health_error e "201 Created")).
Proof.
  assert (range_ok accepted) as Hok by apply stub_range_ok.
  assert (since w0 accepted_run.2
          = [] ++ EvHttpGet "http://10.0.0.5:30080" 5
                    (inl {| Status := "201 Created" |}) :: []) as Hsince
    by (vm_compute; reflexivity).
  assert ("201 Created" ≠ "200 OK") as Hne by discriminate.
  split; [exact Hok |]. split; [exact Hsince |]. split; [exact Hne |].
  exact (pingEndPoints_bad_status accepted Hok 3 Logrus two_endpoints w0
           _ _ _ _ _ _ _ _ (run_eta accepted_run) Hsince Hne).
Defined.

Lemma pods_pass_removes_iff_witness :
  range_ok healthy
  ∧ is_Some (make_podUp ["web"] !! "web")
  ∧ ((pods_pass healthy Logrus [cache_pod] (make_podUp ["web"]) w0).1 !! "web"
     = None
     ↔ ∃ p, p ∈ [cache_pod] ∧ ready "web" p).
Proof.
  assert (is_Some (make_podUp ["web"] !! "web")) as Hsome
    by (exists 0; vm_compute; reflexivity).
  split; [apply stub_range_ok |]. split; [exact Hsome |].
  exact (pods_pass_removes_iff healthy (stub_range_ok _ _ _ _) Logrus
           [cache_pod] (make_podUp ["web"]) w0 "web" Hsome).
Defined.

Example unrelated_pod_accepted :
  ready "web" cache_pod
  ∧ (pods_pass healthy Logrus [cache_pod] (make_podUp ["web"]) w0).1 !! "web"
    = None.
Proof.
  split; [|by vm_compute].
  split; [by exists EmptyString, "cache-xyz" | done].
Qed.

Lemma stub_pod_ready (key : string) :
  key ∈ ["web"] → ∃ p, p ∈ [stub_pod] ∧ ready key p.
Proof.
  intros ->%list_elem_of_singleton. exists stub_pod.
  split; [by left |]. split; [by exists EmptyString, "-abc123" | done].
Defined.

Lemma PodsStarted_first_poll_witness :
  list_pods healthy (calls w0) "ns" = inl [stub_pod]
  ∧ (∀ key, key ∈ ["web"] → ∃ p, p ∈ [stub_pod] ∧ ready key p)
  ∧ ∃ w', PodsStarted healthy 1 Logrus "ns" ["web"] w0 = (Some None, w')
          ∧ count is_list_pods (since w0 w') = 1%nat
          ∧ count is_sleep (since w0 w') = 0%nat.
Proof.
  split; [reflexivity |]. split; [exact stub_pod_ready |].
  exact (PodsStarted_first_poll healthy (stub_range_ok _ _ _ _) 0 Logrus "ns"
           ["web"] w0 [stub_pod] eq_refl stub_pod_ready).
Defined.

Lemma pingEndPoints_empty_witness :
  range_ok healthy
  ∧ ∃ w', pingEndPoints healthy 1 Logrus ∅ w0 = (Some None, ∅, w')
          ∧ events w' = events w0 ∧ calls w' = calls w0.
Proof.
  split; [apply stub_range_ok |].
  exact (pingEndPoints_empty healthy (stub_range_ok _ _ _ _) 0 Logrus w0).
Defined.

Lemma ping_request_error_retried_witness :
  range_ok unreachable
  ∧ http_get unreachable (calls w0) "http://10.0.0.5:30080"
    = inr (External "connection refused")
  ∧ ping_entries unreachable Logrus
      [("svc:8080", "http://10.0.0.5:30080");
       ("db:3306", "http://10.0.0.5:30306")] two_endpoints w0
    = ping_entries unreachable Logrus
        [("db:3306", "http://10.0.0.5:30306")] two_endpoints
        (advance w0 1
           [EvHttpGet "http://10.0.0.5:30080" 5
              (inr (External "connection refused"));
            EvLog Debug
              "error while making http request %q for service %q, err: %v"
              [AStr "http://10.0.0.5:30080"; AStr "svc:8080";
               AErr (External "connection refused")];
            EvSleep 1])
  ∧ unreachable_run.1.1 = None.
Proof.
  split; [apply stub_range_ok |]. split; [reflexivity |].
  split; [|by vm_compute].
  exact (proj1 (ping_request_error_retried unreachable (stub_range_ok _ _ _ _)
                  Logrus "svc:8080" "http://10.0.0.5:30080"
                  [("db:3306", "http://10.0.0.5:30306")] two_endpoints w0
                  (External "connection refused") eq_refl)).
Defined.

Lemma getEndPoints_no_fabricated_witness :
  list_nodes healthy (calls w0) = inl [stub_node]
  ∧ v1.Addresses stub_node = ["10.0.0.5"]
  ∧ list_services healthy (S (calls w0)) "ns" = inl [stub_service]
  ∧ ∃ m w',
      getEndPoints healthy Logrus "ns" (NodePortServices stub_case) w0
      = (Ok m, w')
      ∧ (∀ key url, m !! key = Some url →
           ∃ svc p, svc ∈ NodePortServices stub_case
                    ∧ live [stub_service] svc p
                    ∧ key = Name svc +:+ ":" +:+ fmt_d (Port svc)
                    ∧ url = "http://" +:+ "10.0.0.5" +:+ ":"
                            +:+ fmt_d (v1.NodePort p))
      ∧ (∀ svc, svc ∈ NodePortServices stub_case →
           (is_Some (m !! endpoint_key svc) ↔ ∃ p, live [stub_service] svc p)).
Proof.
  split; [reflexivity |]. split; [reflexivity |]. split; [reflexivity |].
  exact (getEndPoints_no_fabricated healthy Logrus "ns"
           (NodePortServices stub_case) w0 stub_node [] "10.0.0.5" []
           [stub_service] eq_refl eq_refl eq_refl).
Defined.

Example stub_endpoint :
  (getEndPoints healthy Logrus "ns" (NodePortServices stub_case) w0).1
  = Ok {[ "svc:8080" := "http://10.0.0.5:30080" ]}.
Proof. by vm_compute. Qed.

Lemma getEndPoints_panics_witness :
  list_nodes no_node (calls w0) = inl []
  ∧ (([] : list v1.Node) = []
     ∨ ∃ n rest, [] = n :: rest ∧ v1.Addresses n = [])
  ∧ ∃ w', getEndPoints no_node Logrus "ns" (NodePortServices stub_case) w0
          = (Panic (IndexOutOfRange 0 0), w')
          ∧ since w0 w' = [EvListNodes (inl [])].
Proof.
  split; [reflexivity |]. split; [by left |].
  exact (getEndPoints_panics no_node Logrus "ns" (NodePortServices stub_case)
           w0 [] eq_refl (or_introl eq_refl)).
Defined.

Example node_without_address_panics :
  (getEndPoints no_address Logrus "ns" (NodePortServices stub_case) w0).1
  = Panic (IndexOutOfRange 0 0).
Proof. reflexivity. Qed.


Lemma pair_eta {A B} (run : A * B) (a : A) : run.1 = a → run = (a, run.2).
Proof. destruct run as [a' b]. simpl. by intros ->. Defined.



(** * Further properties *)

Lemma emits_mono {A} (P Q : event → Prop) (m : M A) :
  (∀ ev, P ev → Q ev) → emits P m → emits Q m.
Proof.
  intros HPQ Hm w. destruct (Hm w) as (new & E & F).
  exists new. split; [done | by eapply Forall_impl].
Qed.

Lemma emits_sink (P : event → Prop) k lvl format args :
  P (EvLog (match k with Logrus => lvl | Testing => TLog end) format args) →
  emits P (logf k lvl format args).
Proof. apply emits_emit. Qed.

(** ** What the leaf functions touch *)

Section Footprint.
Variable env : Env.

Ltac footprint k :=
  repeat first
    [ apply emits_ret
    | apply emits_range
    | apply emits_sink; by destruct k
    | apply emits_emit; exact eq_refl
    | apply emits_call; intros; simpl; apply String.eqb_refl
    | apply emits_call; intros; exact eq_refl
    | apply emits_bind; [|intros ?]
    | case_match ].

Lemma scan_pods_footprint k namespace key items podUp :
  emits (λ ev, watcher_event k namespace ev = true)
    (scan_pods k key items podUp).
Proof.
  revert podUp. induction items as [|p items IH]; intros podUp; simpl;
    footprint k; apply IH.
Qed.

Lemma scan_keys_footprint k namespace keys items podUp :
  emits (λ ev, watcher_event k namespace ev = true)
    (scan_keys k keys items podUp).
Proof.
  revert podUp. induction keys as [|[key v] keys IH]; intros podUp; simpl;
    footprint k; [apply scan_pods_footprint | apply IH].
Qed.

Lemma PodsStarted_loop_footprint fuel k namespace podUp :
  emits (λ ev, watcher_event k namespace ev = true)
    (PodsStarted_loop env fuel k namespace podUp).
Proof.
  revert podUp. induction fuel as [|fuel IH]; intros podUp; simpl.
  - apply emits_ret.
  - unfold mapkeys, pods_pass, Sleep.
    footprint k; first [apply scan_keys_footprint | apply IH].
Qed.

Lemma PodsStarted_footprint fuel k namespace podNames :
  emits (λ ev, watcher_event k namespace ev = true)
    (PodsStarted env fuel k namespace podNames).
Proof.
  unfold PodsStarted. apply emits_bind; [|intros ?; apply emits_ret].
  apply PodsStarted_loop_footprint.
Qed.

Lemma getEndPoints_footprint k namespace svcs :
  emits (λ ev, resolver_event k namespace ev = true)
    (getEndPoints env k namespace svcs).
Proof. unfold getEndPoints. footprint k. Qed.

Lemma ping_entries_shrinks k entries ep w :
  (ping_entries env k entries ep w).1.2 ⊆ ep.
Proof.
  revert ep w. induction entries as [|[e u] entries IH]; intros ep w; [done |].
  simpl. unfold bind, call. simpl.
  destruct (http_get env (calls w) u) as [[status]|err]; simpl.
  - destruct (String.eqb status "200 OK"); simpl; [|done].
    unfold bind, logf, emit. simpl.
    etrans; [apply IH | apply delete_subseteq].
  - unfold bind, logf, emit, Sleep, emit. simpl. apply IH.
Qed.

Lemma ping_entries_footprint k ep0 entries ep :
  (∀ e u, (e, u) ∈ entries → ep0 !! e = Some u) →
  emits (poller_event k ep0) (ping_entries env k entries ep).
Proof.
  revert ep. induction entries as [|[e u] entries IH]; intros ep Hin; simpl.
  - apply emits_ret.
  - assert (∀ e' u', (e', u') ∈ entries → ep0 !! e' = Some u') as Hrest
      by (intros e' u' H; apply Hin; by right).
    apply emits_bind.
    { apply emits_call. intros r. exists e. apply Hin. by left. }
    intros [r|err].
    + case_match; [|apply emits_ret].
      apply emits_bind; [apply emits_sink; by destruct k | intros _; by apply IH].
    + unfold Sleep.
      apply emits_bind; [apply emits_sink; by destruct k |]. intros _.
      apply emits_bind; [by apply emits_emit | intros _; by apply IH].
Qed.

Lemma ping_entries_prober k entries ep :
  emits (λ ev, prober_event k ev = true) (ping_entries env k entries ep).
Proof.
  revert ep. induction entries as [|[e u] entries IH]; intros ep; simpl;
    unfold Sleep; footprint k; apply IH.
Qed.

Lemma pingEndPoints_prober fuel k ep :
  emits (λ ev, prober_event k ev = true) (pingEndPoints env fuel k ep).
Proof.
  revert ep. induction fuel as [|fuel IH]; intros ep; simpl;
    footprint k; first [apply ping_entries_prober | apply IH].
Qed.

Hypothesis Hrange : range_ok env.

Lemma pingEndPoints_footprint_from fuel k ep0 ep :
  ep ⊆ ep0 → emits (poller_event k ep0) (pingEndPoints env fuel k ep).
Proof.
  revert ep. induction fuel as [|fuel IH]; intros ep Hsub; simpl.
  - apply emits_ret.
  - intros w. unfold bind, range. simpl.
    pose proof (ping_entries_shrinks k (range_order env string (ranges w) ep) ep
                  {| events := events w; calls := calls w;
                     ranges := S (ranges w) |}) as Hshrink.
    destruct (ping_entries_footprint k ep0
                (range_order env string (ranges w) ep) ep) with
      (w := {| events := events w; calls := calls w;
               ranges := S (ranges w) |}) as (new & Hev & Hnew).
    { intros e u Hin. apply (lookup_weaken ep); [|done].
      by apply (range_lookup env Hrange) in Hin. }
    destruct (ping_entries _ _ _ _ _) as [[r ep1] w1]. simpl in *.
    destruct r as [err|]; [by exists new |].
    destruct (Nat.eqb _ _); [by exists new |].
    destruct (IH ep1 (transitivity Hshrink Hsub) w1) as (new' & Hev' & Hnew').
    exists (new ++ new'). split; [by rewrite Hev', Hev, app_assoc |].
    by apply Forall_app.
Qed.

(** X1.  The polling functions and the resolver call nothing but
    their own collaborator.  [PodsStarted] only logs, sleeps one second
    and lists the pods of its namespace; [getEndPoints] only logs,
    lists the nodes and lists the services of its namespace;
    [pingEndPoints] only logs, sleeps one second and calls
    [client.Get], on a client with a timeout of five seconds, with a
    URL held by the map it was given.  What the HTTP client does to
    answer such a call, a redirect it follows for one, is not in the
    trace and is not spoken of.  None of the three creates or deletes
    a namespace or starts a process. *)
Theorem leaf_footprints fuel k namespace podNames svcs ep :
  emits (λ ev, watcher_event k namespace ev = true)
    (PodsStarted env fuel k namespace podNames)
  ∧ emits (λ ev, resolver_event k namespace ev = true)
      (getEndPoints env k namespace svcs)
  ∧ emits (poller_event k ep) (pingEndPoints env fuel k ep).
Proof.
  split; [apply PodsStarted_footprint |].
  split; [apply getEndPoints_footprint | by apply pingEndPoints_footprint_from].
Qed.

End Footprint.

(** ** More on the pod readiness watcher *)

Lemma make_podUp_spec (podNames : list string) (key : string) :
  make_podUp podNames !! key
  = if decide (key ∈ podNames) then Some 0 else None.
Proof.
  unfold make_podUp.
  cut (∀ m : gmap string Z,
         foldl (λ podUp p, <[p:=0]> podUp) m podNames !! key
         = if decide (key ∈ podNames) then Some 0 else m !! key).
  { intros Hcut. rewrite Hcut. by rewrite lookup_empty. }
  induction podNames as [|p podNames IH]; intros m; simpl.
  - destruct (decide (key ∈ [])) as [Hin|_]; [by apply elem_of_nil in Hin | done].
  - rewrite IH.
    destruct (decide (key ∈ podNames)) as [Hin|Hnin];
      destruct (decide (key ∈ p :: podNames)) as [Hin'|Hnin']; try done.
    + exfalso. apply Hnin'. by right.
    + apply elem_of_cons in Hin' as [->|?]; [|done].
      by rewrite lookup_insert_eq.
    + rewrite lookup_insert_ne; [done |].
      intros ->. apply Hnin'. by left.
Qed.

Lemma scan_pods_calls k key items podUp w :
  calls (scan_pods k key items podUp w).2 = calls w.
Proof.
  revert podUp w. induction items as [|p items IH]; intros podUp w; [done |].
  simpl. destruct (_ && _); [|apply IH].
  unfold bind, logf, emit. simpl. by rewrite IH.
Qed.

Lemma scan_keys_calls k keys items podUp w :
  calls (scan_keys k keys items podUp w).2 = calls w.
Proof.
  revert podUp w. induction keys as [|[key v] keys IH]; intros podUp w; [done |].
  simpl. unfold bind.
  pose proof (scan_pods_calls k key items podUp w) as Hc.
  destruct (scan_pods k key items podUp w) as [podUp1 w1]. simpl in Hc.
  by rewrite IH.
Qed.

Lemma pods_pass_calls env k items podUp w :
  calls (pods_pass env k items podUp w).2 = calls w.
Proof. unfold pods_pass, bind, range. by rewrite scan_keys_calls. Qed.

Section Watching.
Variable env : Env.

(** One turn of the loop after a listing that succeeded. *)
Lemma PodsStarted_loop_listed fuel k namespace podUp w items :
  list_pods env (calls w) namespace = inl items →
  ∃ line logs w2 podUp1,
    (range_ok env →
     ∀ key, podUp1 !! key
            = if existsb (ready_b key) items then None else podUp !! key)
    ∧ events w2
      = events w ++ line :: EvListPods namespace (inl items) :: logs
    ∧ is_log line = true ∧ Forall (λ ev, is_log ev = true) logs
    ∧ calls w2 = S (calls w)
    ∧ PodsStarted_loop env (S fuel) k namespace podUp w
      = if Nat.eqb (size podUp1) 0 then (Some None, podUp1, w2)
        else PodsStarted_loop env fuel k namespace podUp1
               (advance w2 0 [EvSleep 1]).
Proof.
  intros Hlist. simpl.
  unfold bind, mapkeys, bind, range, logf, emit, call, ret. simpl.
  rewrite Hlist.
  match goal with |- context [pods_pass env k items podUp ?w1] =>
    pose proof (λ Hrange, pods_pass_lookup env Hrange k items podUp w1)
      as Hlook;
    destruct (pods_pass_emits env k items podUp w1) as (logs & Hev & Hlogs);
    pose proof (pods_pass_calls env k items podUp w1) as Hcalls;
    destruct (pods_pass env k items podUp w1) as [podUp1 w2]
  end.
  simpl in Hlook, Hev, Hlogs, Hcalls.
  eexists _, logs, w2, podUp1.
  split; [exact Hlook |].
  split; [by rewrite Hev, <- !app_assoc |].
  split; [by destruct k |]. split; [exact Hlogs |]. split; [exact Hcalls |].
  destruct (Nat.eqb (size podUp1) 0); [done |].
  unfold Sleep, emit, advance. done.
Qed.

(** One turn of the loop after a listing that failed. *)
Lemma PodsStarted_loop_list_failed fuel k namespace podUp w cause :
  list_pods env (calls w) namespace = inr cause →
  ∃ line w2,
    events w2 = events w ++ [line; EvListPods namespace (inr cause)]
    ∧ is_log line = true
    ∧ PodsStarted_loop env (S fuel) k namespace podUp w
      = (Some (Some (Wrap cause "error while listing all pods")), podUp, w2).
Proof.
  intros Hlist. simpl.
  unfold bind, mapkeys, bind, range, logf, emit, call, ret. simpl.
  rewrite Hlist. eexists _, _. split; [|split; [|done]].
  - simpl. by rewrite <- app_assoc.
  - by destruct k.
Qed.

Lemma PodsStarted_loop_counts fuel k namespace podUp w r podUp' w' :
  PodsStarted_loop env fuel k namespace podUp w = (r, podUp', w') →
  ∃ new,
    events w' = events w ++ new
    ∧ count is_list_pods new
      = (count is_sleep new + if r is Some _ then 1 else 0)%nat
    ∧ (r = None → count is_sleep new = fuel)
    ∧ (count is_list_pods new ≤ fuel)%nat.
Proof.
  revert podUp w. induction fuel as [|fuel IH]; intros podUp w.
  - intros [= <- <- <-]. exists []. by rewrite app_nil_r.
  - destruct (list_pods env (calls w) namespace) as [items|cause] eqn:Hlist.
    + destruct (PodsStarted_loop_listed fuel k namespace podUp w items Hlist)
        as (line & logs & w2 & podUp1 & _ & Hev & Hline & Hlogs & _ & ->).
      assert (count is_list_pods logs = O ∧ count is_sleep logs = O)
        as [Hl Hs].
      { split; apply (count_none _ is_log); try done; by intros []. }
      assert (is_list_pods line = false ∧ is_sleep line = false) as [Hl1 Hs1]
        by (by destruct line).
      destruct (Nat.eqb (size podUp1) 0).
      * intros [= <- <- <-]. eexists. split; [exact Hev |].
        simpl. rewrite Hl1, Hs1, Hl, Hs. split; [done |].
        split; [done | lia].
      * intros Hrec. apply IH in Hrec as (new & Hev' & Hcount & Hnone & Hle).
        simpl in Hev'. rewrite Hev, <- !app_assoc in Hev'. simpl in Hev'.
        eexists. split; [exact Hev' |].
        simpl. rewrite Hl1, Hs1, !count_app, Hl, Hs. simpl.
        split; [lia |]. split; [intros Hr; specialize (Hnone Hr); lia | lia].
    + destruct (PodsStarted_loop_list_failed fuel k namespace podUp w cause
                  Hlist) as (line & w2 & Hev & Hline & ->).
      intros [= <- <- <-]. eexists. split; [exact Hev |].
      assert (is_list_pods line = false ∧ is_sleep line = false) as [Hl1 Hs1]
        by (by destruct line).
      simpl. rewrite Hl1, Hs1. split; [done |]. split; [done | lia].
Qed.

(** X2.  [PodsStarted] sleeps between two listings and nowhere else:
    a call that returns has listed the pods once more than it has
    slept, whatever it returns, and a call that is still polling after
    [fuel] turns of its loop has listed and slept [fuel] times each. *)
Theorem PodsStarted_poll_cadence fuel k namespace podNames w :
  let run := PodsStarted env fuel k namespace podNames w in
  count is_list_pods (since w run.2)
  = (count is_sleep (since w run.2) + if run.1 is Some _ then 1 else 0)%nat
  ∧ (run.1 = None → count is_sleep (since w run.2) = fuel).
Proof.
  unfold PodsStarted, bind, ret.
  destruct (PodsStarted_loop env fuel k namespace (make_podUp podNames) w)
    as [[r podUp'] w'] eqn:Hrun.
  apply PodsStarted_loop_counts in Hrun as (new & Hev & Hcount & Hnone & _).
  simpl. by rewrite (since_app _ _ _ Hev).
Qed.

Lemma PodsStarted_loop_within n :
  range_ok env →
  ∀ fuel k namespace podUp w (listings : nat → list v1.Pod),
  (∀ i, (i ≤ n)%nat →
        list_pods env (calls w + i) namespace = inl (listings i)) →
  (∀ key, is_Some (podUp !! key) →
     ∃ i, (i ≤ n)%nat ∧ existsb (ready_b key) (listings i) = true) →
  (n < fuel)%nat →
  ∃ podUp' w' new,
    PodsStarted_loop env fuel k namespace podUp w = (Some None, podUp', w')
    ∧ events w' = events w ++ new
    ∧ (count is_list_pods new ≤ S n)%nat.
Proof.
  intros Hrange.
  induction n as [|n IH]; intros fuel k namespace podUp w listings Hlist
    Hready Hfuel.
  - destruct fuel as [|fuel]; [lia |].
    pose proof (Hlist O (Nat.le_refl _)) as Hl0.
    rewrite Nat.add_0_r in Hl0.
    destruct (PodsStarted_loop_listed fuel k namespace podUp w _ Hl0)
      as (line & logs & w2 & podUp1 & Hlook & Hev & Hline & Hlogs & _ & Hrun).
    specialize (Hlook Hrange).
    assert (podUp1 = ∅) as ->.
    { apply map_empty. intros key. rewrite Hlook.
      destruct (existsb (ready_b key) (listings O)) eqn:Hex; [done |].
      destruct (podUp !! key) as [v|] eqn:Hv; [|done].
      destruct (Hready key (ex_intro _ v Hv)) as (i & Hi & Hr).
      assert (i = O) as -> by lia. congruence. }
    rewrite map_size_empty in Hrun. simpl in Hrun.
    eexists _, _, _. split; [exact Hrun |]. split; [exact Hev |].
    simpl. rewrite (count_none is_list_pods is_log logs);
      [by destruct line | by intros [] | done].
  - destruct fuel as [|fuel]; [lia |].
    pose proof (Hlist O (Nat.le_0_l _)) as Hl0.
    rewrite Nat.add_0_r in Hl0.
    destruct (PodsStarted_loop_listed fuel k namespace podUp w _ Hl0)
      as (line & logs & w2 & podUp1 & Hlook & Hev & Hline & Hlogs & Hcalls
          & Hrun).
    specialize (Hlook Hrange).
    assert (count is_list_pods logs = O) as Hl
      by (apply (count_none _ is_log); [by intros [] | done]).
    assert (is_list_pods line = false) as Hl1 by (by destruct line).
    rewrite Hrun. destruct (Nat.eqb (size podUp1) 0).
    + eexists _, _, _. split; [done |]. split; [exact Hev |].
      simpl. rewrite Hl1, Hl. lia.
    + destruct (IH fuel k namespace podUp1 (advance w2 0 [EvSleep 1])
                  (λ i, listings (S i)))
        as (podUp' & w' & new & Hrec & Hev' & Hcount).
      * intros i Hi. simpl. rewrite Hcalls.
        replace (S (calls w) + i)%nat with (calls w + S i)%nat by lia.
        apply Hlist. lia.
      * intros key [v Hv]. rewrite Hlook in Hv.
        destruct (existsb (ready_b key) (listings O)) eqn:Hex; [done |].
        destruct (Hready key (ex_intro _ v Hv)) as (i & Hi & Hr).
        destruct i as [|i]; [congruence |].
        exists i. split; [lia | done].
      * lia.
      * eexists _, _, _. split; [exact Hrec |].
        simpl in Hev'. rewrite Hev, <- !app_assoc in Hev'. simpl in Hev'.
        split; [exact Hev' |].
        simpl. rewrite Hl1, !count_app, Hl. simpl. lia.
Qed.

(** X4.  Readiness is remembered from one poll to the next: the pods
    need not be running at the same time.  If the next [n + 1]
    listings succeed and every expected name is matched by a running
    pod in at least one of them, [PodsStarted] returns nil after at
    most [n + 1] listings. *)
Theorem PodsStarted_within
    n fuel k namespace podNames w (listings : nat → list v1.Pod) :
  range_ok env →
  (∀ i, (i ≤ n)%nat →
        list_pods env (calls w + i) namespace = inl (listings i)) →
  (∀ name, name ∈ podNames →
     ∃ i, (i ≤ n)%nat ∧ ∃ p, p ∈ listings i ∧ ready name p) →
  (n < fuel)%nat →
  ∃ w', PodsStarted env fuel k namespace podNames w = (Some None, w')
        ∧ (count is_list_pods (since w w') ≤ S n)%nat.
Proof.
  intros Hrange Hlist Hready Hfuel.
  destruct (PodsStarted_loop_within n Hrange fuel k namespace
              (make_podUp podNames) w listings Hlist)
    as (podUp' & w' & new & Hrun & Hev & Hcount); [|done|].
  - intros key [v Hv]. rewrite make_podUp_spec in Hv.
    destruct (decide (key ∈ podNames)) as [Hin|]; [|done].
    destruct (Hready key Hin) as (i & Hi & Hp).
    exists i. split; [done |]. by apply existsb_ready.
  - exists w'. unfold PodsStarted, bind. rewrite Hrun. simpl.
    split; [done |]. by rewrite (since_app _ _ _ Hev).
Qed.

Lemma PodsStarted_loop_forever fuel :
  range_ok env →
  ∀ k namespace podUp w name,
  is_Some (podUp !! name) →
  (∀ c, (calls w ≤ c)%nat →
     ∃ items, list_pods env c namespace = inl items
              ∧ existsb (ready_b name) items = false) →
  (PodsStarted_loop env fuel k namespace podUp w).1.1 = None.
Proof.
  intros Hrange.
  induction fuel as [|fuel IH]; intros k namespace podUp w name Hin Hall;
    [done |].
  destruct (Hall (calls w) (Nat.le_refl _)) as (items & Hl0 & Hnot).
  destruct (PodsStarted_loop_listed fuel k namespace podUp w _ Hl0)
    as (line & logs & w2 & podUp1 & Hlook & _ & _ & _ & Hcalls & ->).
  specialize (Hlook Hrange).
  assert (is_Some (podUp1 !! name)) as Hin1
    by (by rewrite Hlook, Hnot).
  destruct (Nat.eqb (size podUp1) 0) eqn:Hsize.
  - apply Nat.eqb_eq, map_size_empty_iff in Hsize. subst podUp1.
    rewrite lookup_empty in Hin1. by destruct Hin1.
  - apply (IH _ _ _ _ name Hin1). intros c Hc. apply Hall.
    simpl in Hc. lia.
Qed.

(** X5.  [PodsStarted] has no timeout of its own.  While the listings
    succeed and one expected name is matched by no running pod, the
    call keeps polling: it has not returned after any number of turns
    of its loop. *)
Theorem PodsStarted_waits_forever fuel k namespace podNames w name :
  range_ok env →
  name ∈ podNames →
  (∀ c, (calls w ≤ c)%nat →
     ∃ items, list_pods env c namespace = inl items
              ∧ ∀ p, p ∈ items → ¬ ready name p) →
  (PodsStarted env fuel k namespace podNames w).1 = None.
Proof.
  intros Hrange Hin Hall. unfold PodsStarted, bind.
  pose proof (PodsStarted_loop_forever fuel Hrange k namespace
                (make_podUp podNames) w name) as Hloop.
  destruct (PodsStarted_loop env fuel k namespace (make_podUp podNames) w)
    as [[r podUp'] w'].
  simpl in *. apply Hloop.
  - rewrite make_podUp_spec. by destruct (decide _).
  - intros c Hc. destruct (Hall c Hc) as (items & Hl & Hnone).
    exists items. split; [done |].
    destruct (existsb (ready_b name) items) eqn:Hex; [|done].
    apply existsb_ready in Hex as (p & Hp & Hr). by destruct (Hnone p Hp).
Qed.

End Watching.

(** *** The order of the visit *)

Lemma calls_only_app (tr1 tr2 : list event) :
  calls_only (tr1 ++ tr2) = calls_only tr1 ++ calls_only tr2.
Proof. apply List.filter_app. Qed.

Lemma calls_only_logs (tr : list event) :
  Forall (λ ev, is_log ev = true) tr → calls_only tr = [].
Proof.
  induction 1 as [|ev tr Hev _ IH]; [done |].
  unfold calls_only in *. simpl. by rewrite Hev.
Qed.

Lemma calls_only_listed (line : event) namespace items (logs : list event) :
  is_log line = true → Forall (λ ev, is_log ev = true) logs →
  calls_only (line :: EvListPods namespace items :: logs)
  = [EvListPods namespace items].
Proof.
  intros Hline Hlogs. unfold calls_only. simpl. rewrite Hline. simpl.
  f_equal. by apply calls_only_logs.
Qed.

Lemma PodsStarted_loop_any_order env1 env2 fuel k namespace :
  range_ok env1 → range_ok env2 →
  (∀ n, list_pods env1 n namespace = list_pods env2 n namespace) →
  ∀ podUp w1 w2, calls w1 = calls w2 →
  ∃ new1 new2,
    events (PodsStarted_loop env1 fuel k namespace podUp w1).2
    = events w1 ++ new1
    ∧ events (PodsStarted_loop env2 fuel k namespace podUp w2).2
      = events w2 ++ new2
    ∧ calls_only new1 = calls_only new2
    ∧ (PodsStarted_loop env1 fuel k namespace podUp w1).1
      = (PodsStarted_loop env2 fuel k namespace podUp w2).1.
Proof.
  intros Hr1 Hr2 Hpods.
  induction fuel as [|fuel IH]; intros podUp w1 w2 Hcalls.
  - exists [], []. simpl. by rewrite !app_nil_r.
  - destruct (list_pods env1 (calls w1) namespace) as [items|cause] eqn:H1.
    + assert (list_pods env2 (calls w2) namespace = inl items) as H2
        by (by rewrite <- Hcalls, <- Hpods).
      destruct (PodsStarted_loop_listed env1 fuel k namespace podUp w1 items
                  H1)
        as (line1 & logs1 & v1 & podUp1 & Hlook1 & Hev1 & Hline1 & Hlogs1
            & Hcalls1 & ->).
      destruct (PodsStarted_loop_listed env2 fuel k namespace podUp w2 items
                  H2)
        as (line2 & logs2 & v2 & podUp2 & Hlook2 & Hev2 & Hline2 & Hlogs2
            & Hcalls2 & ->).
      assert (podUp2 = podUp1) as ->.
      { apply map_eq. intros key. by rewrite (Hlook1 Hr1), (Hlook2 Hr2). }
      destruct (Nat.eqb (size podUp1) 0).
      * eexists _, _. split; [exact Hev1 |]. split; [exact Hev2 |].
        split; [|done]. by rewrite !calls_only_listed.
      * destruct (IH podUp1 (advance v1 0 [EvSleep 1])
                    (advance v2 0 [EvSleep 1]))
          as (new1 & new2 & Hn1 & Hn2 & Hsame & Hres).
        { simpl. by rewrite Hcalls1, Hcalls2, Hcalls. }
        exists ((line1 :: EvListPods namespace (inl items) :: logs1)
                  ++ EvSleep 1 :: new1),
          ((line2 :: EvListPods namespace (inl items) :: logs2)
             ++ EvSleep 1 :: new2).
        split; [rewrite Hn1; simpl; by rewrite Hev1, <- !app_assoc |].
        split; [rewrite Hn2; simpl; by rewrite Hev2, <- !app_assoc |].
        split; [|done].
        rewrite !calls_only_app, !calls_only_listed by done.
        change (EvSleep 1 :: ?l) with ([EvSleep 1] ++ l).
        rewrite !calls_only_app. by rewrite Hsame.
    + assert (list_pods env2 (calls w2) namespace = inr cause) as H2
        by (by rewrite <- Hcalls, <- Hpods).
      destruct (PodsStarted_loop_list_failed env1 fuel k namespace podUp w1
                  cause H1) as (line1 & v1 & Hev1 & Hline1 & ->).
      destruct (PodsStarted_loop_list_failed env2 fuel k namespace podUp w2
                  cause H2) as (line2 & v2 & Hev2 & Hline2 & ->).
      eexists _, _. split; [exact Hev1 |]. split; [exact Hev2 |].
      split; [|done]. unfold calls_only. simpl. by rewrite Hline1, Hline2.
Qed.

(** X3.  The expected names are waited for as a set, and the order in
    which the map is visited is of no consequence for what
    [PodsStarted] does.  Take two lists with the same elements, in any
    order and with any repetitions, and two orders of visiting (the
    two environments may differ in nothing that [PodsStarted] uses
    but that order): the two runs return the same and make the same
    listings and sleeps, one after the other.  Their log lines may
    differ. *)
Theorem PodsStarted_names_as_set env1 env2 fuel k namespace l1 l2 w :
  range_ok env1 → range_ok env2 →
  (∀ n, list_pods env1 n namespace = list_pods env2 n namespace) →
  same_elements l1 l2 →
  let run1 := PodsStarted env1 fuel k namespace l1 w in
  let run2 := PodsStarted env2 fuel k namespace l2 w in
  run1.1 = run2.1
  ∧ calls_only (since w run1.2) = calls_only (since w run2.2).
Proof.
  intros Hr1 Hr2 Hpods Hsame. simpl. unfold PodsStarted, bind, ret.
  replace (make_podUp l2) with (make_podUp l1).
  2:{ apply map_eq. intros key. rewrite !make_podUp_spec.
      destruct (decide (key ∈ l1)) as [H1|H1];
        destruct (decide (key ∈ l2)) as [H2|H2]; try done.
      - by apply Hsame in H1.
      - by apply Hsame in H2. }
  destruct (PodsStarted_loop_any_order env1 env2 fuel k namespace Hr1 Hr2
              Hpods (make_podUp l1) w w eq_refl)
    as (new1 & new2 & Hev1 & Hev2 & Hcalls & Hres).
  destruct (PodsStarted_loop env1 fuel k namespace (make_podUp l1) w)
    as [[r1 m1] v1].
  destruct (PodsStarted_loop env2 fuel k namespace (make_podUp l1) w)
    as [[r2 m2] v2].
  simpl in *. rewrite (since_app _ _ _ Hev1), (since_app _ _ _ Hev2).
  split; [congruence | done].
Qed.

(** ** [mapkeys] *)

Lemma foldl_snoc_keys {V} (entries : list (string * V)) (acc : list string) :
  foldl (λ keys kv, keys ++ [kv.1]) acc entries = acc ++ entries.*1.
Proof.
  revert acc. induction entries as [|kv entries IH]; intros acc; simpl.
  - by rewrite app_nil_r.
  - rewrite IH, <- app_assoc. done.
Qed.

(** X6.  [mapkeys] returns every key of the map once, whatever the
    order of the visit, and leaves no trace. *)
Theorem mapkeys_each_key_once env (m : gmap string Z) (w : World) :
  range_ok env →
  let keys := (mapkeys env m w).1 in
  NoDup keys
  ∧ (∀ key, key ∈ keys ↔ is_Some (m !! key))
  ∧ length keys = size m
  ∧ events (mapkeys env m w).2 = events w.
Proof.
  intros Hrange. unfold mapkeys, bind, range, ret. simpl.
  rewrite foldl_snoc_keys. simpl.
  split; [by apply range_NoDup |].
  split; [intros key; by apply range_keys |].
  split; [|done].
  rewrite length_fmap, (Hrange Z (ranges w) m). apply length_map_to_list.
Qed.

(** ** More on the endpoint resolver *)

Lemma last_url_app nodeIP l1 l2 before :
  last_url nodeIP (l1 ++ l2) before
  = last_url nodeIP l2 (last_url nodeIP l1 before).
Proof. unfold last_url. rewrite last_app. by destruct (last l2). Qed.

Lemma last_url_idem nodeIP l before :
  last_url nodeIP l (last_url nodeIP l before) = last_url nodeIP l before.
Proof. unfold last_url. by destruct (last l). Qed.

Section LastMatch.
Variable nodeIP : string.

Lemma match_ports_other svc ports m key :
  key ≠ endpoint_key svc →
  match_ports nodeIP svc ports m !! key = m !! key.
Proof.
  intros Hne. revert m. induction ports as [|p ports IH]; intros m; simpl;
    [done |].
  destruct (Z.eqb _ _); rewrite IH; [|done].
  by rewrite lookup_insert_ne.
Qed.

Lemma match_ports_last svc ports m :
  match_ports nodeIP svc ports m !! endpoint_key svc
  = last_url nodeIP
      (List.filter (λ p, Z.eqb (v1.Port p) (Port svc)) ports)
      (m !! endpoint_key svc).
Proof.
  revert m. induction ports as [|p ports IH]; intros m; simpl; [done |].
  destruct (Z.eqb _ _); rewrite IH; [|done].
  rewrite lookup_insert_eq.
  change (p :: List.filter ?f ports) with ([p] ++ List.filter f ports).
  by rewrite last_url_app.
Qed.

Lemma match_ports_size svc ports m :
  (size (match_ports nodeIP svc ports m) ≤ size m + 1)%nat
  ∧ (is_Some (m !! endpoint_key svc) →
     size (match_ports nodeIP svc ports m) = size m).
Proof.
  revert m. induction ports as [|p ports IH]; intros m; simpl; [lia |].
  destruct (Z.eqb _ _); [|apply IH].
  destruct (IH (<[endpoint_key svc:=endpoint_url nodeIP (v1.NodePort p)]> m))
    as [_ Heq].
  rewrite Heq by (by rewrite lookup_insert_eq).
  destruct (m !! endpoint_key svc) as [v|] eqn:Hm.
  - rewrite map_size_insert_Some by done. split; [lia | done].
  - rewrite map_size_insert_None by done. split; [lia |].
    by intros [? ?].
Qed.

Lemma match_services_other svc items m key :
  key ≠ endpoint_key svc →
  match_services nodeIP svc items m !! key = m !! key.
Proof.
  intros Hne. revert m. induction items as [|s items IH]; intros m; simpl;
    [done |].
  destruct (String.eqb _ _); rewrite IH; [|done].
  by apply match_ports_other.
Qed.

Lemma match_services_last svc items m :
  match_services nodeIP svc items m !! endpoint_key svc
  = last_url nodeIP (candidates svc items) (m !! endpoint_key svc).
Proof.
  revert m. induction items as [|s items IH]; intros m; simpl; [done |].
  destruct (String.eqb _ _); rewrite IH.
  - by rewrite match_ports_last, last_url_app.
  - done.
Qed.

Lemma match_services_size svc items m :
  (size (match_services nodeIP svc items m) ≤ size m + 1)%nat
  ∧ (is_Some (m !! endpoint_key svc) →
     size (match_services nodeIP svc items m) = size m).
Proof.
  revert m. induction items as [|s items IH]; intros m; simpl; [lia |].
  destruct (String.eqb _ _); [|apply IH].
  destruct (IH (match_ports nodeIP svc (v1.Spec_Ports s) m)) as [Hle Heq].
  destruct (match_ports_size svc (v1.Spec_Ports s) m) as [Hle' Heq'].
  split.
  - destruct (m !! endpoint_key svc) as [v|] eqn:Hm.
    + rewrite Heq' in Hle by done. lia.
    + destruct (match_ports nodeIP svc (v1.Spec_Ports s) m !! endpoint_key svc)
        as [v|] eqn:Hm'.
      * rewrite Heq by done. lia.
      * assert (match_ports nodeIP svc (v1.Spec_Ports s) m = m) as Hsame;
          [|rewrite Hsame in Hle |- *; lia].
        apply map_eq. intros key.
        destruct (decide (key = endpoint_key svc)) as [->|Hne].
        -- by rewrite Hm', Hm.
        -- by apply match_ports_other.
  - intros Hsome. rewrite Heq, Heq'; [done | done |].
    by apply match_ports_keeps.
Qed.

Lemma match_declared_size svcs items m :
  (size (match_declared nodeIP svcs items m) ≤ size m + length svcs)%nat.
Proof.
  revert m. induction svcs as [|svc svcs IH]; intros m; simpl; [lia |].
  specialize (IH (match_services nodeIP svc items m)).
  destruct (match_services_size svc items m) as [Hle _]. lia.
Qed.

Lemma candidates_same svc svc' items :
  endpoint_key svc = endpoint_key svc' →
  candidates svc items = candidates svc' items.
Proof.
  intros [Hn Hp]%endpoint_key_inj. unfold candidates. by rewrite Hn, Hp.
Qed.

Lemma match_declared_last svcs items m svc :
  match_declared nodeIP svcs items m !! endpoint_key svc
  = last_url nodeIP (candidates svc items) (m !! endpoint_key svc)
  ∨ (svc ∉ svcs)
    ∧ match_declared nodeIP svcs items m !! endpoint_key svc
      = m !! endpoint_key svc.
Proof.
  revert m. induction svcs as [|svc' svcs IH]; intros m; simpl.
  - right. split; [apply not_elem_of_nil | done].
  - destruct (decide (endpoint_key svc = endpoint_key svc')) as [Heq|Hne].
    + left.
      destruct (IH (match_services nodeIP svc' items m)) as [->|[_ ->]];
        rewrite Heq, match_services_last, <- Heq,
          <- (candidates_same svc svc' items Heq);
        [apply last_url_idem | done].
    + destruct (IH (match_services nodeIP svc' items m)) as [->|[Hnin ->]];
        rewrite match_services_other by done; [by left |].
      right. split; [|done].
      intros [->|?]%elem_of_cons; done.
Qed.

End LastMatch.

(** X7.  When a declared pair matches several live ports, the last one
    in the order of the listing gives the URL; a declared pair gives at
    most one entry, so the map has no more entries than there are
    declared pairs. *)
Theorem getEndPoints_last_match_wins
    env k namespace svcs w n rest nodeIP addrs running :
  list_nodes env (calls w) = inl (n :: rest) →
  v1.Addresses n = nodeIP :: addrs →
  list_services env (S (calls w)) namespace = inl running →
  ∃ m w',
    getEndPoints env k namespace svcs w = (Ok m, w')
    ∧ (∀ svc, svc ∈ svcs →
         m !! endpoint_key svc
         = (λ p, endpoint_url nodeIP (v1.NodePort p))
             <$> last (candidates svc running))
    ∧ (size m ≤ length svcs)%nat.
Proof.
  intros Hnodes Haddr Hsvcs.
  unfold getEndPoints, bind, call, logf, emit, ret. simpl.
  rewrite Hnodes. simpl. rewrite Haddr. simpl. rewrite Hsvcs.
  eexists _, _. split; [done |]. split.
  - intros svc Hin.
    destruct (match_declared_last nodeIP svcs running ∅ svc) as [->|[? _]];
      [|done].
    unfold last_url. rewrite lookup_empty. by destruct (last _).
  - pose proof (match_declared_size nodeIP svcs running ∅) as Hle.
    by rewrite map_size_empty in Hle.
Qed.

(** ** More on the health poller *)

Section Polling.
Variable env : Env.

Lemma ping_entries_sleeps k entries ep w :
  ∃ new, events (ping_entries env k entries ep w).2 = events w ++ new
         ∧ count is_sleep new = count request_failed new.
Proof.
  revert ep w. induction entries as [|[e u] entries IH]; intros ep w; simpl.
  - exists []. by rewrite app_nil_r.
  - unfold bind, call, logf, Sleep, emit, ret. simpl.
    destruct (http_get env (calls w) u) as [r|err]; simpl.
    + destruct (String.eqb (Status r) "200 OK"); simpl.
      * match goal with |- context [ping_entries env k entries ?m ?w1] =>
          destruct (IH m w1) as (new & Hev & Hcount) end.
        eexists. split.
        { rewrite Hev. simpl. rewrite <- !app_assoc. simpl. reflexivity. }
        simpl. done.
      * eexists. split; [done |]. done.
    + match goal with |- context [ping_entries env k entries ?m ?w1] =>
        destruct (IH m w1) as (new & Hev & Hcount) end.
      eexists. split.
      { rewrite Hev. simpl. rewrite <- !app_assoc. simpl. reflexivity. }
      simpl. by rewrite Hcount.
Qed.

(** X8.  [pingEndPoints] sleeps after a request that got no answer and
    at no other time: the sleeps of a call are as many as its failed
    requests.  There is no pause between two passes over the map. *)
Theorem pingEndPoints_sleeps_after_failures fuel k ep w :
  let tr := since w (pingEndPoints env fuel k ep w).2 in
  count is_sleep tr = count request_failed tr.
Proof.
  cut (∃ new, events (pingEndPoints env fuel k ep w).2 = events w ++ new
              ∧ count is_sleep new = count request_failed new).
  { intros (new & Hev & Hcount). simpl. by rewrite (since_app _ _ _ Hev). }
  revert ep w. induction fuel as [|fuel IH]; intros ep w; simpl.
  - exists []. by rewrite app_nil_r.
  - unfold bind, range. simpl.
    match goal with |- context [ping_entries env k ?l ep ?w1] =>
      destruct (ping_entries_sleeps k l ep w1) as (new1 & Hev1 & Hc1);
      destruct (ping_entries env k l ep w1) as [[r ep1] w2] end.
    simpl in *. destruct r as [err|]; simpl.
    + by exists new1.
    + destruct (Nat.eqb (size ep1) 0); simpl; [by exists new1 |].
      destruct (IH ep1 w2) as (new2 & Hev2 & Hc2).
      exists (new1 ++ new2). rewrite Hev2, Hev1, <- app_assoc.
      split; [done |]. rewrite !count_app. lia.
Qed.

Lemma ping_entries_all_ok k entries ep0 w :
  (∀ c e u, (e, u) ∈ entries →
     ∃ r, http_get env c u = inl r ∧ Status r = "200 OK") →
  ∃ ep' w' new,
    ping_entries env k entries ep0 w = (None, ep', w')
    ∧ events w' = events w ++ new
    ∧ ep' ⊆ ep0 ∧ (∀ e, e ∈ entries.*1 → ep' !! e = None)
    ∧ count is_http_get new = length entries
    ∧ count is_sleep new = O.
Proof.
  revert ep0 w. induction entries as [|[e u] entries IH]; intros ep0 w Hok.
  - simpl. eexists _, _, []. split; [done |]. rewrite app_nil_r.
    split; [done |]. split; [done |].
    split; [by intros e ?%elem_of_nil | done].
  - simpl. unfold bind, call, logf, emit. simpl.
    destruct (Hok (calls w) e u) as (r & -> & Hst); [by left |].
    rewrite Hst. simpl.
    match goal with |- context [ping_entries env k entries ?m ?w1] =>
      destruct (IH m w1) as (ep' & w' & new & -> & Hev & Hsub & Hgone & Hc1
                             & Hc2) end.
    { intros c e' u' Hin. apply (Hok c e' u'). by right. }
    simpl in Hev. rewrite <- !app_assoc in Hev. simpl in Hev.
    eexists _, _, _. split; [done |]. split; [exact Hev |].
    split; [etrans; [exact Hsub | apply delete_subseteq] |].
    split.
    + intros e' Hin.
      apply elem_of_cons in Hin as [->|Hin]; [|by apply Hgone].
      simpl. eapply lookup_weaken_None; [|exact Hsub].
      apply lookup_delete_eq.
    + simpl. rewrite Hc1, Hc2. done.
Qed.

Lemma ping_entries_all_fail k entries ep0 w :
  (∀ c e u, (e, u) ∈ entries → ∃ err, http_get env c u = inr err) →
  ∃ w' new,
    ping_entries env k entries ep0 w = (None, ep0, w')
    ∧ events w' = events w ++ new
    ∧ count is_http_get new = length entries.
Proof.
  revert w. induction entries as [|[e u] entries IH]; intros w Hfail.
  - simpl. eexists _, []. split; [done |]. by rewrite app_nil_r.
  - simpl. unfold bind, call, logf, Sleep, emit. simpl.
    destruct (Hfail (calls w) e u) as (err & ->); [by left |]. simpl.
    match goal with |- context [ping_entries env k entries ep0 ?w1] =>
      destruct (IH w1) as (w' & new & -> & Hev & Hc1) end.
    { intros c e' u' Hin. apply (Hfail c e' u'). by right. }
    simpl in Hev. rewrite <- !app_assoc in Hev. simpl in Hev.
    eexists _, _. split; [done |]. split; [exact Hev |].
    simpl. by rewrite Hc1.
Qed.

Hypothesis Hrange : range_ok env.

Lemma range_length {V} (n : nat) (m : gmap string V) :
  length (range_order env V n m) = size m.
Proof. rewrite (Hrange V n m). apply length_map_to_list. Qed.

(** X9.  When every URL of the map answers [200 OK], one pass is
    enough: [pingEndPoints] returns nil after one request per entry,
    without a sleep, and the caller's map is empty. *)
Theorem pingEndPoints_all_healthy fuel k ep w :
  (∀ c e u, ep !! e = Some u →
     ∃ r, http_get env c u = inl r ∧ Status r = "200 OK") →
  ∃ w', pingEndPoints env (S fuel) k ep w = (Some None, ∅, w')
        ∧ count is_http_get (since w w') = size ep
        ∧ count is_sleep (since w w') = O.
Proof.
  intros Hok. simpl. unfold bind, range. simpl.
  match goal with |- context [ping_entries env k ?l ep ?w1] =>
    destruct (ping_entries_all_ok k l ep w1)
      as (ep' & w' & new & -> & Hev & Hsub & Hgone & Hc1 & Hc2) end.
  { intros c e u Hin. apply (Hok c e u).
    by apply (range_lookup env Hrange) in Hin. }
  simpl in Hev. simpl.
  assert (ep' = ∅) as ->.
  { apply map_empty. intros e. destruct (ep !! e) as [u|] eqn:He.
    - apply Hgone. apply (range_keys env Hrange). by rewrite He.
    - by eapply lookup_weaken_None. }
  rewrite map_size_empty. simpl.
  eexists. split; [done |]. rewrite (since_app _ _ _ Hev).
  by rewrite Hc1, range_length.
Qed.

(** X10.  [pingEndPoints] has no timeout of its own either.  While no
    request gets an answer, a call on a map that is not empty keeps
    probing: after any number of passes it has not returned, the map
    is as it was, and every pass has probed every entry once. *)
Theorem pingEndPoints_unreachable_forever fuel k ep w :
  ep ≠ ∅ →
  (∀ c e u, ep !! e = Some u → ∃ err, http_get env c u = inr err) →
  ∃ w', pingEndPoints env fuel k ep w = (None, ep, w')
        ∧ count is_http_get (since w w') = (fuel * size ep)%nat.
Proof.
  intros Hne Hfail.
  cut (∃ w' new, pingEndPoints env fuel k ep w = (None, ep, w')
                 ∧ events w' = events w ++ new
                 ∧ count is_http_get new = (fuel * size ep)%nat).
  { intros (w' & new & Hrun & Hev & Hc). exists w'.
    by rewrite (since_app _ _ _ Hev). }
  revert w. induction fuel as [|fuel IH]; intros w; simpl.
  - eexists _, []. split; [done |]. by rewrite app_nil_r.
  - unfold bind, range. simpl.
    match goal with |- context [ping_entries env k ?l ep ?w1] =>
      destruct (ping_entries_all_fail k l ep w1)
        as (w1' & new1 & -> & Hev1 & Hc1) end.
    { intros c e u Hin. apply (Hfail c e u).
      by apply (range_lookup env Hrange) in Hin. }
    simpl in Hev1. simpl.
    assert (Nat.eqb (size ep) 0 = false) as ->.
    { apply Nat.eqb_neq. by rewrite map_size_empty_iff. }
    destruct (IH w1') as (w' & new2 & -> & Hev2 & Hc2).
    eexists _, (new1 ++ new2). split; [done |].
    split; [by rewrite Hev2, Hev1, <- app_assoc |].
    rewrite count_app, Hc1, Hc2, range_length. lia.
Qed.

End Polling.

(** ** The steps of a test case *)

Lemma bounded_none lo hi ev : stage ev = None → bounded lo hi ev.
Proof. intros H s Hs. congruence. Qed.

Lemma bounded_mono lo hi lo' hi' ev :
  (lo' ≤ lo)%nat → (hi ≤ hi')%nat → bounded lo hi ev → bounded lo' hi' ev.
Proof. intros ? ? H s Hs. specialize (H s Hs). lia. Qed.

Lemma in_order_bounded hi lo hi' ev1 ev2 :
  (hi < lo)%nat → bounded 0 hi ev1 → bounded lo hi' ev2 → in_order ev1 ev2.
Proof.
  intros Hlt H1 H2 s1 s2 Hs1 Hs2. left.
  specialize (H1 _ Hs1). specialize (H2 _ Hs2). lia.
Qed.

Lemma sorted_polling s tr :
  polls s = true → Forall (bounded s s) tr → StronglySorted in_order tr.
Proof.
  intros Hp. induction 1 as [|ev tr Hev Htr IH]; constructor; [done |].
  eapply Forall_impl; [exact Htr |]. intros ev' Hev' s1 s2 Hs1 Hs2.
  specialize (Hev _ Hs1). specialize (Hev' _ Hs2).
  right. split; [lia |]. by replace s1 with s by lia.
Qed.

Lemma soft_none ev : stage ev = None → soft ev.
Proof. by destruct ev. Qed.

Lemma feeds_other prev ev : stage ev ≠ Some 3%nat → feeds prev ev.
Proof. by destruct ev. Qed.

Lemma no_kubectl lo hi tr :
  (3 < lo ∨ hi < 3)%nat → Forall (bounded lo hi) tr →
  Forall (λ ev, stage ev ≠ Some 3%nat) tr.
Proof.
  intros Hlo Hb. eapply Forall_impl; [exact Hb |].
  intros ev Hev Hs. specialize (Hev _ Hs). lia.
Qed.

Lemma piped_quiet tr : Forall (λ ev, stage ev ≠ Some 3%nat) tr → piped tr.
Proof.
  intros Hall before ev after ->. apply feeds_other.
  rewrite Forall_app, Forall_cons in Hall. by destruct Hall as (_ & ? & _).
Qed.

Lemma piped_app tr1 tr2 :
  piped tr1 → piped tr2 →
  (∀ ev, head tr2 = Some ev → feeds (last tr1) ev) →
  piped (tr1 ++ tr2).
Proof.
  intros H1 H2 Hhead before ev after Heq.
  apply app_eq_inv in Heq as [(k & -> & Hk)|(k & -> & ->)].
  - destruct k as [|ev' k]; simpl in Hk.
    + subst tr2. rewrite app_nil_r in Hhead. by apply Hhead.
    + injection Hk as <- _. by apply (H1 before ev k).
  - destruct k as [|ev' k] using rev_ind.
    + rewrite app_nil_r. by apply Hhead.
    + rewrite app_assoc, last_snoc.
      specialize (H2 (k ++ [ev']) ev after eq_refl).
      by rewrite last_snoc in H2.
Qed.

Lemma piped_snoc tr ev : piped tr → feeds (last tr) ev → piped (tr ++ [ev]).
Proof.
  intros Hp Hf before ev' after Heq.
  destruct after as [|y after _] using rev_ind.
  - by apply app_inj_tail in Heq as [-> ->].
  - rewrite app_comm_cons, app_assoc in Heq.
    apply app_inj_tail in Heq as [-> _]. by apply (Hp before ev' after).
Qed.

Lemma traced_nil env test hi : traced env test hi [].
Proof.
  split_and!; try by constructor.
  intros before ev after Heq. by destruct before.
Qed.

Lemma traced_app env test hi hi' tr new :
  traced env test hi tr → (hi ≤ hi')%nat →
  Forall (about env test) new → Forall calm new →
  Forall (bounded (S hi) hi') new → StronglySorted in_order new →
  piped new → (∀ ev, head new = Some ev → feeds (last tr) ev) →
  traced env test hi' (tr ++ new).
Proof.
  intros (Ha & Hc & Hb & Hs & Hp) Hle Ha' Hc' Hb' Hs' Hp' Hhead.
  split_and!.
  - by apply Forall_app.
  - by apply Forall_app.
  - apply Forall_app. split.
    + eapply Forall_impl; [exact Hb |]. intros ev. by apply bounded_mono.
    + eapply Forall_impl; [exact Hb' |]. intros ev. apply bounded_mono; lia.
  - apply StronglySorted_app_2; [|done..].
    intros ev1 ev2 H1 H2. apply (in_order_bounded hi (S hi) hi'); [lia | |].
    + by eapply Forall_forall in Hb.
    + by eapply Forall_forall in Hb'.
  - by apply piped_app.
Qed.

Lemma traced_snoc env test hi hi' tr ev :
  traced env test hi tr → (hi ≤ hi')%nat →
  about env test ev → calm ev → bounded (S hi) hi' ev →
  feeds (last tr) ev →
  traced env test hi' (tr ++ [ev]).
Proof.
  intros (Ha & Hc & Hb & Hs & Hp) Hle Ha' Hc' Hb' Hf.
  split_and!.
  - apply Forall_app. split; [done | by constructor].
  - apply Forall_app. split; [done | by constructor].
  - apply Forall_app. split.
    + eapply Forall_impl; [exact Hb |]. intros ev'. by apply bounded_mono.
    + constructor; [|done]. revert Hb'. apply bounded_mono; lia.
  - apply StronglySorted_app_2; [|done |repeat constructor].
    intros ev1 ev2 H1 ->%list_elem_of_singleton.
    apply (in_order_bounded hi (S hi) hi'); [lia | | done].
    by eapply Forall_forall in Hb.
  - by apply piped_snoc.
Qed.

Lemma traced_quiet env test hi lo hi' tr new :
  traced env test hi tr → (hi < lo)%nat → (hi ≤ hi')%nat →
  (3 < lo ∨ hi' < 3)%nat →
  Forall (about env test) new → Forall calm new →
  Forall (bounded lo hi') new → StronglySorted in_order new →
  traced env test hi' (tr ++ new).
Proof.
  intros Ht Hlt Hle Hno Ha Hc Hb Hs.
  pose proof (no_kubectl lo hi' new Hno Hb) as Hq.
  apply (traced_app env test hi); try done.
  - eapply Forall_impl; [exact Hb |]. intros ev. apply bounded_mono; lia.
  - by apply piped_quiet.
  - intros ev Hev. apply feeds_other.
    destruct new as [|ev' new]; [done |]. injection Hev as ->.
    by apply Forall_cons in Hq as [? _].
Qed.

Lemma traced_line env test hi tr ev :
  traced env test hi tr → stage ev = None → about env test ev → calm ev →
  traced env test hi (tr ++ [ev]).
Proof.
  intros Ht Hs Ha Hc.
  apply (traced_quiet env test hi (S hi) hi); try done; try lia.
  - by constructor.
  - by constructor.
  - constructor; [by apply bounded_none | done].
  - repeat constructor.
Qed.

Lemma traced_mono env test hi hi' tr :
  (hi ≤ hi')%nat → traced env test hi tr → traced env test hi' tr.
Proof.
  intros Hle Ht. rewrite <- (app_nil_r tr).
  apply (traced_app env test hi hi'); try done; try constructor.
  intros before ev after Heq. by destruct before.
Qed.

Lemma ends_hard_one ev : hard_failure ev = true → ends_hard [ev].
Proof. intros Hev. by exists [], ev. Qed.

Lemma ends_hard_app tr new :
  Forall soft tr → ends_hard new → ends_hard (tr ++ new).
Proof.
  intros Hs (before & ev & -> & Hb & Hev). exists (tr ++ before), ev.
  rewrite app_assoc. split; [done |]. split; [by apply Forall_app | done].
Qed.

Lemma ends_hard_last tr before ev after :
  ends_hard tr → tr = before ++ ev :: after → hard_failure ev = true →
  after = [] ∧ Forall soft before.
Proof.
  intros (b & x & -> & Hb & Hx) Heq Hev.
  destruct after as [|y after _] using rev_ind.
  - by apply app_inj_tail in Heq as [-> _].
  - rewrite app_comm_cons, app_assoc in Heq.
    apply app_inj_tail in Heq as [-> _].
    apply Forall_app in Hb as [_ Hb]. apply Forall_cons in Hb as [Hb _].
    unfold soft in Hb. congruence.
Qed.

Lemma soft_not_hard tr : Forall soft tr → ends_hard tr → False.
Proof.
  intros Hs (b & x & -> & _ & Hx).
  apply Forall_app in Hs as [_ Hs]. apply Forall_cons in Hs as [Hs _].
  unfold soft in Hs. congruence.
Qed.

Section Steps.
Variable env : Env.
Variable test : testData.

Lemma step_emit lo hi ev :
  stage ev = None → about env test ev → calm ev →
  step env test lo hi (λ _, false) (emit ev).
Proof.
  intros Hs Ha Hc w. exists [ev]. simpl.
  split_and!; try by constructor.
  - constructor; [by apply bounded_none | done].
  - repeat constructor.
  - constructor; [by apply soft_none | done].
Qed.

Lemma step_logf lo hi k lvl format args :
  lvl ≠ Error →
  step env test lo hi (λ _, false) (logf k lvl format args).
Proof.
  intros Hl. apply step_emit; [done | done |]. by destruct k, lvl.
Qed.

Lemma step_call {A} lo hi (failed : A → bool) (oracle : nat → A)
    (ev : A → event) :
  (∀ r, about env test (ev r) ∧ calm (ev r) ∧ bounded lo hi (ev r)
        ∧ hard_failure (ev r) = failed r) →
  step env test lo hi failed (call oracle ev).
Proof.
  intros Hev w. exists [ev (oracle (calls w))]. simpl.
  destruct (Hev (oracle (calls w))) as (Ha & Hc & Hb & Hf).
  split_and!; try by constructor.
  - repeat constructor.
  - destruct (failed _); [by apply ends_hard_one | by constructor].
Qed.

Lemma step_createNS :
  step env test 1 1 (λ r, if r is Some _ then true else false)
    (createNS env (Namespace test)).
Proof.
  apply step_call. intros r. split_and!; try done.
  intros s [= <-]. lia.
Qed.

Lemma step_Delete :
  step env test 8 8 (λ r, if r is Some _ then true else false)
    (Namespaces_Delete env (Namespace test)).
Proof.
  apply step_call. intros r. split_and!; try done.
  intros s [= <-]. lia.
Qed.

Local Ltac event_case :=
  split_and!; try done; try (by intros s [=]); try (intros s [= <-]; lia).

Lemma watcher_event_case k ev :
  watcher_event k (Namespace test) ev = true →
  about env test ev ∧ calm ev ∧ bounded 4 4 ev.
Proof.
  destruct ev as [lvl| |n| | |ns| | | | | |]; simpl; try done.
  - destruct k, lvl; try done; intros _; event_case.
  - destruct n as [|[|n]]; try done; intros _; event_case.
  - intros ->%String.eqb_eq. event_case.
Qed.

Lemma resolver_event_case k ev :
  resolver_event k (Namespace test) ev = true →
  about env test ev ∧ calm ev ∧ bounded 5 6 ev.
Proof.
  destruct ev as [lvl| | | | | | |ns| | | |]; simpl; try done.
  - destruct k, lvl; try done; intros _; event_case.
  - try done; intros _; event_case.
  - intros ->%String.eqb_eq. event_case.
Qed.

Lemma prober_event_case k ev :
  prober_event k ev = true →
  about env test ev ∧ calm ev ∧ bounded 7 7 ev.
Proof.
  destruct ev as [lvl| |n| | | | | |u t| | |]; simpl; try done.
  - destruct k, lvl; try done; intros _; event_case.
  - destruct n as [|[|n]]; try done; intros _; event_case.
  - do 6 (destruct t as [|t]; try done); intros _; event_case.
Qed.

(** A step from its footprint and from how it ends. *)
Lemma step_from {A} lo hi (P : event → Prop) (failed : A → bool) (m : M A) :
  emits P m →
  (∀ ev, P ev → about env test ev ∧ calm ev ∧ bounded lo hi ev) →
  (∀ tr, Forall (bounded lo hi) tr → StronglySorted in_order tr) →
  (∀ w, ∃ new, events (m w).2 = events w ++ new
               ∧ if failed (m w).1 then ends_hard new else Forall soft new) →
  step env test lo hi failed m.
Proof.
  intros Hm HP Hsorted Hend w.
  destruct (Hm w) as (new & Hev & Hnew).
  destruct (Hend w) as (new' & Hev' & Hend').
  assert (new' = new) as -> by (rewrite Hev in Hev'; by apply app_inv_head in Hev').
  exists new. split; [done |].
  assert (Forall (bounded lo hi) new) as Hb
    by (eapply Forall_impl; [exact Hnew |]; intros ev ?; by apply HP).
  split_and!; try done.
  - eapply Forall_impl; [exact Hnew |]. intros ev ?. by apply HP.
  - eapply Forall_impl; [exact Hnew |]. intros ev ?. by apply HP.
  - by apply Hsorted.
Qed.

Lemma PodsStarted_loop_hard fuel k namespace podUp w :
  ∃ new,
    events (PodsStarted_loop env fuel k namespace podUp w).2 = events w ++ new
    ∧ if (PodsStarted_loop env fuel k namespace podUp w).1.1 is Some (Some _)
      then ends_hard new else Forall soft new.
Proof.
  revert podUp w. induction fuel as [|fuel IH]; intros podUp w.
  - exists []. simpl. by rewrite app_nil_r.
  - destruct (list_pods env (calls w) namespace) as [items|cause] eqn:Hlist.
    + destruct (PodsStarted_loop_listed env fuel k namespace podUp w items
                  Hlist)
        as (line & logs & w2 & podUp1 & _ & Hev & Hline & Hlogs & _ & ->).
      assert (Forall soft (line :: EvListPods namespace (inl items) :: logs))
        as Hsoft.
      { constructor; [by destruct line |]. constructor; [done |].
        eapply Forall_impl; [exact Hlogs |]. by intros []. }
      destruct (Nat.eqb (size podUp1) 0).
      * eexists. by split; [exact Hev |].
      * destruct (IH podUp1 (advance w2 0 [EvSleep 1]))
          as (new & Hev' & Hend).
        exists ((line :: EvListPods namespace (inl items) :: logs)
                  ++ EvSleep 1 :: new).
        split.
        { rewrite Hev'. simpl. rewrite Hev, <- !app_assoc. done. }
        destruct (PodsStarted_loop env fuel k namespace podUp1 _)
          as [[[[err|]|] ?] ?]; simpl in *.
        -- apply (ends_hard_app
                    (line :: EvListPods namespace (inl items) :: logs)
                    (EvSleep 1 :: new)); [done |].
           apply (ends_hard_app [EvSleep 1] new); [by constructor | done].
        -- apply (Forall_app _
                    (line :: EvListPods namespace (inl items) :: logs)
                    (EvSleep 1 :: new)).
           split; [done |]. by constructor.
        -- apply (Forall_app _
                    (line :: EvListPods namespace (inl items) :: logs)
                    (EvSleep 1 :: new)).
           split; [done |]. by constructor.
    + destruct (PodsStarted_loop_list_failed env fuel k namespace podUp w cause
                  Hlist) as (line & w2 & Hev & Hline & ->).
      eexists. split; [exact Hev |]. simpl.
      exists [line], (EvListPods namespace (inr cause)).
      split; [done |]. split; [|done]. constructor; [by destruct line | done].
Qed.

Lemma step_PodsStarted fuel k podNames :
  step env test 4 4 (λ r, if r is Some (Some _) then true else false)
    (PodsStarted env fuel k (Namespace test) podNames).
Proof.
  apply (step_from 4 4 (λ ev, watcher_event k (Namespace test) ev = true)).
  - apply PodsStarted_footprint.
  - apply watcher_event_case.
  - intros tr. by apply (sorted_polling 4).
  - intros w. unfold PodsStarted, bind, ret.
    destruct (PodsStarted_loop_hard fuel k (Namespace test)
                (make_podUp podNames) w) as (new & Hev & Hend).
    destruct (PodsStarted_loop env fuel k (Namespace test) _ w)
      as [[r podUp'] w'].
    exists new. simpl in *. split; [done |]. by destruct r as [[?|]|].
Qed.

Local Ltac sorted_small :=
  repeat constructor; simplify_eq/=; try lia.

Lemma getEndPoints_hard k namespace svcs w :
  ∃ new,
    events (getEndPoints env k namespace svcs w).2 = events w ++ new
    ∧ StronglySorted in_order new
    ∧ if (getEndPoints env k namespace svcs w).1 is Ok _
      then Forall soft new else ends_hard new.
Proof.
  unfold getEndPoints, bind, call, logf, emit, ret. simpl.
  destruct (list_nodes env (calls w)) as [items|err] eqn:Hnodes; simpl.
  - destruct (first_address items) as [nodeIP|p] eqn:Haddr; simpl.
    + assert (soft (EvListNodes (inl items))) as Hsoft
        by (unfold soft; simpl; by rewrite Haddr).
      destruct (list_services env (S (calls w)) namespace)
        as [running|err] eqn:Hsvcs; simpl.
      * eexists. rewrite <- !app_assoc. simpl. split; [done |]. split.
        -- sorted_small.
        -- by repeat constructor.
      * eexists. rewrite <- !app_assoc. simpl. split; [done |]. split.
        -- sorted_small.
        -- eexists [_; _], _. split; [done |]. split; [|done].
           by repeat constructor.
    + eexists. split; [done |]. split; [repeat constructor |].
      apply ends_hard_one. simpl. by rewrite Haddr.
  - eexists. split; [done |]. split; [repeat constructor |].
    by apply ends_hard_one.
Qed.

Lemma step_getEndPoints k svcs :
  step env test 5 6 (λ r, if r is Ok _ then false else true)
    (getEndPoints env k (Namespace test) svcs).
Proof.
  intros w.
  destruct (getEndPoints_footprint env k (Namespace test) svcs w)
    as (new & Hev & Hnew).
  destruct (getEndPoints_hard k (Namespace test) svcs w)
    as (new' & Hev' & Hsorted & Hend).
  assert (new' = new) as ->
    by (rewrite Hev in Hev'; by apply app_inv_head in Hev').
  exists new. split; [done |].
  split_and!; try done.
  - eapply Forall_impl; [exact Hnew |]. intros ev Hx.
    by destruct (resolver_event_case k ev Hx) as (? & ? & ?).
  - eapply Forall_impl; [exact Hnew |]. intros ev Hx.
    by destruct (resolver_event_case k ev Hx) as (? & ? & ?).
  - eapply Forall_impl; [exact Hnew |]. intros ev Hx.
    by destruct (resolver_event_case k ev Hx) as (? & ? & ?).
  - by destruct (getEndPoints env k (Namespace test) svcs w).1.
Qed.

Lemma ping_entries_hard k entries ep w :
  ∃ new,
    events (ping_entries env k entries ep w).2 = events w ++ new
    ∧ if (ping_entries env k entries ep w).1.1 is Some _
      then ends_hard new else Forall soft new.
Proof.
  revert ep w. induction entries as [|[e u] entries IH]; intros ep w; simpl.
  - exists []. by rewrite app_nil_r.
  - unfold bind, call, logf, Sleep, emit, ret. simpl.
    destruct (http_get env (calls w) u) as [r|err]; simpl.
    + destruct (String.eqb (Status r) "200 OK") eqn:Hst; simpl.
      * match goal with |- context [ping_entries env k entries ?m ?w1] =>
          destruct (IH m w1) as (new & Hev & Hend);
          destruct (ping_entries env k entries m w1) as [[r' ep'] w'] end.
        simpl in *. eexists. split.
        { rewrite Hev, <- !app_assoc. simpl. reflexivity. }
        assert (Forall soft
                  [EvHttpGet u 5 (inl r);
                   EvLog match k with Logrus => Debug | Testing => TLog end
                     "%q is running!" [AStr e]]) as Hsoft.
        { constructor; [unfold soft; simpl; by rewrite Hst |].
          by constructor. }
        destruct r' as [err|].
        -- by apply (ends_hard_app [_; _]).
        -- by apply (Forall_app _ [_; _]).
      * eexists. split; [done |]. apply ends_hard_one. simpl. by rewrite Hst.
    + match goal with |- context [ping_entries env k entries ?m ?w1] =>
        destruct (IH m w1) as (new & Hev & Hend);
        destruct (ping_entries env k entries m w1) as [[r' ep'] w'] end.
      simpl in *. eexists. split.
      { rewrite Hev, <- !app_assoc. simpl. reflexivity. }
      assert (Forall soft
                [EvHttpGet u 5 (inr err);
                 EvLog match k with Logrus => Debug | Testing => TLog end
                   "error while making http request %q for service %q, err: %v"
                   [AStr u; AStr e; AErr err];
                 EvSleep 1]) as Hsoft by (by repeat constructor).
      destruct r' as [err'|].
      * by apply (ends_hard_app [_; _; _]).
      * by apply (Forall_app _ [_; _; _]).
Qed.

Lemma pingEndPoints_hard fuel k ep w :
  ∃ new,
    events (pingEndPoints env fuel k ep w).2 = events w ++ new
    ∧ if (pingEndPoints env fuel k ep w).1.1 is Some (Some _)
      then ends_hard new else Forall soft new.
Proof.
  revert ep w. induction fuel as [|fuel IH]; intros ep w; simpl.
  - exists []. by rewrite app_nil_r.
  - unfold bind, range. simpl.
    match goal with |- context [ping_entries env k ?l ep ?w1] =>
      destruct (ping_entries_hard k l ep w1) as (new1 & Hev1 & Hend1);
      destruct (ping_entries env k l ep w1) as [[r ep1] w2] end.
    simpl in *. destruct r as [err|]; simpl; [by exists new1 |].
    destruct (Nat.eqb (size ep1) 0); simpl; [by exists new1 |].
    destruct (IH ep1 w2) as (new2 & Hev2 & Hend2).
    exists (new1 ++ new2). split; [by rewrite Hev2, Hev1, <- app_assoc |].
    destruct (pingEndPoints env fuel k ep1 w2) as [[[[err|]|] ?] ?];
      simpl in *.
    + by apply ends_hard_app.
    + by apply Forall_app.
    + by apply Forall_app.
Qed.

Lemma step_pingEndPoints fuel k ep :
  step env test 7 7 (λ r, if r.1 is Some (Some _) then true else false)
    (pingEndPoints env fuel k ep).
Proof.
  apply (step_from 7 7 (λ ev, prober_event k ev = true)).
  - apply pingEndPoints_prober.
  - apply prober_event_case.
  - intros tr. by apply (sorted_polling 7).
  - intros w. destruct (pingEndPoints_hard fuel k ep w) as (new & Hev & Hend).
    exists new. split; [done |].
    by destruct (pingEndPoints env fuel k ep w) as [[[[?|]|] ?] ?].
Qed.

(** *** Along a test case *)

Lemma reached_step {A} hi lo hi' pre w0 (failed : A → bool) (m : M A)
    w a w1 :
  reached env test hi pre w0 w → step env test lo hi' failed m →
  (hi < lo)%nat → (hi ≤ hi')%nat → (3 < lo ∨ hi' < 3)%nat →
  m w = (a, w1) →
  if failed a then stopped env test hi' pre w0 w1
  else reached env test hi' pre w0 w1.
Proof.
  intros (rest & Hev & Ht & Hs) Hstep Hlt Hle Hno Hrun.
  destruct (Hstep w) as (new & Hev' & Ha & Hc & Hb & Hsorted & Hend).
  rewrite Hrun in Hev', Hend. simpl in Hev', Hend.
  assert (events w1 = events w0 ++ pre ++ rest ++ new) as Hev1
    by (by rewrite Hev', Hev, <- !app_assoc).
  assert (traced env test hi' (pre ++ rest ++ new)) as Ht1.
  { rewrite app_assoc. by apply (traced_quiet env test hi lo hi'). }
  destruct (failed a); exists (rest ++ new);
    (split; [done |]); (split; [done |]); rewrite app_assoc.
  - by apply ends_hard_app.
  - by apply Forall_app.
Qed.

Lemma reached_line hi pre w0 w ev :
  reached env test hi pre w0 w →
  stage ev = None → about env test ev → calm ev →
  reached env test hi pre w0 (emit ev w).2.
Proof.
  intros Hr Hs Ha Hc.
  apply (reached_step hi (S hi) hi pre w0 (λ _, false) (emit ev) w tt);
    try done; try lia.
  by apply step_emit.
Qed.

Lemma reached_generated pre w0 w converted w1 :
  reached env test 1 pre w0 w →
  RunKapp env (InputFiles test) w = (converted, w1) →
  match converted with
  | inl output => generated env test pre w0 w1 output
  | inr _ => stopped env test 2 pre w0 w1
  end.
Proof.
  intros (rest & Hev & Ht & Hs). unfold RunKapp, bind, call. simpl.
  set (r := run_kapp env (calls w) (KappLoc env)
              (kapp_args env (InputFiles test))).
  assert (traced env test 2
            (pre ++ rest
             ++ [EvKapp (KappLoc env) (kapp_args env (InputFiles test)) r]))
    as Ht1.
  { rewrite app_assoc. apply (traced_quiet env test 1 2 2); try done; try lia.
    - by constructor.
    - by constructor.
    - constructor; [|done]. intros s [= <-]. lia.
    - repeat constructor. }
  destruct (run_err r) as [err|] eqn:Herr; intros [= <- <-]; simpl.
  - exists (rest ++ [EvKapp (KappLoc env) (kapp_args env (InputFiles test)) r]).
    split; [by rewrite Hev, <- !app_assoc |]. split; [done |].
    rewrite app_assoc.
    apply ends_hard_app; [done |]. apply ends_hard_one. simpl.
    fold r. by rewrite Herr.
  - exists rest, r. split; [by rewrite Hev, <- !app_assoc |].
    split; [done |]. split; [done |]. split; [done |].
    rewrite app_assoc. apply Forall_app. split; [done |].
    constructor; [|done]. unfold soft. simpl. fold r. by rewrite Herr.
Qed.

Lemma traced_deploy pre rest r ev :
  traced env test 2
    (pre ++ rest
     ++ [EvKapp (KappLoc env) (kapp_args env (InputFiles test)) r]) →
  run_err r = None →
  stage ev = Some 3%nat → about env test ev →
  feeds (Some (EvKapp (KappLoc env) (kapp_args env (InputFiles test)) r)) ev →
  traced env test 3
    (pre ++ (rest
             ++ [EvKapp (KappLoc env) (kapp_args env (InputFiles test)) r])
         ++ [ev]).
Proof.
  intros Ht Herr Hs Ha Hf. rewrite app_assoc.
  apply (traced_snoc env test 2 3); try done; try lia.
  - by destruct ev.
  - intros s Hs'. rewrite Hs in Hs'. injection Hs' as <-. lia.
  - by rewrite !app_assoc, last_snoc.
Qed.

Lemma reached_deployed pre w0 w output applied w1 :
  generated env test pre w0 w output →
  RunKubeCreate env output (Namespace test) w = (applied, w1) →
  if applied is Some _ then stopped env test 3 pre w0 w1
  else reached env test 3 pre w0 w1.
Proof.
  intros (rest & r & Hev & Herr & -> & Ht & Hs).
  unfold RunKubeCreate, bind, call. simpl.
  set (ku := run_kubectl env (calls w) (KubectlLoc env)
               (kubectl_args (Namespace test)) (run_stdout r)).
  set (ev := EvKubectl (KubectlLoc env) (kubectl_args (Namespace test))
               (run_stdout r) ku).
  pose proof (traced_deploy pre rest r ev Ht Herr eq_refl
                (conj eq_refl eq_refl) (conj Herr eq_refl)) as Ht1.
  assert (∀ w2, events w2 = events w ++ [ev] →
            hard_failure ev = true → stopped env test 3 pre w0 w2) as Hstop.
  { intros w2 Hev2 Hhard. eexists. split; [|split; [exact Ht1 |]].
    - by rewrite Hev2, Hev, <- !app_assoc.
    - rewrite app_assoc.
      apply ends_hard_app; [done | by apply ends_hard_one]. }
  destruct ku eqn:Hku; intros [= <- <-];
    try (apply Hstop; [done | done]).
  match goal with
  | |- reached _ _ _ _ _
         {| events := ?e ++ [?line]; calls := ?c; ranges := ?g |} =>
      apply (reached_line 3 pre w0
               {| events := e; calls := c; ranges := g |} line)
  end; [|done..].
  eexists. split; [|split; [exact Ht1 |]].
  - simpl. by rewrite Hev, <- !app_assoc.
  - rewrite app_assoc. apply Forall_app. split; [done |].
    constructor; [|done]. done.
Qed.

Lemma reached_deployed_combined k pre w0 w output applied w1 :
  generated env test pre w0 w output →
  RunKubeCreate_combined env k output (Namespace test) w = (applied, w1) →
  if applied is Some _ then stopped env test 3 pre w0 w1
  else reached env test 3 pre w0 w1.
Proof.
  intros (rest & r & Hev & Herr & -> & Ht & Hs).
  unfold RunKubeCreate_combined, bind, call. simpl.
  set (ku := run_kubectl_combined env (calls w) (KubectlLoc env)
               (kubectl_args (Namespace test)) (run_stdout r)).
  set (ev := EvKubectlCombined (KubectlLoc env)
               (kubectl_args (Namespace test)) (run_stdout r) ku).
  pose proof (traced_deploy pre rest r ev Ht Herr eq_refl
                (conj eq_refl eq_refl) (conj Herr eq_refl)) as Ht1.
  assert (∀ w2, events w2 = events w ++ [ev] →
            hard_failure ev = true → stopped env test 3 pre w0 w2) as Hstop.
  { intros w2 Hev2 Hhard. eexists. split; [|split; [exact Ht1 |]].
    - by rewrite Hev2, Hev, <- !app_assoc.
    - rewrite app_assoc.
      apply ends_hard_app; [done | by apply ends_hard_one]. }
  destruct ku eqn:Hku; intros [= <- <-];
    try (apply Hstop; [done | done]).
  match goal with
  | |- reached _ _ _ _ _
         {| events := ?e ++ [?line]; calls := ?c; ranges := ?g |} =>
      apply (reached_line 3 pre w0
               {| events := e; calls := c; ranges := g |} line)
  end; [| done | done | by destruct k].
  eexists. split; [|split; [exact Ht1 |]].
  - simpl. by rewrite Hev, <- !app_assoc.
  - rewrite app_assoc. apply Forall_app. split; [done |].
    constructor; [|done]. done.
Qed.

End Steps.

(** ** The orchestrators *)

Section Cases.
Variable env : Env.
Variable test : testData.

Lemma traced_created (l : event) c :
  stage l = None → about env test l → calm l →
  traced env test 1 [l; EvCreateNS (Namespace test) c].
Proof.
  intros Hs Ha Hc.
  apply (traced_snoc env test 0 1 [l]); try done; try lia.
  - apply (traced_line env test 0 []); [apply traced_nil | done..].
  - intros s [= <-]. lia.
Qed.

Lemma traced_created_first c :
  traced env test 1 [EvCreateNS (Namespace test) c].
Proof.
  apply (traced_snoc env test 0 1 []); try done; try lia.
  - apply traced_nil.
  - intros s [= <-]. lia.
Qed.

(** One turn of the loop of the sequential [RunTests]. *)
Lemma RunTests_iteration fuel tests' w r w' :
  RunTests_loop env fuel (test :: tests') w = (r, w') →
  ∃ seg,
    started test seg ∧ traced env test 8 seg
    ∧ ((events w' = events w ++ seg
        ∧ match r with
          | Some (Ok _) => False
          | Some _ => ends_hard seg
          | None => Forall soft seg
          end)
       ∨ (∃ w1, events w1 = events w ++ seg ∧ Forall soft seg
                ∧ completed test seg
                ∧ RunTests_loop env fuel tests' w1 = (r, w'))).
Proof.
  intros Hrun. simpl in Hrun.
  apply bind_inv in Hrun as ([] & w1 & H1 & Hrun).
  unfold emit in H1. injection H1 as <-.
  apply bind_inv in Hrun as (created & w2 & H2 & Hrun).
  unfold createNS, call in H2. simpl in H2. injection H2 as <- <-.
  fold (running_line test) in Hrun.
  set (c := create_ns env (calls w) (Namespace test)) in *.
  set (pre := [running_line test; EvCreateNS (Namespace test) c]).
  assert (traced env test 1 pre) as Hpre by (by apply traced_created).
  assert (∀ hi w', stopped env test hi pre w w' → (hi ≤ 8)%nat →
            ∃ seg, started test seg ∧ traced env test 8 seg
                   ∧ events w' = events w ++ seg ∧ ends_hard seg) as Hstop.
  { intros hi w0 (rest & Hev & Ht & Hend) Hle. exists (pre ++ rest).
    split; [by exists c, rest |]. split; [by apply (traced_mono _ _ hi) |].
    done. }
  assert (∀ hi w', reached env test hi pre w w' → (hi ≤ 8)%nat →
            ∃ seg, started test seg ∧ traced env test 8 seg
                   ∧ events w' = events w ++ seg ∧ Forall soft seg) as Hrun'.
  { intros hi w0 (rest & Hev & Ht & Hend) Hle. exists (pre ++ rest).
    split; [by exists c, rest |]. split; [by apply (traced_mono _ _ hi) |].
    done. }
  destruct c as [err|] eqn:Hc.
  { injection Hrun as <- <-.
    destruct (Hstop 1%nat
                {| events := (events w ++ [running_line test])
                             ++ [EvCreateNS (Namespace test) (Some err)];
                   calls := S (calls w); ranges := ranges w |})
      as (seg & ? & ? & ? & ?); [|lia |].
    - exists []. rewrite app_nil_r. split; [by rewrite <- app_assoc |].
      split; [done |].
      exists [running_line test], (EvCreateNS (Namespace test) (Some err)).
      split; [done |]. split; [by repeat constructor | done].
    - exists seg. split; [done |]. split; [done |]. by left. }
  match type of Hrun with bind _ _ ?w2 = _ =>
    assert (reached env test 1 pre w w2) as R2 end.
  { exists []. rewrite app_nil_r. split; [by rewrite <- app_assoc |].
    split; [done |]. by repeat constructor. }
  apply bind_inv in Hrun as ([] & w3 & H3 & Hrun).
  unfold logf, emit in H3. injection H3 as <-.
  apply (reached_line env test _ _ _ _
           (EvLog Debug "namespace %q created" [AStr (Namespace test)]))
    in R2; [|done..].
  apply bind_inv in Hrun as (converted & w4 & H4 & Hrun).
  pose proof (reached_generated env test _ _ _ _ _ R2 H4) as R4.
  destruct converted as [output|err].
  2:{ injection Hrun as <- <-.
      destruct (Hstop _ _ R4) as (seg & ? & ? & ? & ?); [lia |].
      exists seg. split; [done |]. split; [done |]. by left. }
  apply bind_inv in Hrun as (applied & w5 & H5 & Hrun).
  pose proof (reached_deployed env test _ _ _ _ _ _ R4 H5) as R5.
  destruct applied as [err|].
  { injection Hrun as <- <-.
    destruct (Hstop _ _ R5) as (seg & ? & ? & ? & ?); [lia |].
    exists seg. split; [done |]. split; [done |]. by left. }
  apply bind_inv in Hrun as (started' & w6 & H6 & Hrun).
  pose proof (reached_step env test 3 4 4 pre w _ _ _ _ _ R5
                (step_PodsStarted env test fuel Logrus (PodStarted test))
                ltac:(lia) ltac:(lia) ltac:(lia) H6) as R6.
  simpl in R6. destruct started' as [[err|]|].
  { injection Hrun as <- <-.
    destruct (Hstop _ _ R6) as (seg & ? & ? & ? & ?); [lia |].
    exists seg. split; [done |]. split; [done |]. by left. }
  2:{ injection Hrun as <- <-.
      destruct (Hrun' _ _ R6) as (seg & ? & ? & ? & ?); [lia |].
      exists seg. split; [done |]. split; [done |]. by left. }
  apply bind_inv in Hrun as (endPoints & w7 & H7 & Hrun).
  pose proof (reached_step env test 4 5 6 pre w _ _ _ _ _ R6
                (step_getEndPoints env test Logrus (NodePortServices test))
                ltac:(lia) ltac:(lia) ltac:(lia) H7) as R7.
  simpl in R7. destruct endPoints as [ep|err|p].
  2,3: injection Hrun as <- <-;
       destruct (Hstop _ _ R7) as (seg & ? & ? & ? & ?); [lia |];
       exists seg; (split; [done |]); (split; [done |]); by left.
  apply bind_inv in Hrun as ([pinged ep'] & w8 & H8 & Hrun).
  pose proof (reached_step env test 6 7 7 pre w _ _ _ _ _ R7
                (step_pingEndPoints env test fuel Logrus ep)
                ltac:(lia) ltac:(lia) ltac:(lia) H8) as R8.
  simpl in R8, Hrun. destruct pinged as [[err|]|].
  { injection Hrun as <- <-.
    destruct (Hstop _ _ R8) as (seg & ? & ? & ? & ?); [lia |].
    exists seg. split; [done |]. split; [done |]. by left. }
  2:{ injection Hrun as <- <-.
      destruct (Hrun' _ _ R8) as (seg & ? & ? & ? & ?); [lia |].
      exists seg. split; [done |]. split; [done |]. by left. }
  apply bind_inv in Hrun as ([] & w9 & H9 & Hrun).
  unfold emit in H9. injection H9 as <-.
  apply (reached_line env test _ _ _ _
           (EvLogln Info [AStr "Successfully pinged all endpoints!"]))
    in R8; [|done..].
  apply bind_inv in Hrun as (deleted & w10 & H10 & Hrun).
  pose proof (reached_step env test 7 8 8 pre w _ _ _ _ _ R8
                (step_Delete env test)
                ltac:(lia) ltac:(lia) ltac:(lia) H10) as R10.
  simpl in R10.
  unfold Namespaces_Delete, call in H10. injection H10 as <- <-.
  destruct (delete_ns env _ (Namespace test)) as [err|] eqn:Hdel.
  { injection Hrun as <- <-.
    destruct (Hstop _ _ R10) as (seg & ? & ? & ? & ?); [lia |].
    exists seg. split; [done |]. split; [done |]. by left. }
  apply bind_inv in Hrun as ([] & w11 & H11 & Hrun).
  destruct R8 as (rest & Hev8 & _).
  unfold logf, emit in H11. injection H11 as <-.
  apply (reached_line env test _ _ _ _ (deleted_line test)) in R10;
    [|done..].
  destruct R10 as (rest' & Hev10 & Ht10 & Hs10). simpl in Hev8, Hev10.
  assert (rest' = rest ++ [EvDeleteNS (Namespace test) None;
                           deleted_line test]) as ->.
  { rewrite Hev8, <- !app_assoc in Hev10.
    apply app_inv_head in Hev10. simpl in Hev10. by injection Hev10 as <-. }
  exists (pre ++ rest ++ [EvDeleteNS (Namespace test) None;
                          deleted_line test]).
  split; [by eexists _, _ |]. split; [done |].
  right.
  match type of Hrun with RunTests_loop _ _ _ ?w1 = _ => exists w1 end.
  split; [exact Hev10 |]. split; [done |].
  split; [by exists rest | done].
Qed.

End Cases.

Lemma head_concat (segs : list (list event)) (ev : event) :
  head (concat segs) = Some ev → ∃ seg, seg ∈ segs ∧ head seg = Some ev.
Proof.
  induction segs as [|s segs IH]; [done |]. simpl. destruct s as [|x s].
  - intros (seg & ? & ?)%IH. exists seg. split; [by right | done].
  - intros Hev. exists (x :: s). split; [by left | done].
Qed.

Lemma piped_concat (segs : list (list event)) :
  Forall (λ seg, piped seg ∧ ∀ ev, head seg = Some ev → stage ev = None)
    segs →
  piped (concat segs).
Proof.
  induction 1 as [|seg segs [Hp Hh] Hall IH]; simpl.
  - intros before ev after Heq. by destruct before.
  - apply piped_app; [done | done |].
    intros ev (seg' & Hin & Hs)%head_concat. apply feeds_other.
    eapply Forall_forall in Hall as [_ Hhead]; [|exact Hin].
    by rewrite (Hhead ev Hs).
Qed.

Section Sequential.
Variable env : Env.

(** The trace of a run of the sequential [RunTests]: the test cases
    that went through, then the one that did not, if there is one. *)
Lemma RunTests_loop_shape fuel tests w r w' :
  RunTests_loop env fuel tests w = (r, w') →
  ∃ (through : list (list event)) (final : list event),
    events w' = events w ++ concat through ++ final
    ∧ Forall2 (λ test seg, traced env test 8 seg ∧ Forall soft seg
                           ∧ completed test seg)
        (take (length through) tests) through
    ∧ (length through ≤ length tests)%nat
    ∧ match r with
      | Some (Ok _) => final = [] ∧ length through = length tests
      | _ =>
          ∃ test, tests !! length through = Some test
                  ∧ started test final ∧ traced env test 8 final
                  ∧ if r is None then Forall soft final else ends_hard final
      end.
Proof.
  revert w. induction tests as [|test tests IH]; intros w Hrun.
  - injection Hrun as <- <-. exists [], []. simpl. rewrite app_nil_r.
    split; [done |]. split; [constructor |]. done.
  - apply RunTests_iteration in Hrun
      as (seg & Hst & Ht & [[Hev Hend]|(w1 & Hev & Hs & Hc & Hrun)]).
    + exists [], seg. simpl. split; [done |]. split; [constructor |].
      split; [lia |].
      destruct r as [[[]|err|p]|]; [done | | |]; by exists test.
    + apply IH in Hrun as (through & final & Hev' & Hall & Hle & Hr).
      exists (seg :: through), final. simpl.
      split; [by rewrite Hev', Hev, <- !app_assoc |].
      split; [by constructor |]. split; [lia |].
      destruct r as [[[]|err|p]|]; [destruct Hr as [-> ->]; done |..];
        destruct Hr as (test' & ? & ?); by exists test'.
Qed.

Lemma RunTests_loop_ends fuel tests w r w' :
  RunTests_loop env fuel tests w = (r, w') →
  ∃ new, events w' = events w ++ new
         ∧ match r with
           | Some (Err _) | Some (Panic _) => ends_hard new
           | Some (Ok _) | None => Forall soft new
           end.
Proof.
  intros (through & final & Hev & Hall & _ & Hr)%RunTests_loop_shape.
  exists (concat through ++ final). split; [done |].
  assert (Forall soft (concat through)) as Hsoft.
  { apply Forall_concat. clear Hev Hr.
    induction Hall as [|???? (_ & ? & _) _ IH']; by constructor. }
  destruct r as [[[]|err|p]|].
  - destruct Hr as [-> _]. by rewrite app_nil_r.
  - destruct Hr as (test & _ & _ & _ & Hend). by apply ends_hard_app.
  - destruct Hr as (test & _ & _ & _ & Hend). by apply ends_hard_app.
  - destruct Hr as (test & _ & _ & _ & Hend). by apply Forall_app.
Qed.

(** X11.  The sequential [RunTests] stops at the first hard failure:
    the failing answer is the last event of the run, nothing is called
    and nothing is logged after it, and the run returns an error (or
    dies in [getEndPoints]).  A run that returns nil, or that is still
    polling, has met no hard failure at all. *)
Theorem RunTests_loop_fails_fast fuel tests w :
  let run := RunTests_loop env fuel tests w in
  match run.1 with
  | Some (Err _) | Some (Panic _) => ends_hard (since w run.2)
  | Some (Ok _) | None => Forall soft (since w run.2)
  end.
Proof.
  simpl. destruct (RunTests_loop env fuel tests w) as [r w'] eqn:Hrun.
  apply RunTests_loop_ends in Hrun as (new & Hev & Hr).
  simpl. by rewrite (since_app _ _ _ Hev).
Qed.

End Sequential.

(** ** Runs of the sequential [RunTests] *)

Lemma open_after_app open tr1 tr2 :
  open_after open (tr1 ++ tr2)
  = open_after open tr1 ≫= λ open1, open_after open1 tr2.
Proof.
  revert open. induction tr1 as [|ev tr1 IH]; intros open; simpl; [done |].
  destruct (created_ok ev), (deleted_ok ev), open; by rewrite ?IH.
Qed.

Lemma open_after_quiet open tr :
  Forall (λ ev, created_ok ev = false ∧ deleted_ok ev = false) tr →
  open_after open tr = Some open.
Proof.
  induction 1 as [|ev tr [Hc Hd] _ IH]; simpl; [done |].
  by rewrite Hc, Hd.
Qed.

Lemma open_after_counts open tr open' :
  open_after open tr = Some open' →
  (count created_ok tr + (if open then 1 else 0)
   = count deleted_ok tr + (if open' then 1 else 0))%nat.
Proof.
  revert open. induction tr as [|ev tr IH]; intros open; simpl.
  - by intros [= ->].
  - destruct (created_ok ev) eqn:Hc, (deleted_ok ev) eqn:Hd;
      try (by destruct ev as [| | |? []|? []| | | | | | |]);
      destruct open; try done; intros H%IH; simpl in *; lia.
Qed.

Lemma open_after_take open tr open' n :
  open_after open tr = Some open' →
  ∃ open1, open_after open (take n tr) = Some open1.
Proof.
  rewrite <- (take_drop n tr) at 1. rewrite open_after_app.
  destruct (open_after open (take n tr)) as [open1|]; [by exists open1 | done].
Qed.

Lemma stage_le (ev : event) (s : nat) : stage ev = Some s → (1 ≤ s ≤ 8)%nat.
Proof. destruct ev; intros [= <-]; lia. Qed.

Lemma created_ok_stage ev : created_ok ev = true → stage ev = Some 1%nat.
Proof. by destruct ev. Qed.

Lemma deleted_ok_stage ev : deleted_ok ev = true → stage ev = Some 8%nat.
Proof. by destruct ev. Qed.

(** After an event of the first step, or before one of the last, there
    is no creation and no deletion. *)
Lemma between_quiet first last_ (mid : list event) :
  stage first = Some 1%nat → stage last_ = Some 8%nat →
  Forall (in_order first) mid → Forall (λ ev, in_order ev last_) mid →
  Forall (λ ev, created_ok ev = false ∧ deleted_ok ev = false) mid.
Proof.
  intros Hf Hl H1 H2. apply Forall_forall. intros ev Hin.
  eapply Forall_forall in H1; [|exact Hin].
  eapply Forall_forall in H2; [|exact Hin].
  split.
  - destruct (created_ok ev) eqn:Hc; [|done].
    apply created_ok_stage in Hc.
    destruct (H1 _ _ Hf Hc) as [?|[_ ?]]; [lia | done].
  - destruct (deleted_ok ev) eqn:Hd; [|done].
    apply deleted_ok_stage in Hd.
    destruct (H2 _ _ Hd Hl) as [?|[_ ?]]; [lia | done].
Qed.

(** Once a namespace is deleted the test case calls nothing. *)
Lemma open_after_sorted (tr : list event) :
  StronglySorted in_order tr → Forall (λ ev, created_ok ev = false) tr →
  ∃ open', open_after true tr = Some open'.
Proof.
  induction 1 as [|ev tr Hs IH Hall]; intros Hc; simpl; [by eexists |].
  apply Forall_cons in Hc as [-> Hc].
  destruct (deleted_ok ev) eqn:Hd; [|by apply IH].
  exists false. apply open_after_quiet, Forall_forall. intros ev' Hin.
  eapply Forall_forall in Hall; [|exact Hin].
  eapply Forall_forall in Hc; [|exact Hin]. split; [done |].
  destruct (deleted_ok ev') eqn:Hd'; [|done].
  apply deleted_ok_stage in Hd, Hd'.
  destruct (Hall _ _ Hd Hd') as [?|[_ ?]]; [lia | done].
Qed.

Lemma started_head test seg ev :
  started test seg → head seg = Some ev → stage ev = None.
Proof. intros (c & rest & ->) [= <-]. done. Qed.

Lemma completed_started test seg : completed test seg → started test seg.
Proof. intros (before & ->). by eexists _, _. Qed.

Lemma completed_open env test seg :
  traced env test 8 seg → completed test seg →
  open_after false seg = Some false
  ∧ count created_ok seg = 1%nat ∧ count deleted_ok seg = 1%nat.
Proof.
  intros (_ & _ & _ & Hs & _) (mid & ->).
  apply StronglySorted_inv in Hs as [Hs _].
  apply StronglySorted_inv in Hs as [Hs H1].
  apply Forall_app in H1 as [H1 _].
  apply StronglySorted_app in Hs as (H2 & _ & _).
  assert (Forall (λ ev, created_ok ev = false ∧ deleted_ok ev = false) mid)
    as Hq.
  { apply (between_quiet (EvCreateNS (Namespace test) None)
             (EvDeleteNS (Namespace test) None)); try done.
    apply Forall_forall. intros ev Hin. apply H2; [done | by left]. }
  assert (count created_ok mid = O ∧ count deleted_ok mid = O) as [Hc Hd].
  { clear -Hq. induction Hq as [|ev mid [Hc Hd] _ [IH1 IH2]]; simpl; [done |].
    by rewrite Hc, Hd, IH1, IH2. }
  simpl. rewrite open_after_app, (open_after_quiet _ _ Hq), !count_app, Hc, Hd.
  done.
Qed.

Lemma started_open env test seg :
  traced env test 8 seg → started test seg →
  Forall soft seg ∨ ends_hard seg →
  ∃ open', open_after false seg = Some open'.
Proof.
  intros (_ & _ & _ & Hs & _) (c & rest & ->) Hend.
  apply StronglySorted_inv in Hs as [Hs _].
  apply StronglySorted_inv in Hs as [Hs H1].
  destruct c as [err|]; simpl.
  - assert (rest = []) as ->; [|by eexists].
    destruct Hend as [Hsoft|Hhard].
    + apply Forall_cons in Hsoft as [_ Hsoft].
      by apply Forall_cons in Hsoft as [? _].
    + by apply (ends_hard_last _ [running_line test]
                  (EvCreateNS (Namespace test) (Some err)) rest) in Hhard
        as [-> _].
  - apply open_after_sorted; [done |].
    eapply Forall_impl; [exact H1 |]. intros ev Hev.
    destruct (created_ok ev) eqn:Hc; [|done].
    apply created_ok_stage in Hc.
    destruct (Hev 1%nat 1%nat eq_refl Hc) as [?|[_ ?]]; [lia | done].
Qed.

Section Runs.
Variable env : Env.

Lemma RunTests_loop_segments fuel tests w r w' :
  RunTests_loop env fuel tests w = (r, w') →
  ∃ segs : list (list event),
    events w' = events w ++ concat segs
    ∧ Forall2 (λ test seg, started test seg ∧ traced env test 8 seg)
        (take (length segs) tests) segs.
Proof.
  intros (through & final & Hev & Hall & Hle & Hr)%RunTests_loop_shape.
  assert (Forall2 (λ test seg, started test seg ∧ traced env test 8 seg)
            (take (length through) tests) through) as Hall'.
  { eapply Forall2_impl; [exact Hall |].
    intros test seg (? & _ & ?). split; [by eapply completed_started | done]. }
  assert (∀ test, tests !! length through = Some test →
            started test final → traced env test 8 final →
            ∃ segs : list (list event),
              events w' = events w ++ concat segs
              ∧ Forall2 (λ test seg, started test seg ∧ traced env test 8 seg)
                  (take (length segs) tests) segs) as Hlast.
  { intros test Hlook Hst Ht. exists (through ++ [final]).
    rewrite concat_app. simpl. rewrite app_nil_r. split; [done |].
    rewrite length_app. simpl. rewrite Nat.add_1_r.
    rewrite (take_S_r _ _ _ Hlook).
    apply Forall2_app; [done |]. constructor; [done | constructor]. }
  destruct r as [[[]|err|p]|].
  - destruct Hr as [-> _]. exists through. by rewrite app_nil_r in Hev.
  - destruct Hr as (test & ? & ? & ? & _). by apply (Hlast test).
  - destruct Hr as (test & ? & ? & ? & _). by apply (Hlast test).
  - destruct Hr as (test & ? & ? & ? & _). by apply (Hlast test).
Qed.

(** X12.  A run of the sequential [RunTests] is a sequence of test
    cases in the order of the table, as many as were started.  The
    events of a test case concern that test case alone: its namespace,
    its input files, the two tools.  They come in the order of the
    steps: creation of the namespace, generator, [kubectl], listings of
    pods, of nodes, of services, probes, deletion; only the pod
    listings and the probes repeat. *)
Theorem RunTests_loop_cases fuel tests w :
  ∃ segs : list (list event),
    since w (RunTests_loop env fuel tests w).2 = concat segs
    ∧ Forall2 (λ test seg, started test seg
                           ∧ Forall (about env test) seg
                           ∧ StronglySorted in_order seg)
        (take (length segs) tests) segs.
Proof.
  destruct (RunTests_loop env fuel tests w) as [r w'] eqn:Hrun.
  apply RunTests_loop_segments in Hrun as (segs & Hev & Hall).
  exists segs. simpl. split; [by apply since_app |].
  eapply Forall2_impl; [exact Hall |].
  by intros test seg (? & ? & _ & _ & ? & _).
Qed.

Lemma RunTests_loop_open fuel tests w r w' :
  RunTests_loop env fuel tests w = (r, w') →
  ∃ new open',
    events w' = events w ++ new
    ∧ open_after false new = Some open'
    ∧ (r = Some (Ok tt) →
       count created_ok new = length tests
       ∧ count deleted_ok new = length tests).
Proof.
  intros (through & final & Hev & Hall & Hle & Hr)%RunTests_loop_shape.
  assert (open_after false (concat through) = Some false
          ∧ count created_ok (concat through) = length through
          ∧ count deleted_ok (concat through) = length through)
    as (Hopen & Hc & Hd).
  { clear Hev Hr Hle.
    induction Hall as [|test seg ts segs (Ht & _ & Hcomp) _ IH]; [done |].
    destruct IH as (IH1 & IH2 & IH3).
    destruct (completed_open env test seg Ht Hcomp) as (H1 & H2 & H3).
    simpl. rewrite open_after_app, H1, !count_app, H2, H3, IH2, IH3. done. }
  exists (concat through ++ final).
  assert (∃ open', open_after false final = Some open') as [open' Hfinal].
  { destruct r as [[[]|err|p]|].
    - destruct Hr as [-> _]. by eexists.
    - destruct Hr as (test & _ & ? & ? & ?).
      apply (started_open env test); [done | done | by right].
    - destruct Hr as (test & _ & ? & ? & ?).
      apply (started_open env test); [done | done | by right].
    - destruct Hr as (test & _ & ? & ? & ?).
      apply (started_open env test); [done | done | by left]. }
  exists open'. split; [done |]. split.
  - by rewrite open_after_app, Hopen.
  - intros ->. destruct Hr as [-> Hlen].
    rewrite app_nil_r, Hc, Hd. done.
Qed.

(** X13.  The sequential [RunTests] has at most one namespace of its
    own at any time: at every point of a run, the namespaces it has
    created are as many as those it has deleted, or one more.  A run
    that returns nil has created and deleted one namespace per test
    case. *)
Theorem RunTests_loop_one_namespace fuel tests w :
  let run := RunTests_loop env fuel tests w in
  (∀ n, let before := take n (since w run.2) in
        (count deleted_ok before ≤ count created_ok before
         ≤ count deleted_ok before + 1)%nat)
  ∧ (run.1 = Some (Ok tt) →
     count created_ok (since w run.2) = length tests
     ∧ count deleted_ok (since w run.2) = length tests).
Proof.
  simpl. destruct (RunTests_loop env fuel tests w) as [r w'] eqn:Hrun.
  apply RunTests_loop_open in Hrun as (new & open' & Hev & Hopen & Hok).
  simpl. rewrite (since_app _ _ _ Hev). split; [|done].
  intros n.
  destruct (open_after_take _ _ _ n Hopen) as [open1 H1].
  apply open_after_counts in H1. destruct open1; lia.
Qed.

Lemma RunTests_loop_piped fuel tests w :
  piped (since w (RunTests_loop env fuel tests w).2).
Proof.
  destruct (RunTests_loop env fuel tests w) as [r w'] eqn:Hrun.
  apply RunTests_loop_segments in Hrun as (segs & Hev & Hall).
  simpl. rewrite (since_app _ _ _ Hev). apply piped_concat.
  eapply Forall2_Forall_r; [exact Hall |].
  apply Forall_forall. intros test _ seg (Hst & _ & _ & _ & _ & Hp).
  split; [done |]. intros ev. by apply (started_head test).
Qed.

(** X14.  The loop of [RunTests] over two tables, one after the other,
    is the loop over the first and then, if that returned nil, the
    loop over the second from where the first one ended; otherwise it
    ends as the first one did, and no test case of the second table is
    started. *)
Theorem RunTests_loop_app fuel tests1 tests2 w :
  RunTests_loop env fuel (tests1 ++ tests2) w
  = match RunTests_loop env fuel tests1 w with
    | (Some (Ok _), w1) => RunTests_loop env fuel tests2 w1
    | stopped => stopped
    end.
Proof.
  revert w. induction tests1 as [|test tests1 IH]; intros w; [done |].
  simpl. unfold bind.
  repeat (case_match; simplify_eq/=; try done).
Qed.

End Runs.

(** ** The other two copies *)

Lemma line_after env test tr ev :
  Forall (about env test) tr ∧ StronglySorted in_order tr ∧ piped tr →
  stage ev = None → about env test ev →
  Forall (about env test) (tr ++ [ev]) ∧ StronglySorted in_order (tr ++ [ev])
  ∧ piped (tr ++ [ev]).
Proof.
  intros (Ha & Hs & Hp) Hst Hev. split_and!.
  - apply Forall_app. split; [done | by constructor].
  - apply StronglySorted_app_2; [|done | repeat constructor].
    intros ev1 ev2 _ ->%list_elem_of_singleton s1 s2 _ Hs2. congruence.
  - apply piped_snoc; [done |]. apply feeds_other. congruence.
Qed.

Section Goroutine.
Variable env : Env.
Variable test : testData.

(** The function of one goroutine of the concurrent [RunTests]. *)
Lemma run_case_shape fuel w r w' :
  run_case env fuel test w = (r, w') →
  ∃ seg,
    started test seg ∧ events w' = events w ++ seg
    ∧ match r with
      | None => traced env test 8 seg ∧ Forall soft seg
      | Some (Crashed _) => traced env test 8 seg ∧ ends_hard seg
      | Some Returned =>
          (traced env test 8 seg ∧ Forall soft seg ∧ completed test seg)
          ∨ (∃ before format err,
               seg = before ++ [EvLog Error format [AErr err]]
               ∧ traced env test 8 before ∧ ends_hard before)
      end.
Proof.
  intros Hrun. unfold run_case in Hrun.
  apply bind_inv in Hrun as ([] & w1 & H1 & Hrun).
  unfold emit in H1. injection H1 as <-.
  apply bind_inv in Hrun as (created & w2 & H2 & Hrun).
  unfold createNS, call in H2. simpl in H2. injection H2 as <- <-.
  fold (running_line test) in Hrun.
  set (c := create_ns env (calls w) (Namespace test)) in *.
  set (pre := [running_line test; EvCreateNS (Namespace test) c]).
  assert (traced env test 1 pre) as Hpre by (by apply traced_created).
  assert (∀ hi ws format err,
            stopped env test hi pre w ws → (hi ≤ 8)%nat →
            Errorf_log format err ws = (r, w') →
            ∃ seg,
              started test seg ∧ events w' = events w ++ seg
              ∧ match r with
                | None => traced env test 8 seg ∧ Forall soft seg
                | Some (Crashed _) => traced env test 8 seg ∧ ends_hard seg
                | Some Returned =>
                    (traced env test 8 seg ∧ Forall soft seg
                     ∧ completed test seg)
                    ∨ (∃ before format err,
                         seg = before ++ [EvLog Error format [AErr err]]
                         ∧ traced env test 8 before ∧ ends_hard before)
                end) as Hstop.
  { intros hi ws format err (rest & Hev & Ht & Hend) Hle Hlog.
    unfold Errorf_log, bind, logf, emit, ret in Hlog.
    injection Hlog as <- <-.
    exists (pre ++ rest ++ [EvLog Error format [AErr err]]).
    split; [by eexists _, _ |].
    split; [simpl; by rewrite Hev, <- !app_assoc |].
    right. exists (pre ++ rest), format, err.
    split; [by rewrite <- app_assoc |].
    split; [by apply (traced_mono _ _ hi) | done]. }
  destruct c as [err|] eqn:Hc.
  { eapply (Hstop 1%nat); [|lia | exact Hrun].
    exists []. rewrite app_nil_r. split; [by rewrite <- app_assoc |].
    split; [done |].
    exists [running_line test], (EvCreateNS (Namespace test) (Some err)).
    split; [done |]. split; [by repeat constructor | done]. }
  match type of Hrun with bind _ _ ?w2 = _ =>
    assert (reached env test 1 pre w w2) as R2 end.
  { exists []. rewrite app_nil_r. split; [by rewrite <- app_assoc |].
    split; [done |]. by repeat constructor. }
  apply bind_inv in Hrun as ([] & w3 & H3 & Hrun).
  unfold logf, emit in H3. injection H3 as <-.
  apply (reached_line env test _ _ _ _
           (EvLog Debug "namespace %q created" [AStr (Namespace test)]))
    in R2; [|done..].
  apply bind_inv in Hrun as (converted & w4 & H4 & Hrun).
  pose proof (reached_generated env test _ _ _ _ _ R2 H4) as R4.
  destruct converted as [output|err];
    [|by eapply (Hstop 2%nat); [exact R4 | lia | exact Hrun]].
  apply bind_inv in Hrun as (applied & w5 & H5 & Hrun).
  pose proof (reached_deployed_combined env test _ _ _ _ _ _ _ R4 H5) as R5.
  destruct applied as [err|];
    [by eapply (Hstop 3%nat); [exact R5 | lia | exact Hrun] |].
  apply bind_inv in Hrun as (started' & w6 & H6 & Hrun).
  pose proof (reached_step env test 3 4 4 pre w _ _ _ _ _ R5
                (step_PodsStarted env test fuel Logrus (PodStarted test))
                ltac:(lia) ltac:(lia) ltac:(lia) H6) as R6.
  simpl in R6. destruct started' as [[err|]|];
    [by eapply (Hstop 4%nat); [exact R6 | lia | exact Hrun] | |].
  2:{ injection Hrun as <- <-. destruct R6 as (rest & Hev & Ht & Hs).
      exists (pre ++ rest). split; [by eexists _, _ |]. split; [done |].
      split; [apply (traced_mono _ _ 4); [lia | done] | done]. }
  apply bind_inv in Hrun as (endPoints & w7 & H7 & Hrun).
  pose proof (reached_step env test 4 5 6 pre w _ _ _ _ _ R6
                (step_getEndPoints env test Logrus (NodePortServices test))
                ltac:(lia) ltac:(lia) ltac:(lia) H7) as R7.
  simpl in R7. destruct endPoints as [ep|err|p];
    [|by eapply (Hstop 6%nat); [exact R7 | lia | exact Hrun] |].
  2:{ injection Hrun as <- <-. destruct R7 as (rest & Hev & Ht & Hs).
      exists (pre ++ rest). split; [by eexists _, _ |]. split; [done |].
      split; [apply (traced_mono _ _ 6); [lia | done] | done]. }
  apply bind_inv in Hrun as ([pinged ep'] & w8 & H8 & Hrun).
  pose proof (reached_step env test 6 7 7 pre w _ _ _ _ _ R7
                (step_pingEndPoints env test fuel Logrus ep)
                ltac:(lia) ltac:(lia) ltac:(lia) H8) as R8.
  simpl in R8, Hrun. destruct pinged as [[err|]|];
    [by eapply (Hstop 7%nat); [exact R8 | lia | exact Hrun] | |].
  2:{ injection Hrun as <- <-. destruct R8 as (rest & Hev & Ht & Hs).
      exists (pre ++ rest). split; [by eexists _, _ |]. split; [done |].
      split; [apply (traced_mono _ _ 7); [lia | done] | done]. }
  apply bind_inv in Hrun as ([] & w9 & H9 & Hrun).
  unfold emit in H9. injection H9 as <-.
  apply (reached_line env test _ _ _ _
           (EvLogln Info [AStr "Successfully pinged all endpoints!"]))
    in R8; [|done..].
  apply bind_inv in Hrun as (deleted & w10 & H10 & Hrun).
  pose proof (reached_step env test 7 8 8 pre w _ _ _ _ _ R8
                (step_Delete env test)
                ltac:(lia) ltac:(lia) ltac:(lia) H10) as R10.
  simpl in R10.
  unfold Namespaces_Delete, call in H10. injection H10 as <- <-.
  destruct (delete_ns env _ (Namespace test)) as [err|] eqn:Hdel;
    [by eapply (Hstop 8%nat); [exact R10 | lia | exact Hrun] |].
  apply bind_inv in Hrun as ([] & w11 & H11 & Hrun).
  injection Hrun as <- <-.
  destruct R8 as (rest & Hev8 & _).
  unfold logf, emit in H11. injection H11 as <-.
  apply (reached_line env test _ _ _ _ (deleted_line test)) in R10;
    [|done..].
  destruct R10 as (rest' & Hev10 & Ht10 & Hs10). simpl in Hev8, Hev10.
  assert (rest' = rest ++ [EvDeleteNS (Namespace test) None;
                           deleted_line test]) as ->.
  { rewrite Hev8, <- !app_assoc in Hev10.
    apply app_inv_head in Hev10. simpl in Hev10. by injection Hev10 as <-. }
  exists (pre ++ rest ++ [EvDeleteNS (Namespace test) None;
                          deleted_line test]).
  split; [by eexists _, _ |]. split; [exact Hev10 |].
  left. split; [done |]. split; [done |]. by exists rest.
Qed.

(** Up to a hard failure no namespace is deleted. *)
Lemma ends_hard_not_deleted hi tr :
  traced env test hi tr → ends_hard tr →
  Forall (λ ev, deleted_ok ev = false) tr.
Proof.
  intros (_ & _ & _ & Hs & _) (before & ev & -> & _ & Hhard).
  apply Forall_app. split; [|constructor; [by destruct ev as [| | | |? []| | | | | | |] | done]].
  apply StronglySorted_app in Hs as (Hord & _ & _).
  apply Forall_forall. intros ev' Hin.
  destruct (deleted_ok ev') eqn:Hd; [|done].
  apply deleted_ok_stage in Hd.
  assert (∃ s, stage ev = Some s) as [s Hs]
    by (destruct ev; try done; by eexists).
  destruct (Hord ev' ev Hin ltac:(by left) _ _ Hd Hs) as [?|[_ ?]];
    [|done].
  apply stage_le in Hs. lia.
Qed.

(** X15.  A goroutine of the concurrent [RunTests] never hands an
    error back.  When a step fails it logs one line at the level of
    errors, right after the failing answer, and returns; nothing else
    is logged at that level, and the namespace is not deleted.  When
    no step fails the last things it does are to delete the namespace
    and to say so.  A node listing that cannot be indexed ends the
    process without a line. *)
Theorem run_case_reports fuel w :
  let run := run_case env fuel test w in
  let tr := since w run.2 in
  match run.1 with
  | Some Returned =>
      (Forall soft tr ∧ Forall calm tr ∧ completed test tr)
      ∨ (∃ before format err,
           tr = before ++ [EvLog Error format [AErr err]]
           ∧ ends_hard before ∧ Forall calm before
           ∧ Forall (λ ev, deleted_ok ev = false) before)
  | Some (Crashed _) => ends_hard tr ∧ Forall calm tr
  | None => Forall soft tr ∧ Forall calm tr
  end.
Proof.
  simpl. destruct (run_case env fuel test w) as [r w'] eqn:Hrun.
  apply run_case_shape in Hrun as (seg & _ & Hev & Hr).
  simpl. rewrite (since_app _ _ _ Hev).
  destruct r as [[|p]|].
  - destruct Hr as [(Ht & Hs & Hc)|(before & format & err & -> & Ht & Hend)].
    + left. split; [done |]. split; [|done]. by destruct Ht as (_ & ? & _).
    + right. exists before, format, err. split; [done |]. split; [done |].
      split; [by destruct Ht as (_ & ? & _) |].
      by apply (ends_hard_not_deleted 8).
  - destruct Hr as [Ht Hend]. split; [done |]. by destruct Ht as (_ & ? & _).
  - destruct Hr as [Ht Hs]. split; [done |]. by destruct Ht as (_ & ? & _).
Qed.

Lemma run_case_traced fuel w :
  let tr := since w (run_case env fuel test w).2 in
  Forall (about env test) tr ∧ StronglySorted in_order tr ∧ piped tr.
Proof.
  simpl. destruct (run_case env fuel test w) as [r w'] eqn:Hrun.
  apply run_case_shape in Hrun as (seg & _ & Hev & Hr).
  simpl. rewrite (since_app _ _ _ Hev).
  assert (∀ tr, traced env test 8 tr →
            Forall (about env test) tr ∧ StronglySorted in_order tr
            ∧ piped tr) as Hof
    by (by intros tr (? & _ & _ & ? & ?)).
  destruct r as [[|p]|].
  - destruct Hr as [(Ht & _)|(before & format & err & -> & Ht & _)];
      [by apply Hof |].
    apply line_after; [by apply Hof | done | done].
  - apply Hof. by destruct Hr.
  - apply Hof. by destruct Hr.
Qed.

(** *** A subtest of [Test_Integration] *)

Lemma deleteNamespace_traced tr w :
  traced env test 7 tr →
  ∃ new, events (deleteNamespace env (Namespace test) w).2 = events w ++ new
         ∧ traced env test 8 (tr ++ new).
Proof.
  intros Ht.
  unfold deleteNamespace, Namespaces_Delete, bind, call, logf, emit, ret.
  simpl.
  set (r := delete_ns env (calls w) (Namespace test)).
  assert (traced env test 8 (tr ++ [EvDeleteNS (Namespace test) r])) as Ht1.
  { apply (traced_snoc env test 7 8); try done; try lia.
    intros s [= <-]. lia. }
  destruct r as [err|]; simpl.
  - eexists [_; _; _]. rewrite <- !app_assoc. split; [done |].
    match goal with |- traced _ _ _ (tr ++ [?a; ?b; ?c]) =>
      replace (tr ++ [a; b; c]) with (((tr ++ [a]) ++ [b]) ++ [c])
        by (by rewrite <- !app_assoc) end.
    by do 2 (apply traced_line; try done).
  - eexists [_; _]. rewrite <- !app_assoc. split; [done |].
    match goal with |- traced _ _ _ (tr ++ [?a; ?b]) =>
      replace (tr ++ [a; b]) with ((tr ++ [a]) ++ [b])
        by (by rewrite <- !app_assoc) end.
    by apply traced_line.
Qed.

Lemma subtest_steps_traced fuel pre w0 w v w1 :
  reached env test 1 pre w0 w →
  subtest_steps env fuel test w = (v, w1) →
  ∃ rest, events w1 = events w0 ++ pre ++ rest
          ∧ traced env test 7 (pre ++ rest).
Proof.
  intros R2 Hrun. unfold subtest_steps in Hrun.
  assert (∀ hi ws format args,
            stopped env test hi pre w0 ws → (hi ≤ 7)%nat →
            Fatalf format args ws = (v, w1) →
            ∃ rest, events w1 = events w0 ++ pre ++ rest
                    ∧ traced env test 7 (pre ++ rest)) as Hstop.
  { intros hi ws format args (rest & Hev & Ht & Hend) Hle Hlog.
    unfold Fatalf, bind, logf, emit, ret in Hlog.
    injection Hlog as <- <-.
    exists (rest ++ [EvLog TLog format args]).
    split; [simpl; by rewrite Hev, <- !app_assoc |].
    rewrite app_assoc. apply traced_line; try done.
    by apply (traced_mono _ _ hi). }
  assert (∀ hi ws, reached env test hi pre w0 ws → (hi ≤ 7)%nat →
            ∃ rest, events ws = events w0 ++ pre ++ rest
                    ∧ traced env test 7 (pre ++ rest)) as Hgo.
  { intros hi ws (rest & Hev & Ht & _) Hle. exists rest.
    split; [done | by apply (traced_mono _ _ hi)]. }
  assert (∀ hi ws, stopped env test hi pre w0 ws → (hi ≤ 7)%nat →
            ∃ rest, events ws = events w0 ++ pre ++ rest
                    ∧ traced env test 7 (pre ++ rest)) as Hcrash.
  { intros hi ws (rest & Hev & Ht & _) Hle. exists rest.
    split; [done | by apply (traced_mono _ _ hi)]. }
  apply bind_inv in Hrun as (converted & w4 & H4 & Hrun).
  pose proof (reached_generated env test _ _ _ _ _ R2 H4) as R4.
  destruct converted as [output|err];
    [|by eapply (Hstop 2%nat); [exact R4 | lia | exact Hrun]].
  apply bind_inv in Hrun as (applied & w5 & H5 & Hrun).
  pose proof (reached_deployed_combined env test _ _ _ _ _ _ _ R4 H5) as R5.
  destruct applied as [err|];
    [by eapply (Hstop 3%nat); [exact R5 | lia | exact Hrun] |].
  apply bind_inv in Hrun as (started' & w6 & H6 & Hrun).
  pose proof (reached_step env test 3 4 4 pre w0 _ _ _ _ _ R5
                (step_PodsStarted env test fuel Testing (PodStarted test))
                ltac:(lia) ltac:(lia) ltac:(lia) H6) as R6.
  simpl in R6. destruct started' as [[err|]|];
    [by eapply (Hstop 4%nat); [exact R6 | lia | exact Hrun] | |].
  2:{ injection Hrun as <- <-. by apply (Hgo 4%nat); [|lia]. }
  apply bind_inv in Hrun as (endPoints & w7 & H7 & Hrun).
  pose proof (reached_step env test 4 5 6 pre w0 _ _ _ _ _ R6
                (step_getEndPoints env test Testing (NodePortServices test))
                ltac:(lia) ltac:(lia) ltac:(lia) H7) as R7.
  simpl in R7. destruct endPoints as [ep|err|p];
    [|by eapply (Hstop 6%nat); [exact R7 | lia | exact Hrun] |].
  2:{ injection Hrun as <- <-. by apply (Hcrash 6%nat); [|lia]. }
  apply bind_inv in Hrun as ([pinged ep'] & w8 & H8 & Hrun).
  pose proof (reached_step env test 6 7 7 pre w0 _ _ _ _ _ R7
                (step_pingEndPoints env test fuel Testing ep)
                ltac:(lia) ltac:(lia) ltac:(lia) H8) as R8.
  simpl in R8, Hrun. destruct pinged as [[err|]|];
    [by eapply (Hstop 7%nat); [exact R8 | lia | exact Hrun] | |].
  2:{ injection Hrun as <- <-. by apply (Hgo 7%nat); [|lia]. }
  unfold bind, logf, emit, ret in Hrun. injection Hrun as <- <-.
  apply (reached_line env test _ _ _ _
           (EvLog TLog "Successfully pinged all endpoints!" []))
    in R8; [|done..].
  by apply (Hgo 7%nat); [|lia].
Qed.

Lemma subtest_traced fuel w :
  ∃ c rest,
    since w (subtest env fuel test w).2
    = EvCreateNS (Namespace test) c :: rest
    ∧ traced env test 8 (EvCreateNS (Namespace test) c :: rest).
Proof.
  destruct (subtest env fuel test w) as [v w'] eqn:Hrun. simpl.
  unfold subtest in Hrun.
  apply bind_inv in Hrun as (created & w2 & H2 & Hrun).
  unfold createNS, call in H2. simpl in H2. injection H2 as <- <-.
  set (c := create_ns env (calls w) (Namespace test)) in *.
  exists c.
  pose proof (traced_created_first env test c) as Hpre.
  destruct c as [err|] eqn:Hc.
  { unfold Fatalf, bind, logf, emit, ret in Hrun. injection Hrun as <- <-.
    eexists [_]. split; [by apply since_app; simpl; rewrite <- app_assoc |].
    apply (traced_mono _ _ 1); [lia |].
    by apply (traced_line env test 1 [_]). }
  match type of Hrun with bind _ _ ?w2 = _ =>
    assert (reached env test 1 [EvCreateNS (Namespace test) None] w w2)
      as R2 end.
  { exists []. split; [done |]. split; [done |]. by repeat constructor. }
  apply bind_inv in Hrun as ([] & w3 & H3 & Hrun).
  unfold logf, emit in H3. injection H3 as <-.
  apply (reached_line env test _ _ _ _
           (EvLog TLog "namespace %q created" [AStr (Namespace test)]))
    in R2; [|done..].
  apply bind_inv in Hrun as (v' & w4 & H4 & Hrun).
  destruct (subtest_steps_traced fuel _ _ _ _ _ R2 H4)
    as (rest & Hev & Ht).
  destruct v' as [v'|].
  - apply bind_inv in Hrun as ([] & w5 & H5 & Hrun).
    injection Hrun as <- <-.
    destruct (deleteNamespace_traced _ w4 Ht) as (new & Hev' & Ht').
    rewrite H5 in Hev'. simpl in Hev'.
    exists (rest ++ new). split; [|by rewrite <- app_assoc in Ht'].
    apply since_app. by rewrite Hev', Hev, <- !app_assoc.
  - injection Hrun as <- <-. exists rest.
    split; [by apply since_app |]. by apply (traced_mono _ _ 7); [lia |].
Qed.

End Goroutine.

(** X16.  In the goroutine of the concurrent [RunTests] and in a
    subtest of [Test_Integration], as in the sequential copy, the
    events of a test case concern that test case alone (its namespace,
    its input files, the two tools) and come in the order of the
    steps. *)
Theorem test_case_in_order env test fuel w :
  (let tr := since w (run_case env fuel test w).2 in
   started test tr ∧ Forall (about env test) tr
   ∧ StronglySorted in_order tr)
  ∧ (let tr := since w (subtest env fuel test w).2 in
     Forall (about env test) tr ∧ StronglySorted in_order tr).
Proof.
  split.
  - pose proof (run_case_traced env test fuel w) as (Ha & Hs & _).
    simpl in *. split; [|done].
    destruct (run_case env fuel test w) as [r w'] eqn:Hrun.
    apply run_case_shape in Hrun as (seg & Hst & Hev & _).
    simpl. by rewrite (since_app _ _ _ Hev).
  - destruct (subtest_traced env test fuel w)
      as (c & rest & -> & (Ha & _ & _ & Hs & _)).
    done.
Qed.

(** X17.  In all three copies [kubectl] is started right after a run
    of the generator that succeeded, and what it is given on its
    standard input is what the generator wrote to its standard
    output. *)
Theorem kubectl_reads_generator env fuel w :
  (∀ tests, piped (since w (RunTests_loop env fuel tests w).2))
  ∧ (∀ test, piped (since w (run_case env fuel test w).2))
  ∧ (∀ test, piped (since w (subtest env fuel test w).2)).
Proof.
  split; [|split].
  - intros tests. apply RunTests_loop_piped.
  - intros test. by pose proof (run_case_traced env test fuel w) as (_ & _ & ?).
  - intros test.
    by destruct (subtest_traced env test fuel w)
      as (c & rest & -> & (_ & _ & _ & _ & ?)).
Qed.

(** ** [main] *)

Lemma about_tools env test ev :
  about env test ev → tools_at (KappLoc env) (KubectlLoc env) ev.
Proof. destruct ev; simpl; try done; by intros [? _]. Qed.

Lemma main_shape host env fuel w r w' :
  main host env fuel w = (r, w') →
  (∃ logs, events w' = events w ++ logs
           ∧ Forall (λ ev, is_log ev = true) logs
           ∧ ((∃ args, r = Some (Fatalln args))
              ∨ ∃ msg, r = Some (PanicText msg)))
  ∨ (∃ kapp kubectl r0 w1,
       create_client host = ClientOk
       ∧ LookPath host "kapp" = inl kapp
       ∧ LookPath host "kubectl" = inl kubectl
       ∧ events w1
         = events w ++ [EvLog Info "kapp location: %s" [AStr kapp];
                        EvLog Info "kubectl location: %s" [AStr kubectl]]
       ∧ RunTests (with_tools env kapp kubectl) fuel w1 = (r0, w')
       ∧ r = match r0 with
             | None => None
             | Some (Panic p) => Some (PanicRuntime p)
             | Some (Err err) => Some (Fatalln [AErr err])
             | Some (Ok _) => Some MainReturned
             end).
Proof.
  unfold main, FindKapp, FindKubectl.
  destruct (create_client host) as [msg|err|] eqn:Hclient.
  - intros [= <- <-]. left. exists []. rewrite app_nil_r.
    split; [done |]. split; [done |]. right. by eexists.
  - intros [= <- <-]. left. exists []. rewrite app_nil_r.
    split; [done |]. split; [done |]. left. by eexists.
  - destruct (LookPath host "kapp") as [kapp|err] eqn:Hkapp.
    2:{ intros [= <- <-]. left. exists []. rewrite app_nil_r.
        split; [done |]. split; [done |]. left. by eexists. }
    destruct (LookPath host "kubectl") as [kubectl|err] eqn:Hkubectl.
    2:{ intros [= <- <-]. left. eexists [_].
        split; [done |]. split; [by repeat constructor |]. left. by eexists. }
    unfold bind, logf, emit, ret. simpl.
    match goal with |- context [RunTests ?e fuel ?w1] =>
      destruct (RunTests e fuel w1) as [r0 w0'] eqn:Hrun end.
    intros Heq. right.
    match type of Hrun with RunTests _ _ ?w1 = _ =>
      exists kapp, kubectl, r0, w1 end.
    split; [done |]. split; [done |]. split; [done |].
    split; [simpl; by rewrite <- app_assoc |].
    destruct r0 as [[[]|err|p]|]; by injection Heq as <- <-.
Qed.

(** X18.  [main] touches the cluster and starts a process only after
    it has a client and has found both tools, and every process it
    starts is one of the two it has found: what the package variables
    held before is never used.  It returns only when every example of
    the table went through, with one namespace created and one deleted
    per example; a hard failure makes it exit through [log.Fatalln]
    or die. *)
Theorem main_runs_found_tools host env fuel w :
  let run := main host env fuel w in
  let tr := since w run.2 in
  (∀ ev, ev ∈ tr → stage ev ≠ None →
     create_client host = ClientOk
     ∧ ∃ kapp kubectl,
         LookPath host "kapp" = inl kapp
         ∧ LookPath host "kubectl" = inl kubectl
         ∧ tools_at kapp kubectl ev)
  ∧ (run.1 = Some MainReturned →
     Forall soft tr
     ∧ count created_ok tr = length tests
     ∧ count deleted_ok tr = length tests)
  ∧ (ends_hard tr →
     (∃ err, run.1 = Some (Fatalln [AErr err]))
     ∨ ∃ p, run.1 = Some (PanicRuntime p)).
Proof.
  simpl. destruct (main host env fuel w) as [r w'] eqn:Hmain. simpl.
  apply main_shape in Hmain
    as [(logs & Hev & Hlogs & Hr)
       |(kapp & kubectl & r0 & w1 & Hclient & Hkapp & Hkubectl & Hw1 & Hrun
         & ->)].
  - rewrite (since_app _ _ _ Hev).
    assert (Forall soft logs) as Hsoft
      by (eapply Forall_impl; [exact Hlogs |]; by intros []).
    split_and!.
    + intros ev Hin Hst. eapply Forall_forall in Hlogs; [|exact Hin].
      by destruct ev.
    + intros ->. by destruct Hr as [[? ?]|[? ?]].
    + intros Hend. by destruct (soft_not_hard logs).
  - unfold RunTests in Hrun.
    set (logs := [EvLog Info "kapp location: %s" [AStr kapp];
                  EvLog Info "kubectl location: %s" [AStr kubectl]]) in *.
    set (env' := with_tools env kapp kubectl) in *.
    pose proof (RunTests_loop_segments env' _ _ _ _ _ Hrun)
      as (segs & Hev & Hsegs).
    pose proof (RunTests_loop_ends env' _ _ _ _ _ Hrun)
      as (new & Hev1 & Hend).
    pose proof (RunTests_loop_open env' _ _ _ _ _ Hrun)
      as (new' & open' & Hev2 & _ & Hcount).
    assert (new = concat segs) as ->
      by (rewrite Hev in Hev1; by apply app_inv_head in Hev1).
    assert (new' = concat segs) as ->
      by (rewrite Hev in Hev2; by apply app_inv_head in Hev2).
    assert (events w' = events w ++ logs ++ concat segs) as Hall
      by (by rewrite Hev, Hw1, <- app_assoc).
    rewrite (since_app _ _ _ Hall).
    assert (Forall soft logs) as Hsoft by (by repeat constructor).
    split_and!.
    + intros ev Hin Hst. split; [done |]. exists kapp, kubectl.
      split; [done |]. split; [done |].
      apply elem_of_app in Hin as [Hin|Hin].
      { subst logs. repeat (apply elem_of_cons in Hin as [->|Hin]); try done.
        by apply elem_of_nil in Hin. }
      apply list_elem_of_In, in_concat in Hin as (seg & Hseg & Hin).
      apply list_elem_of_In in Hseg, Hin.
      apply list_elem_of_lookup in Hseg as [i Hi].
      destruct (Forall2_lookup_r _ _ _ _ _ Hsegs Hi)
        as (test & _ & _ & (Ha & _)).
      eapply Forall_forall in Ha; [|exact Hin].
      by apply about_tools in Ha.
    + destruct r0 as [[[]|err|p]|]; try done. intros _.
      destruct (Hcount eq_refl) as [Hc Hd].
      split; [by apply Forall_app |].
      rewrite !count_app. simpl. by rewrite Hc, Hd.
    + intros Hhard. destruct r0 as [[[]|err|p]|].
      * destruct (soft_not_hard (logs ++ concat segs)); [|done].
        by apply Forall_app.
      * left. by eexists.
      * right. by eexists.
      * destruct (soft_not_hard (logs ++ concat segs)); [|done].
        by apply Forall_app.
Qed.

(** ** The two polling loops and their maps *)

Lemma answered_app k ep tr1 tr2 :
  answered k ep tr1 → answered k ep tr2 → answered k ep (tr1 ++ tr2).
Proof.
  intros H1 H2 before u resp after Heq Hst.
  apply app_eq_inv in Heq as [(l & -> & Hl)|(l & -> & ->)].
  - destruct l as [|ev l]; simpl in Hl.
    + subst tr2. by apply (H2 [] u resp after).
    + injection Hl as <- ->.
      destruct (H1 before u resp l eq_refl Hst) as (e & after' & -> & He).
      by exists e, (after' ++ tr2).
  - by apply (H2 l u resp after).
Qed.

Lemma answered_one k ep ev :
  (∀ u resp, ev = EvHttpGet u 5 (inl resp) → Status resp ≠ "200 OK") →
  answered k ep [ev].
Proof.
  intros Hev before u resp after Heq Hst.
  destruct before as [|? [|? ?]]; simplify_eq/=. by destruct (Hev u resp).
Qed.

Lemma answered_ok k ep e u resp :
  ep !! e = Some u →
  answered k ep [EvHttpGet u 5 (inl resp); running_log k e].
Proof.
  intros He before u' resp' after Heq Hst.
  destruct before as [|? [|? [|? ?]]]; simplify_eq/=. by exists e, [].
Qed.

Section Shrinking.
Variable env : Env.

Lemma ping_entries_answers k ep0 entries ep w :
  (∀ e u, (e, u) ∈ entries → ep0 !! e = Some u) →
  ∃ new, events (ping_entries env k entries ep w).2 = events w ++ new
         ∧ answered k ep0 new.
Proof.
  revert ep w. induction entries as [|[e u] entries IH]; intros ep w Hin.
  - exists []. simpl. rewrite app_nil_r. split; [done |].
    intros before ? ? ? Heq. by destruct before.
  - assert (∀ e' u', (e', u') ∈ entries → ep0 !! e' = Some u') as Hrest
      by (intros e' u' H; apply Hin; by right).
    simpl. unfold bind, call, logf, Sleep, emit, ret. simpl.
    destruct (http_get env (calls w) u) as [resp|err]; simpl.
    + destruct (String.eqb (Status resp) "200 OK") eqn:Hst; simpl.
      * match goal with |- context [ping_entries env k entries ?m ?w1] =>
          destruct (IH m w1 Hrest) as (new & Hev & Hnew) end.
        exists ([EvHttpGet u 5 (inl resp); running_log k e] ++ new). split.
        { rewrite Hev. simpl. by rewrite <- !app_assoc. }
        apply answered_app; [|done]. apply answered_ok. apply Hin. by left.
      * exists [EvHttpGet u 5 (inl resp)]. split; [done |].
        apply answered_one. intros u' resp' [= _ ->] Hok.
        by rewrite Hok in Hst.
    + match goal with |- context [ping_entries env k entries ?m ?w1] =>
        destruct (IH m w1 Hrest) as (new & Hev & Hnew) end.
      eexists ([_] ++ [_] ++ [_] ++ new). split.
      { rewrite Hev. simpl. by rewrite <- !app_assoc. }
      repeat (apply answered_app; [by apply answered_one |]). done.
Qed.

Hypothesis Hrange : range_ok env.

Lemma pingEndPoints_answers fuel k ep0 ep w :
  ep ⊆ ep0 →
  ∃ new, events (pingEndPoints env fuel k ep w).2 = events w ++ new
         ∧ answered k ep0 new.
Proof.
  revert ep w. induction fuel as [|fuel IH]; intros ep w Hsub; simpl.
  - exists []. rewrite app_nil_r. split; [done |].
    intros before ? ? ? Heq. by destruct before.
  - unfold bind, range. simpl.
    match goal with |- context [ping_entries env k ?l ep ?w1] =>
      pose proof (ping_entries_shrinks env k l ep w1) as Hshrink;
      destruct (ping_entries_answers k ep0 l ep w1) as (new1 & Hev1 & Hnew1);
      [|destruct (ping_entries env k l ep w1) as [[r ep1] w2]] end.
    { intros e u Hin. apply (lookup_weaken ep); [|done].
      by apply (range_lookup env Hrange) in Hin. }
    simpl in *. destruct r as [err|]; simpl; [by exists new1 |].
    destruct (Nat.eqb (size ep1) 0); simpl; [by exists new1 |].
    destruct (IH ep1 w2) as (new2 & Hev2 & Hnew2); [by etrans |].
    exists (new1 ++ new2). split; [by rewrite Hev2, Hev1, <- app_assoc |].
    by apply answered_app.
Qed.

Lemma PodsStarted_loop_removed fuel k namespace podUp w r podUp' w' :
  PodsStarted_loop env fuel k namespace podUp w = (r, podUp', w') →
  ∃ new, events w' = events w ++ new
         ∧ (∀ key, listed_ready namespace key new → podUp' !! key = None)
         ∧ (podUp ≠ ∅ → podUp' = ∅ → r = Some None).
Proof.
  revert podUp w. induction fuel as [|fuel IH]; intros podUp w Hrun.
  - injection Hrun as <- <- <-. exists []. rewrite app_nil_r.
    split; [done |]. split; [|done].
    intros key (items & p & Hin & _). by apply elem_of_nil in Hin.
  - destruct (list_pods env (calls w) namespace) as [items|cause] eqn:Hlist.
    + destruct (PodsStarted_loop_listed env fuel k namespace podUp w items
                  Hlist)
        as (line & logs & w2 & podUp1 & Hlook & Hev & Hline & Hlogs & _
            & Hstep).
      specialize (Hlook Hrange). rewrite Hstep in Hrun. clear Hstep.
      assert (∀ key items' (p : v1.Pod),
                EvListPods namespace (inl items')
                ∈ line :: EvListPods namespace (inl items) :: logs →
                p ∈ items' → ready key p → podUp1 !! key = None) as Hhere.
      { intros key items' p Hin Hp Hready.
        apply elem_of_cons in Hin as [<-|Hin]; [done |].
        apply elem_of_cons in Hin as [Heq|Hin].
        - injection Heq as ->. rewrite Hlook.
          by rewrite (proj2 (existsb_ready key items) (ex_intro _ p (conj Hp Hready))).
        - eapply Forall_forall in Hlogs; [|exact Hin]. done. }
      destruct (Nat.eqb (size podUp1) 0) eqn:Hsize.
      * injection Hrun as <- <- <-. eexists. split; [exact Hev |].
        split; [|done].
        intros key (items' & p & Hin & Hp & Hready). by eapply Hhere.
      * pose proof Hrun as Hsub.
        apply (PodsStarted_loop_inv env Hrange) in Hsub
          as (_ & _ & Hsub & _).
        apply IH in Hrun as (new & Hev' & Hrem & Hdone).
        exists ((line :: EvListPods namespace (inl items) :: logs)
                  ++ EvSleep 1 :: new).
        split; [rewrite Hev'; simpl; by rewrite Hev, <- !app_assoc |].
        split.
        -- intros key (items' & p & Hin & Hp & Hready).
           apply elem_of_app in Hin as [Hin|Hin].
           ++ eapply lookup_weaken_None; [|exact Hsub]. by eapply Hhere.
           ++ apply elem_of_cons in Hin as [?|Hin]; [done |].
              apply Hrem. by exists items', p.
        -- intros _. apply Hdone. intros ->.
           by rewrite map_size_empty in Hsize.
    + destruct (PodsStarted_loop_list_failed env fuel k namespace podUp w cause
                  Hlist) as (line & w2 & Hev & Hline & Hstep).
      rewrite Hstep in Hrun. injection Hrun as <- <- <-.
      eexists. split; [exact Hev |]. split; [|done].
      intros key (items' & p & Hin & _).
      apply elem_of_cons in Hin as [<-|Hin]; [done |].
      apply elem_of_cons in Hin as [?|Hin]; [done |].
      by apply elem_of_nil in Hin.
Qed.

(** C10, as amended.  Both polling loops only shrink their map.  In
    [PodsStarted] the map at the end is part of the map at the start;
    a key of the map is gone exactly if one of the listings showed a
    running pod for it; success comes with an empty map, a loop that
    is still running has a map that is not empty, and when at least
    one name is expected the loop succeeds exactly when the map
    becomes empty; the only failure is a failed listing.  In
    [pingEndPoints] the caller's map at the end is part of the map at
    the start; an entry is gone only after a probe of its URL answered
    [200 OK]; every probe answered [200 OK] is followed at once by the
    line that reports an entry with that URL as running, and that
    entry is gone, as is every entry reported as running; success is
    returned exactly when the map is empty; on a health-check error
    the failing entry is still in the caller's map. *)
Theorem polling_maps_shrink :
  (∀ fuel k namespace podUp w r podUp' w',
     PodsStarted_loop env fuel k namespace podUp w = (r, podUp', w') →
     podUp' ⊆ podUp
     ∧ (∀ key, podUp' !! key ≠ podUp !! key →
               listed_ready namespace key (since w w'))
     ∧ (∀ key, listed_ready namespace key (since w w') →
               podUp' !! key = None)
     ∧ (r = Some None → podUp' = ∅)
     ∧ (r = None → fuel ≠ O → podUp' ≠ ∅)
     ∧ (podUp ≠ ∅ → fuel ≠ O → (r = Some None ↔ podUp' = ∅))
     ∧ (∀ err, r = Some (Some err) →
          ∃ before cause,
            since w w' = before ++ [EvListPods namespace (inr cause)]
            ∧ err = Wrap cause "error while listing all pods"))
  ∧ (∀ fuel k ep w r ep' w',
       pingEndPoints env fuel k ep w = (r, ep', w') →
       ep' ⊆ ep
       ∧ (∀ e, ep' !! e ≠ ep !! e →
               ∃ u, ep !! e = Some u ∧ probed_ok k e u (since w w'))
       ∧ (∀ before u resp after,
            since w w' = before ++ EvHttpGet u 5 (inl resp) :: after →
            Status resp = "200 OK" →
            ∃ e after', after = running_log k e :: after'
                        ∧ ep !! e = Some u ∧ ep' !! e = None)
       ∧ (∀ e, running_log k e ∈ since w w' → ep' !! e = None)
       ∧ (fuel ≠ O → (r = Some None ↔ ep' = ∅))
       ∧ (∀ err, r = Some (Some err) →
            ∃ e u status,
              err = health_error e status
              ∧ ep !! e = Some u ∧ ep' !! e = Some u)).
Proof.
  split.
  - intros fuel k namespace podUp w r podUp' w' Hrun.
    pose proof Hrun as Hrun'.
    apply (PodsStarted_loop_inv env Hrange) in Hrun
      as (new & Hev & Hsub & Hrem & Hend).
    apply PodsStarted_loop_removed in Hrun'
      as (new' & Hev' & Hgone & Hdone).
    assert (new' = new) as ->
      by (rewrite Hev in Hev'; by apply app_inv_head in Hev').
    rewrite (since_app _ _ _ Hev).
    split; [done |]. split; [done |]. split; [done |].
    split; [by intros -> |].
    split; [intros -> Hfuel; by destruct Hend as [[? _]|?] |].
    split; [|by intros err ->].
    intros Hne Hfuel. split; [by intros -> | by apply Hdone].
  - intros fuel k ep w r ep' w' Hrun.
    destruct (pingEndPoints_answers fuel k ep ep w) as (new' & Hev' & Hans);
      [done |].
    rewrite Hrun in Hev'. simpl in Hev'.
    apply pingEndPoints_inv in Hrun
      as (new & Hev & (Hsub & Hlog & Hrem) & Hend); [|done].
    assert (new' = new) as ->
      by (rewrite Hev in Hev'; by apply app_inv_head in Hev').
    rewrite (since_app _ _ _ Hev).
    split; [done |]. split; [done |]. split.
    { intros before u resp after Heq Hst.
      destruct (Hans before u resp after Heq Hst) as (e & after' & -> & He).
      exists e, after'. split; [done |]. split; [done |].
      apply Hlog. rewrite Heq. apply elem_of_app. right. right. by left. }
    split; [done |]. split.
    + intros Hfuel. split.
      * intros ->. by apply Hend.
      * intros ->. destruct r as [[err|]|]; [| done |].
        -- destruct Hend as [(e & u & _ & _ & _ & _ & _ & _ & He & _) _].
           by rewrite lookup_empty in He.
        -- by destruct Hend as [_ [[? _]|?]].
    + intros err ->.
      destruct Hend as [(e & u & st & _ & _ & _ & _ & ? & ? & ?) _].
      by exists e, u, st.
Qed.

End Shrinking.

(** ** The deletion of the namespace *)

Lemma count_delete_sorted (tr : list event) :
  StronglySorted in_order tr → (count is_delete tr ≤ 1)%nat.
Proof.
  induction 1 as [|ev tr Hs IH Hall]; simpl; [lia |].
  destruct (is_delete ev) eqn:Hd; [|lia].
  rewrite count_not_delete; [lia |].
  eapply Forall_impl; [exact Hall |]. intros ev' Hord.
  unfold not_delete. destruct (is_delete ev') eqn:Hd'; [|done].
  assert (stage ev = Some 8%nat ∧ stage ev' = Some 8%nat) as [H1 H2]
    by (by destruct ev, ev').
  destruct (Hord _ _ H1 H2) as [?|[_ ?]]; [lia | done].
Qed.

Section Deletion.
Variable env : Env.

(** C2, as amended.  In a subtest of [Test_Integration] whose
    namespace was created and whose steps end (they return, [t.Fatalf]
    stops them, or endpoint resolution panics), the namespace is
    deleted exactly once, after the steps and whatever their outcome; a
    failed deletion is logged and the verdict is the one the steps
    had reached.  In the sequential [RunTests], a test case that has
    returned and in which no step before the deletion failed has had
    its namespace deleted exactly once, and no other namespace; a
    failed deletion is returned to the caller, wrapped as
    [error deleting namespace].  What the sequential [RunTests] does
    about the namespace when an earlier step fails is not spoken
    of. *)
Theorem namespace_deletion_by_variant :
  (∀ fuel test w v w',
     create_ns env (calls w) (Namespace test) = None →
     subtest env fuel test w = (Some v, w') →
     ∃ before r logs,
       since w w' = before ++ EvDeleteNS (Namespace test) r :: logs
       ∧ Forall not_delete before
       ∧ Forall (λ ev, is_log ev = true) logs
       ∧ count is_delete (since w w') = 1%nat
       ∧ (∀ err, r = Some err →
                 delete_failure_log (Namespace test) err ∈ logs)
       ∧ (subtest_steps env fuel test
            (advance w 1
               [EvCreateNS (Namespace test) None;
                EvLog TLog "namespace %q created" [AStr (Namespace test)]])).1
         = Some v)
  ∧ (∀ fuel test w r w',
       RunTests_loop env fuel [test] w = (Some r, w') →
       (∀ ev, ev ∈ since w w' → hard_failure ev = true →
              is_delete ev = true) →
       count is_delete (since w w') = 1%nat
       ∧ ∀ ns d, EvDeleteNS ns d ∈ since w w' → ns = Namespace test)
  ∧ (∀ fuel tests w r w' ns err,
       RunTests_loop env fuel tests w = (r, w') →
       EvDeleteNS ns (Some err) ∈ since w w' →
       r = Some (Err (Wrapf err "error deleting namespace" []))).
Proof.
  split; [|split].
  - intros fuel test w v w' Hcreated Hrun.
    unfold subtest, createNS, bind, call in Hrun. simpl in Hrun.
    rewrite Hcreated in Hrun. simpl in Hrun.
    unfold bind, logf, emit in Hrun. simpl in Hrun.
    rewrite <- app_assoc in Hrun. simpl in Hrun.
    set (w1 := advance _ _ _).
    change (subtest_steps env fuel test _)
      with (subtest_steps env fuel test w1) in Hrun.
    destruct (subtest_steps env fuel test w1) as [[v'|] w2] eqn:Hsteps;
      [|done].
    apply (emits_run not_delete) in Hsteps as (new & Hev & Hquiet);
      [|apply subtest_steps_quiet].
    destruct (deleteNamespace_spec env (Namespace test) w2)
      as (w3 & logs & Hdel & Hev3 & Hlogs & Hfail).
    rewrite Hdel in Hrun. unfold ret in Hrun. injection Hrun as -> <-.
    exists ([EvCreateNS (Namespace test) None;
             EvLog TLog "namespace %q created" [AStr (Namespace test)]]
            ++ new),
      (delete_ns env (calls w2) (Namespace test)), logs.
    assert (since w w3
            = ([EvCreateNS (Namespace test) None;
                EvLog TLog "namespace %q created" [AStr (Namespace test)]]
               ++ new)
              ++ EvDeleteNS (Namespace test)
                   (delete_ns env (calls w2) (Namespace test)) :: logs)
      as ->.
    { apply since_app. rewrite Hev3, Hev. unfold w1. simpl.
      by rewrite <- !app_assoc. }
    assert (Forall not_delete
              ([EvCreateNS (Namespace test) None;
                EvLog TLog "namespace %q created" [AStr (Namespace test)]]
               ++ new)) as Hbefore.
    { apply Forall_app. split; [by repeat constructor | done]. }
    split; [done |]. split; [done |]. split; [done |]. split; [|done].
    rewrite count_app, (count_not_delete _ Hbefore). simpl.
    f_equal. apply (count_none _ is_log); [by intros [] | done].
  - intros fuel test w r w' Hrun Hsoft.
    apply RunTests_iteration in Hrun
      as (seg & Hst & Ht & [[Hev Hend]|(w1 & Hev & Hs & Hc & Hrest)]).
    + rewrite (since_app _ _ _ Hev) in *.
      destruct Ht as (Habout & _ & _ & Hsorted & _).
      pose proof (count_delete_sorted _ Hsorted) as Hle. split.
      * assert (ends_hard seg) as (before & ev & -> & _ & Hhard)
          by (by destruct r as [[]|err|p]).
        assert (is_delete ev = true) as Hdel.
        { apply Hsoft; [|done]. apply elem_of_app. right. by left. }
        rewrite count_app in *. simpl in *. rewrite Hdel in *. lia.
      * intros ns d Hin. eapply Forall_forall in Habout; [|exact Hin]. done.
    + injection Hrest as <- <-. rewrite (since_app _ _ _ Hev) in *.
      destruct Ht as (Habout & _ & _ & Hsorted & _).
      pose proof (count_delete_sorted _ Hsorted) as Hle. split.
      * destruct Hc as (mid & ->). unfold running_line, deleted_line in *.
        simpl in *. rewrite count_app in *. simpl in *. lia.
      * intros ns d Hin. eapply Forall_forall in Habout; [|exact Hin]. done.
  - intros fuel tests w r w' ns err Hrun Hin.
    apply RunTests_loop_failed_delete in Hrun as (new & Hev & Hnew).
    rewrite (since_app _ _ _ Hev) in Hin. by apply (Hnew ns).
Qed.

End Deletion.

(** ** The further properties on the stubs *)

Lemma leaf_footprints_witness :
  range_ok healthy
  ∧ emits (λ ev, watcher_event Logrus "ns" ev = true)
      (PodsStarted healthy 2 Logrus "ns" ["web"])
  ∧ emits (λ ev, resolver_event Logrus "ns" ev = true)
      (getEndPoints healthy Logrus "ns" (NodePortServices stub_case))
  ∧ emits (poller_event Logrus two_endpoints)
      (pingEndPoints healthy 2 Logrus two_endpoints).
Proof.
  split; [apply stub_range_ok |].
  exact (leaf_footprints healthy (stub_range_ok _ _ _ _) 2 Logrus "ns" ["web"]
           (NodePortServices stub_case) two_endpoints).
Defined.

Lemma web_db_same_elements : same_elements ["web"; "db"; "web"] ["db"; "web"].
Proof.
  intros x. rewrite !elem_of_cons, !elem_of_nil. tauto.
Defined.

Lemma backwards_range_ok : range_ok backwards.
Proof. intros V n m. apply reverse_Permutation. Defined.

Lemma same_listings (n : nat) :
  list_pods healthy n "ns" = list_pods backwards n "ns".
Proof. reflexivity. Defined.

Lemma PodsStarted_names_as_set_witness :
  range_ok healthy ∧ range_ok backwards
  ∧ (∀ n, list_pods healthy n "ns" = list_pods backwards n "ns")
  ∧ same_elements ["web"; "db"; "web"] ["db"; "web"]
  ∧ (PodsStarted healthy 3 Logrus "ns" ["web"; "db"; "web"] w0).1
    = (PodsStarted backwards 3 Logrus "ns" ["db"; "web"] w0).1
  ∧ calls_only
      (since w0 (PodsStarted healthy 3 Logrus "ns" ["web"; "db"; "web"] w0).2)
    = calls_only
        (since w0 (PodsStarted backwards 3 Logrus "ns" ["db"; "web"] w0).2).
Proof.
  split; [apply stub_range_ok |]. split; [exact backwards_range_ok |].
  split; [exact same_listings |]. split; [exact web_db_same_elements |].
  exact (PodsStarted_names_as_set healthy backwards 3 Logrus "ns" _ _ w0
           (stub_range_ok _ _ _ _) backwards_range_ok same_listings
           web_db_same_elements).
Defined.

(** The two runs do differ in what they log. *)
Example visiting_order_shows :
  since w0 (PodsStarted healthy 1 Logrus "ns" ["web"; "db"] w0).2
  ≠ since w0 (PodsStarted backwards 1 Logrus "ns" ["web"; "db"] w0).2.
Proof. vm_compute. discriminate. Qed.

Lemma rolling_range_ok : range_ok rolling.
Proof. intros V n m. reflexivity. Defined.

Lemma rolling_listed (i : nat) :
  (i ≤ 1)%nat →
  list_pods rolling (calls w0 + i) "ns" = inl (rolling_listings i).
Proof. intros _. reflexivity. Defined.

Lemma rolling_ready (name : string) :
  name ∈ ["web"; "db"] →
  ∃ i, (i ≤ 1)%nat ∧ ∃ p, p ∈ rolling_listings i ∧ ready name p.
Proof.
  intros [->|[->|[]%elem_of_nil]%elem_of_cons]%elem_of_cons.
  - exists 1%nat. split; [lia |]. exists stub_pod. split; [by left |].
    split; [by exists EmptyString, "-abc123" | done].
  - exists 0%nat. split; [lia |]. exists db_pod. split; [by left |].
    split; [by exists EmptyString, "-7f9c" | done].
Defined.

Lemma PodsStarted_within_witness :
  range_ok rolling
  ∧ (∀ i, (i ≤ 1)%nat →
       list_pods rolling (calls w0 + i) "ns" = inl (rolling_listings i))
  ∧ (∀ name, name ∈ ["web"; "db"] →
       ∃ i, (i ≤ 1)%nat ∧ ∃ p, p ∈ rolling_listings i ∧ ready name p)
  ∧ (1 < 2)%nat
  ∧ ∃ w', PodsStarted rolling 2 Logrus "ns" ["web"; "db"] w0 = (Some None, w')
          ∧ (count is_list_pods (since w0 w') ≤ 2)%nat.
Proof.
  split; [exact rolling_range_ok |]. split; [exact rolling_listed |].
  split; [exact rolling_ready |]. split; [lia |].
  exact (PodsStarted_within rolling 1 2 Logrus "ns" ["web"; "db"] w0
           rolling_listings rolling_range_ok rolling_listed rolling_ready
           ltac:(lia)).
Defined.

Lemma no_db_pod (c : nat) :
  (calls w0 ≤ c)%nat →
  ∃ items, list_pods healthy c "ns" = inl items
           ∧ ∀ p, p ∈ items → ¬ ready "db" p.
Proof.
  intros _. exists [stub_pod]. split; [reflexivity |].
  intros p ->%list_elem_of_singleton [Hsub _].
  apply Contains_spec in Hsub. discriminate Hsub.
Defined.

Lemma PodsStarted_waits_forever_witness :
  range_ok healthy
  ∧ "db" ∈ ["web"; "db"]
  ∧ (∀ c, (calls w0 ≤ c)%nat →
       ∃ items, list_pods healthy c "ns" = inl items
                ∧ ∀ p, p ∈ items → ¬ ready "db" p)
  ∧ (PodsStarted healthy 7 Logrus "ns" ["web"; "db"] w0).1 = None.
Proof.
  split; [apply stub_range_ok |].
  split; [by right; left |]. split; [exact no_db_pod |].
  exact (PodsStarted_waits_forever healthy 7 Logrus "ns" ["web"; "db"] w0 "db"
           (stub_range_ok _ _ _ _) ltac:(by right; left) no_db_pod).
Defined.

Lemma mapkeys_each_key_once_witness :
  range_ok healthy
  ∧ let keys := (mapkeys healthy (make_podUp ["web"; "db"]) w0).1 in
    NoDup keys
    ∧ (∀ key, key ∈ keys ↔ is_Some (make_podUp ["web"; "db"] !! key))
    ∧ length keys = size (make_podUp ["web"; "db"])
    ∧ events (mapkeys healthy (make_podUp ["web"; "db"]) w0).2 = events w0.
Proof.
  split; [apply stub_range_ok |].
  exact (mapkeys_each_key_once healthy (make_podUp ["web"; "db"]) w0
           (stub_range_ok _ _ _ _)).
Defined.

Lemma getEndPoints_last_match_wins_witness :
  list_nodes twins (calls w0) = inl [stub_node]
  ∧ v1.Addresses stub_node = ["10.0.0.5"]
  ∧ list_services twins (S (calls w0)) "ns"
    = inl [stub_service; moved_service]
  ∧ ∃ m w',
      getEndPoints twins Logrus "ns" (NodePortServices stub_case) w0
      = (Ok m, w')
      ∧ (∀ svc, svc ∈ NodePortServices stub_case →
           m !! endpoint_key svc
           = (λ p, endpoint_url "10.0.0.5" (v1.NodePort p))
               <$> last (candidates svc [stub_service; moved_service]))
      ∧ (size m ≤ length (NodePortServices stub_case))%nat.
Proof.
  split; [reflexivity |]. split; [reflexivity |]. split; [reflexivity |].
  exact (getEndPoints_last_match_wins twins Logrus "ns"
           (NodePortServices stub_case) w0 stub_node [] "10.0.0.5" []
           [stub_service; moved_service] eq_refl eq_refl eq_refl).
Defined.

(** On [twins] the endpoint of [svc:8080] is the node port listed
    last. *)
Example moved_service_wins :
  last (candidates {| Name := "svc"; Port := 8080 |}
          [stub_service; moved_service])
  = Some {| v1.Port := 8080; v1.NodePort := 30081 |}.
Proof. reflexivity. Qed.

Lemma always_ok (c : nat) (e u : string) :
  two_endpoints !! e = Some u →
  ∃ r, http_get healthy c u = inl r ∧ Status r = "200 OK".
Proof. intros _. by eexists. Defined.

Lemma pingEndPoints_all_healthy_witness :
  range_ok healthy
  ∧ (∀ c e u, two_endpoints !! e = Some u →
       ∃ r, http_get healthy c u = inl r ∧ Status r = "200 OK")
  ∧ ∃ w', pingEndPoints healthy 1 Logrus two_endpoints w0 = (Some None, ∅, w')
          ∧ count is_http_get (since w0 w') = size two_endpoints
          ∧ count is_sleep (since w0 w') = O.
Proof.
  split; [apply stub_range_ok |]. split; [exact always_ok |].
  exact (pingEndPoints_all_healthy healthy (stub_range_ok _ _ _ _) 0 Logrus
           two_endpoints w0 always_ok).
Defined.

Lemma two_endpoints_not_empty : two_endpoints ≠ ∅.
Proof. apply insert_non_empty. Defined.

Lemma always_refused (c : nat) (e u : string) :
  two_endpoints !! e = Some u → ∃ err, http_get unreachable c u = inr err.
Proof. intros _. by eexists. Defined.

Lemma pingEndPoints_unreachable_forever_witness :
  range_ok unreachable
  ∧ two_endpoints ≠ ∅
  ∧ (∀ c e u, two_endpoints !! e = Some u →
       ∃ err, http_get unreachable c u = inr err)
  ∧ ∃ w', pingEndPoints unreachable 5 Logrus two_endpoints w0
          = (None, two_endpoints, w')
          ∧ count is_http_get (since w0 w') = (5 * size two_endpoints)%nat.
Proof.
  split; [apply stub_range_ok |]. split; [exact two_endpoints_not_empty |].
  split; [exact always_refused |].
  exact (pingEndPoints_unreachable_forever unreachable (stub_range_ok _ _ _ _)
           5 Logrus two_endpoints w0 two_endpoints_not_empty always_refused).
Defined.

(** ** The amended statements on the stubs *)

Lemma polling_maps_shrink_witness :
  range_ok rolling ∧ range_ok flaky
  ∧ rolling_run.1.1 = Some None
  ∧ rolling_run.1.2 ⊆ make_podUp ["web"; "db"]
  ∧ rolling_run.1.2 = ∅
  ∧ flaky_run.1.1 = Some (Some (health_error "db:3306" "201 Created"))
  ∧ since w0 flaky_run.2
    = [] ++ EvHttpGet "http://10.0.0.5:30080" 5 (inl {| Status := "200 OK" |})
         :: [running_log Logrus "svc:8080";
             EvHttpGet "http://10.0.0.5:30306" 5
               (inl {| Status := "201 Created" |})]
  ∧ flaky_run.1.2 ⊆ two_endpoints
  ∧ (∃ e after',
       [running_log Logrus "svc:8080";
        EvHttpGet "http://10.0.0.5:30306" 5
          (inl {| Status := "201 Created" |})]
       = running_log Logrus e :: after'
       ∧ two_endpoints !! e = Some "http://10.0.0.5:30080"
       ∧ flaky_run.1.2 !! e = None)
  ∧ (∃ e u status,
       health_error "db:3306" "201 Created" = health_error e status
       ∧ two_endpoints !! e = Some u ∧ flaky_run.1.2 !! e = Some u).
Proof.
  assert (rolling_run.1.1 = Some None) as Hdone by (vm_compute; reflexivity).
  assert (flaky_run.1.1
          = Some (Some (health_error "db:3306" "201 Created"))) as Hfailed
    by (vm_compute; reflexivity).
  assert (since w0 flaky_run.2
          = [] ++ EvHttpGet "http://10.0.0.5:30080" 5
                    (inl {| Status := "200 OK" |})
               :: [running_log Logrus "svc:8080";
                   EvHttpGet "http://10.0.0.5:30306" 5
                     (inl {| Status := "201 Created" |})]) as Htrace
    by (vm_compute; reflexivity).
  destruct (polling_maps_shrink rolling rolling_range_ok) as [Hwatch _].
  destruct (polling_maps_shrink flaky (stub_range_ok _ _ _ _)) as [_ Hping].
  destruct (Hwatch 2%nat Logrus "ns" (make_podUp ["web"; "db"]) w0 _ _ _
              (run_eta rolling_run)) as (Hsub & _ & _ & Hempty & _).
  destruct (Hping 3%nat Logrus two_endpoints w0 _ _ _ (run_eta flaky_run))
    as (Hsub' & _ & Hok & _ & _ & Hkept).
  split; [exact rolling_range_ok |]. split; [apply stub_range_ok |].
  split; [exact Hdone |]. split; [exact Hsub |].
  split; [exact (Hempty Hdone) |]. split; [exact Hfailed |].
  split; [exact Htrace |]. split; [exact Hsub' |].
  split; [exact (Hok _ _ _ _ Htrace eq_refl) | exact (Hkept _ Hfailed)].
Defined.

(** C10 as stated fails on [PodsStarted]: with no expected name the
    map is empty from the start, and yet the loop does not end
    successfully when the listing fails. *)
Lemma PodsStarted_fails_on_empty_map :
  unlisted_run.1.2 = ∅
  ∧ unlisted_run.1.1
    = Some (Some (Wrap (External "forbidden") "error while listing all pods"))
  ∧ (PodsStarted unlisted 1 Logrus "ns" [] w0).1
    = Some (Some (Wrap (External "forbidden") "error while listing all pods"))
  ∧ ¬ (unlisted_run.1.1 = Some None ↔ unlisted_run.1.2 = ∅).
Proof.
  assert (unlisted_run.1.2 = ∅) as Hempty by reflexivity.
  split; [exact Hempty |]. split; [reflexivity |]. split; [reflexivity |].
  intros [_ H]. specialize (H Hempty). discriminate H.
Qed.

Lemma only_the_deletion_fails (ev : event) :
  ev ∈ since w0 sequential_delete_fails_run.2 →
  hard_failure ev = true → is_delete ev = true.
Proof.
  intros Hin Hhard.
  assert (forallb (λ ev, implb (hard_failure ev) (is_delete ev))
            (since w0 sequential_delete_fails_run.2) = true) as Hall
    by (vm_compute; reflexivity).
  rewrite forallb_forall in Hall. apply list_elem_of_In, Hall in Hin.
  by rewrite Hhard in Hin.
Defined.

Lemma namespace_deletion_by_variant_witness :
  create_ns delete_fails (calls w0) (Namespace stub_case) = None
  ∧ subtest_delete_fails_run.1 = Some Passed
  ∧ (∃ before r logs,
       since w0 subtest_delete_fails_run.2
       = before ++ EvDeleteNS (Namespace stub_case) r :: logs
       ∧ Forall not_delete before
       ∧ Forall (λ ev, is_log ev = true) logs
       ∧ count is_delete (since w0 subtest_delete_fails_run.2) = 1%nat
       ∧ (∀ err, r = Some err →
                 delete_failure_log (Namespace stub_case) err ∈ logs)
       ∧ (subtest_steps delete_fails 1 stub_case
            (advance w0 1
               [EvCreateNS (Namespace stub_case) None;
                EvLog TLog "namespace %q created"
                  [AStr (Namespace stub_case)]])).1
         = Some Passed)
  ∧ sequential_delete_fails_run.1
    = Some (Err (Wrapf (External "forbidden") "error deleting namespace" []))
  ∧ (∀ ev, ev ∈ since w0 sequential_delete_fails_run.2 →
           hard_failure ev = true → is_delete ev = true)
  ∧ count is_delete (since w0 sequential_delete_fails_run.2) = 1%nat
  ∧ (∀ ns d, EvDeleteNS ns d ∈ since w0 sequential_delete_fails_run.2 →
             ns = Namespace stub_case)
  ∧ EvDeleteNS "ns" (Some (External "forbidden"))
    ∈ since w0 sequential_delete_fails_run.2.
Proof.
  assert (subtest_delete_fails_run.1 = Some Passed) as Hpassed
    by (vm_compute; reflexivity).
  assert (sequential_delete_fails_run.1
          = Some (Err (Wrapf (External "forbidden")
                         "error deleting namespace" []))) as Hfailed
    by (vm_compute; reflexivity).
  assert (EvDeleteNS "ns" (Some (External "forbidden"))
          ∈ since w0 sequential_delete_fails_run.2) as Hin
    by (vm_compute; repeat first [by left | right]).
  destruct (namespace_deletion_by_variant delete_fails)
    as (Hsubtest & Hcount & Hreturned).
  split; [reflexivity |]. split; [exact Hpassed |]. split.
  { exact (Hsubtest 1%nat stub_case w0 Passed _ eq_refl
             (pair_eta subtest_delete_fails_run _ Hpassed)). }
  split.
  { exact (Hreturned 1%nat [stub_case] w0 _ _ "ns" (External "forbidden")
             (pair_eta sequential_delete_fails_run _ eq_refl) Hin). }
  split; [exact only_the_deletion_fails |].
  destruct (Hcount 1%nat stub_case w0 _ _
              (pair_eta sequential_delete_fails_run _ Hfailed)
              only_the_deletion_fails) as [Hone Hns].
  split; [exact Hone |]. split; [exact Hns | exact Hin].
Defined.

(** C2 as stated fails on the sequential [RunTests].  When the
    generator fails after the namespace was created, the run returns
    without any deletion; when every step succeeds and the deletion
    fails, the error of the deletion is what the run returns. *)
Lemma sequential_run_skips_or_propagates_deletion :
  EvCreateNS "ns" None ∈ events sequential_kapp_fails_run.2
  ∧ (∃ err, sequential_kapp_fails_run.1
            = Some (Err (Wrapf err "error running kapp" [])))
  ∧ count is_delete (events sequential_kapp_fails_run.2) ≠ 1%nat
  ∧ EvDeleteNS "ns" (Some (External "forbidden"))
    ∈ events sequential_delete_fails_run.2
  ∧ sequential_delete_fails_run.1
    = Some (Err (Wrapf (External "forbidden") "error deleting namespace" [])).
Proof.
  split; [vm_compute; repeat first [by left | right] |].
  split; [eexists; vm_compute; reflexivity |].
  split; [vm_compute; discriminate |].
  split; [vm_compute; repeat first [by left | right] | by vm_compute].
Qed.
